(** * Quantum-mining: the per-frame simulation of [GameCanvas], embedded in Rocq

    The development follows [utils/physics.ts], [types.ts], [constants.ts],
    the [update] callback of [components/GameCanvas.tsx] (sector-aware
    revision) and the phase handlers of [App.tsx].

    Numbers.  A JavaScript [number] is modelled by a real number; the
    counters that only ever hold integers in the program (frame timers,
    cargo, credits, ammunition, sector and population counts) are
    modelled by [Z], and upgrade levels, which start at 0 or 1 and are
    only ever incremented, by [nat].  Rounding of IEEE doubles is not
    modelled: arithmetic is exact.

    Effects.  The refs of the component ([shipRef], [asteroidsRef],
    [minesRef], ...) are the fields of one [World] record that every
    function threads.  [Math.random] reads an oracle stream kept in the
    world.  Calls that leave the component (audio cues, [syncUI],
    [setGameState], [onSectorCleared]) are appended to [log], most recent
    first. *)

From Stdlib Require Import Reals Lra Lia ZArith List String Bool Psatz.
Import ListNotations.
Open Scope R_scope.

(** ** Comparisons and [Math] functions *)

Definition Rltb (a b : R) : bool := if Rlt_dec a b then true else false.
Definition Rleb (a b : R) : bool := if Rle_dec a b then true else false.
Definition Rgtb (a b : R) : bool := Rltb b a.

(** [Math.atan2 y x] on finite, unsigned arguments. *)
Definition atan2 (y x : R) : R :=
  if Rlt_dec 0 x then atan (y / x)
  else if Rlt_dec x 0 then
         (if Rle_dec 0 y then atan (y / x) + PI else atan (y / x) - PI)
  else if Rlt_dec 0 y then PI / 2
  else if Rlt_dec y 0 then - (PI / 2)
  else 0.

(** [Math.floor], as an integer. *)
Definition floor (r : R) : Z := Int_part r.

(** ** types.ts *)

Inductive GameState :=
| MENU | PLAYING | DOCKED | GAME_OVER
| SECTOR_CLEARED. (* the value [App.handleSectorCleared] stores; [update]
                     only ever tests for [PLAYING] *)

Inductive AsteroidTier := TITAN | CHUNK | ORE | VOLATILE.

Inductive MineState := ARMED | PUCKER | DETONATING | DEAD.

Definition GameState_eqb (a b : GameState) : bool :=
  match a, b with
  | MENU, MENU | PLAYING, PLAYING | DOCKED, DOCKED
  | GAME_OVER, GAME_OVER | SECTOR_CLEARED, SECTOR_CLEARED => true
  | _, _ => false
  end.

Definition tier_eqb (a b : AsteroidTier) : bool :=
  match a, b with
  | TITAN, TITAN | CHUNK, CHUNK | ORE, ORE | VOLATILE, VOLATILE => true
  | _, _ => false
  end.

Definition MineState_eqb (a b : MineState) : bool :=
  match a, b with
  | ARMED, ARMED | PUCKER, PUCKER | DETONATING, DETONATING | DEAD, DEAD => true
  | _, _ => false
  end.

Record Point := { px : R; py : R }.

Module Particle.
Record t := mk {
    id : R; x : R; y : R; vx : R; vy : R; radius : R; color : string;
    angle : R; life : R; maxLife : R; decay : R }.
Definition set_x (v : R) (r : t) : t :=
  mk (id r) v (y r) (vx r) (vy r) (radius r) (color r) (angle r) (life r) (maxLife r) (decay r).
Definition set_y (v : R) (r : t) : t :=
  mk (id r) (x r) v (vx r) (vy r) (radius r) (color r) (angle r) (life r) (maxLife r) (decay r).
Definition set_life (v : R) (r : t) : t :=
  mk (id r) (x r) (y r) (vx r) (vy r) (radius r) (color r) (angle r) v (maxLife r) (decay r).
End Particle.

Module Asteroid.
Record t := mk {
    id : R; x : R; y : R; vx : R; vy : R; radius : R; angle : R;
    color : string; tier : AsteroidTier; hp : R; rotationSpeed : R;
    shape : list R }.
Definition set_x (v : R) (r : t) : t :=
  mk (id r) v (y r) (vx r) (vy r) (radius r) (angle r) (color r) (tier r) (hp r) (rotationSpeed r) (shape r).
Definition set_y (v : R) (r : t) : t :=
  mk (id r) (x r) v (vx r) (vy r) (radius r) (angle r) (color r) (tier r) (hp r) (rotationSpeed r) (shape r).
Definition set_vx (v : R) (r : t) : t :=
  mk (id r) (x r) (y r) v (vy r) (radius r) (angle r) (color r) (tier r) (hp r) (rotationSpeed r) (shape r).
Definition set_vy (v : R) (r : t) : t :=
  mk (id r) (x r) (y r) (vx r) v (radius r) (angle r) (color r) (tier r) (hp r) (rotationSpeed r) (shape r).
Definition set_angle (v : R) (r : t) : t :=
  mk (id r) (x r) (y r) (vx r) (vy r) (radius r) v (color r) (tier r) (hp r) (rotationSpeed r) (shape r).
Definition set_hp (v : R) (r : t) : t :=
  mk (id r) (x r) (y r) (vx r) (vy r) (radius r) (angle r) (color r) (tier r) v (rotationSpeed r) (shape r).
Definition pos (a : t) : Point := {| px := x a; py := y a |}.
End Asteroid.

Module Mine.
Record t := mk {
    id : R; x : R; y : R; vx : R; vy : R; radius : R; angle : R;
    color : string; timer : Z; state : MineState }.
Definition set_timer (v : Z) (r : t) : t :=
  mk (id r) (x r) (y r) (vx r) (vy r) (radius r) (angle r) (color r) v (state r).
Definition set_state (v : MineState) (r : t) : t :=
  mk (id r) (x r) (y r) (vx r) (vy r) (radius r) (angle r) (color r) (timer r) v.
Definition pos (m : t) : Point := {| px := x m; py := y m |}.
End Mine.

Module Ship.
Record t := mk {
    id : string; x : R; y : R; vx : R; vy : R; radius : R; angle : R;
    color : string;
    thrusting : bool; reversing : bool; rotatingLeft : bool;
    rotatingRight : bool; firing : bool;
    hull : R; maxHull : R; shield : R; maxShield : R;
    cargo : Z; maxCargo : Z; credits : Z; ammo : Z;
    invulnerableTimer : Z }.
Definition set_x (v : R) (r : t) : t :=
  mk (id r) v (y r) (vx r) (vy r) (radius r) (angle r) (color r) (thrusting r) (reversing r) (rotatingLeft r) (rotatingRight r) (firing r) (hull r) (maxHull r) (shield r) (maxShield r) (cargo r) (maxCargo r) (credits r) (ammo r) (invulnerableTimer r).
Definition set_y (v : R) (r : t) : t :=
  mk (id r) (x r) v (vx r) (vy r) (radius r) (angle r) (color r) (thrusting r) (reversing r) (rotatingLeft r) (rotatingRight r) (firing r) (hull r) (maxHull r) (shield r) (maxShield r) (cargo r) (maxCargo r) (credits r) (ammo r) (invulnerableTimer r).
Definition set_vx (v : R) (r : t) : t :=
  mk (id r) (x r) (y r) v (vy r) (radius r) (angle r) (color r) (thrusting r) (reversing r) (rotatingLeft r) (rotatingRight r) (firing r) (hull r) (maxHull r) (shield r) (maxShield r) (cargo r) (maxCargo r) (credits r) (ammo r) (invulnerableTimer r).
Definition set_vy (v : R) (r : t) : t :=
  mk (id r) (x r) (y r) (vx r) v (radius r) (angle r) (color r) (thrusting r) (reversing r) (rotatingLeft r) (rotatingRight r) (firing r) (hull r) (maxHull r) (shield r) (maxShield r) (cargo r) (maxCargo r) (credits r) (ammo r) (invulnerableTimer r).
Definition set_angle (v : R) (r : t) : t :=
  mk (id r) (x r) (y r) (vx r) (vy r) (radius r) v (color r) (thrusting r) (reversing r) (rotatingLeft r) (rotatingRight r) (firing r) (hull r) (maxHull r) (shield r) (maxShield r) (cargo r) (maxCargo r) (credits r) (ammo r) (invulnerableTimer r).
Definition set_thrusting (v : bool) (r : t) : t :=
  mk (id r) (x r) (y r) (vx r) (vy r) (radius r) (angle r) (color r) v (reversing r) (rotatingLeft r) (rotatingRight r) (firing r) (hull r) (maxHull r) (shield r) (maxShield r) (cargo r) (maxCargo r) (credits r) (ammo r) (invulnerableTimer r).
Definition set_hull (v : R) (r : t) : t :=
  mk (id r) (x r) (y r) (vx r) (vy r) (radius r) (angle r) (color r) (thrusting r) (reversing r) (rotatingLeft r) (rotatingRight r) (firing r) v (maxHull r) (shield r) (maxShield r) (cargo r) (maxCargo r) (credits r) (ammo r) (invulnerableTimer r).
Definition set_shield (v : R) (r : t) : t :=
  mk (id r) (x r) (y r) (vx r) (vy r) (radius r) (angle r) (color r) (thrusting r) (reversing r) (rotatingLeft r) (rotatingRight r) (firing r) (hull r) (maxHull r) v (maxShield r) (cargo r) (maxCargo r) (credits r) (ammo r) (invulnerableTimer r).
Definition set_cargo (v : Z) (r : t) : t :=
  mk (id r) (x r) (y r) (vx r) (vy r) (radius r) (angle r) (color r) (thrusting r) (reversing r) (rotatingLeft r) (rotatingRight r) (firing r) (hull r) (maxHull r) (shield r) (maxShield r) v (maxCargo r) (credits r) (ammo r) (invulnerableTimer r).
Definition set_ammo (v : Z) (r : t) : t :=
  mk (id r) (x r) (y r) (vx r) (vy r) (radius r) (angle r) (color r) (thrusting r) (reversing r) (rotatingLeft r) (rotatingRight r) (firing r) (hull r) (maxHull r) (shield r) (maxShield r) (cargo r) (maxCargo r) (credits r) v (invulnerableTimer r).
Definition set_invulnerableTimer (v : Z) (r : t) : t :=
  mk (id r) (x r) (y r) (vx r) (vy r) (radius r) (angle r) (color r) (thrusting r) (reversing r) (rotatingLeft r) (rotatingRight r) (firing r) (hull r) (maxHull r) (shield r) (maxShield r) (cargo r) (maxCargo r) (credits r) (ammo r) v.
Definition set_maxHull (v : R) (r : t) : t :=
  mk (id r) (x r) (y r) (vx r) (vy r) (radius r) (angle r) (color r) (thrusting r) (reversing r) (rotatingLeft r) (rotatingRight r) (firing r) (hull r) v (shield r) (maxShield r) (cargo r) (maxCargo r) (credits r) (ammo r) (invulnerableTimer r).
Definition set_maxShield (v : R) (r : t) : t :=
  mk (id r) (x r) (y r) (vx r) (vy r) (radius r) (angle r) (color r) (thrusting r) (reversing r) (rotatingLeft r) (rotatingRight r) (firing r) (hull r) (maxHull r) (shield r) v (cargo r) (maxCargo r) (credits r) (ammo r) (invulnerableTimer r).
Definition set_maxCargo (v : Z) (r : t) : t :=
  mk (id r) (x r) (y r) (vx r) (vy r) (radius r) (angle r) (color r) (thrusting r) (reversing r) (rotatingLeft r) (rotatingRight r) (firing r) (hull r) (maxHull r) (shield r) (maxShield r) (cargo r) v (credits r) (ammo r) (invulnerableTimer r).
Definition set_credits (v : Z) (r : t) : t :=
  mk (id r) (x r) (y r) (vx r) (vy r) (radius r) (angle r) (color r) (thrusting r) (reversing r) (rotatingLeft r) (rotatingRight r) (firing r) (hull r) (maxHull r) (shield r) (maxShield r) (cargo r) (maxCargo r) v (ammo r) (invulnerableTimer r).
Definition pos (s : t) : Point := {| px := x s; py := y s |}.
End Ship.

Record Upgrades := {
  engineLevel : nat; handlingLevel : nat; hullLevel : nat;
  cargoLevel : nat; laserLevel : nat; shieldLevel : nat }.

Record Camera := { cam_x : R; cam_y : R; zoom : R }.

(** [laserRef]: beam geometry handed to the renderer. *)
Record Laser := {
  active : bool; laser_x : R; laser_y : R; laser_length : R; laser_angle : R }.

(** ** constants.ts *)

Definition FRICTION : R := 0.98.
Definition SHIP_ACCEL : R := 0.15.
Definition SHIP_ROTATION_SPEED : R := 0.08.
Definition MAX_SPEED : R := 8.
Definition LASER_RANGE : R := 250.
Definition STATION_RADIUS : R := 150.
Definition STATION_SHIELD_RADIUS : R := 220.
Definition STARTING_CREDITS : Z := 100.
Definition STARTING_AMMO : Z := 3.
Definition MINE_PUCKER_DURATION : Z := 60.
Definition MINE_BLAST_RADIUS : R := 300.
Definition MINE_PUCKER_FORCE : R := 0.5.
Definition MINE_BLAST_FORCE : R := 15.
Definition SHIP_RADIUS : R := 15.
Definition TITAN_RADIUS : R := 60.
Definition CHUNK_RADIUS : R := 25.
Definition ORE_RADIUS : R := 5.
Definition VOLATILE_RADIUS : R := 50.
Definition COLOR_THRUST : string := "#00ffff".
Definition COLOR_ORE : string := "#4ade80".
Definition COLOR_TITAN : string := "#94a3b8".
Definition COLOR_VOLATILE : string := "#f97316".
Definition COLOR_CHUNK : string := "#64748b".
Definition COLOR_DANGER : string := "#ef4444".

(** ** Effects leaving the component *)

Inductive ExplosionSize := small | large.

Inductive Event :=
| AudioSetThrust (on : bool)
| AudioSetLaser (on : bool)
| AudioSetTractor (on : bool)
| AudioPlayExplosion (size : ExplosionSize)
| AudioPlayMinePucker
| AudioPlayMineArmed
| AudioPlayPickup
| AudioPlayUI (kind : string)
| SyncUI
| SetGameState (g : GameState)
| OnSectorCleared (percent : Z) (ore : Z)
(* trace markers, not calls of the program: [breakAsteroid] was entered
   for this asteroid; the ORE-collision branch collected this asteroid *)
| TraceBreak (a : Asteroid.t)
| TracePickup (a : Asteroid.t).

(** The [Math.random] oracle: the stream of future draws. *)
Record Rng := { draws : nat -> R; cursor : nat }.

Record World := mkWorld {
  ship : Ship.t;
  upgrades : Upgrades;
  asteroids : list Asteroid.t;
  mines : list Mine.t;
  particles : list Particle.t;
  camera : Camera;
  shake : R;
  laser : Laser;
  levelInitialAsteroids : Z;
  sectorOreCollected : Z;
  prevSector : Z;
  prevGameState : GameState;
  rng : Rng;
  log : list Event }.

Definition set_ship (v : Ship.t) (w : World) : World :=
  mkWorld v (upgrades w) (asteroids w) (mines w) (particles w) (camera w) (shake w) (laser w) (levelInitialAsteroids w) (sectorOreCollected w) (prevSector w) (prevGameState w) (rng w) (log w).
Definition set_upgrades (v : Upgrades) (w : World) : World :=
  mkWorld (ship w) v (asteroids w) (mines w) (particles w) (camera w) (shake w) (laser w) (levelInitialAsteroids w) (sectorOreCollected w) (prevSector w) (prevGameState w) (rng w) (log w).
Definition set_asteroids (v : list Asteroid.t) (w : World) : World :=
  mkWorld (ship w) (upgrades w) v (mines w) (particles w) (camera w) (shake w) (laser w) (levelInitialAsteroids w) (sectorOreCollected w) (prevSector w) (prevGameState w) (rng w) (log w).
Definition set_mines (v : list Mine.t) (w : World) : World :=
  mkWorld (ship w) (upgrades w) (asteroids w) v (particles w) (camera w) (shake w) (laser w) (levelInitialAsteroids w) (sectorOreCollected w) (prevSector w) (prevGameState w) (rng w) (log w).
Definition set_particles (v : list Particle.t) (w : World) : World :=
  mkWorld (ship w) (upgrades w) (asteroids w) (mines w) v (camera w) (shake w) (laser w) (levelInitialAsteroids w) (sectorOreCollected w) (prevSector w) (prevGameState w) (rng w) (log w).
Definition set_camera (v : Camera) (w : World) : World :=
  mkWorld (ship w) (upgrades w) (asteroids w) (mines w) (particles w) v (shake w) (laser w) (levelInitialAsteroids w) (sectorOreCollected w) (prevSector w) (prevGameState w) (rng w) (log w).
Definition set_shake (v : R) (w : World) : World :=
  mkWorld (ship w) (upgrades w) (asteroids w) (mines w) (particles w) (camera w) v (laser w) (levelInitialAsteroids w) (sectorOreCollected w) (prevSector w) (prevGameState w) (rng w) (log w).
Definition set_laser (v : Laser) (w : World) : World :=
  mkWorld (ship w) (upgrades w) (asteroids w) (mines w) (particles w) (camera w) (shake w) v (levelInitialAsteroids w) (sectorOreCollected w) (prevSector w) (prevGameState w) (rng w) (log w).
Definition set_levelInitialAsteroids (v : Z) (w : World) : World :=
  mkWorld (ship w) (upgrades w) (asteroids w) (mines w) (particles w) (camera w) (shake w) (laser w) v (sectorOreCollected w) (prevSector w) (prevGameState w) (rng w) (log w).
Definition set_sectorOreCollected (v : Z) (w : World) : World :=
  mkWorld (ship w) (upgrades w) (asteroids w) (mines w) (particles w) (camera w) (shake w) (laser w) (levelInitialAsteroids w) v (prevSector w) (prevGameState w) (rng w) (log w).
Definition set_prevSector (v : Z) (w : World) : World :=
  mkWorld (ship w) (upgrades w) (asteroids w) (mines w) (particles w) (camera w) (shake w) (laser w) (levelInitialAsteroids w) (sectorOreCollected w) v (prevGameState w) (rng w) (log w).
Definition set_prevGameState (v : GameState) (w : World) : World :=
  mkWorld (ship w) (upgrades w) (asteroids w) (mines w) (particles w) (camera w) (shake w) (laser w) (levelInitialAsteroids w) (sectorOreCollected w) (prevSector w) v (rng w) (log w).
Definition set_rng (v : Rng) (w : World) : World :=
  mkWorld (ship w) (upgrades w) (asteroids w) (mines w) (particles w) (camera w) (shake w) (laser w) (levelInitialAsteroids w) (sectorOreCollected w) (prevSector w) (prevGameState w) v (log w).
Definition set_log (v : list Event) (w : World) : World :=
  mkWorld (ship w) (upgrades w) (asteroids w) (mines w) (particles w) (camera w) (shake w) (laser w) (levelInitialAsteroids w) (sectorOreCollected w) (prevSector w) (prevGameState w) (rng w) v.

Definition emit (e : Event) (w : World) : World := set_log (e :: log w) w.

(** What the frame reads from the outside: props, window size, devices. *)
Record Frame := {
  gameState : GameState;
  sector : Z;
  screen_width : R;
  screen_height : R;
  keysPressed : list string;
  mouse_x : R;
  mouse_y : R;
  mouse_down : bool;
  mouse_rightDown : bool }.

Definition has (keys : list string) (k : string) : bool :=
  existsb (String.eqb k) keys.


(** ** utils/physics.ts *)

Definition distance (p1 p2 : Point) : R :=
  sqrt ((px p2 - px p1) ^ 2 + (py p2 - py p1) ^ 2).

Definition normalize (v : Point) : Point :=
  let mag := sqrt (px v * px v + py v * py v) in
  if Req_dec_T mag 0 then {| px := 0; py := 0 |}
  else {| px := px v / mag; py := py v / mag |}.

(** [checkCollision e1 e2], on the position and radius of each entity. *)
Definition checkCollision (p1 : Point) (r1 : R) (p2 : Point) (r2 : R) : bool :=
  let dist := distance p1 p2 in
  Rltb dist (r1 + r2).

Definition random (w : World) : R * World :=
  let g := rng w in
  (draws g (cursor g), set_rng {| draws := draws g; cursor := S (cursor g) |} w).

Definition randomRange (min max : R) (w : World) : R * World :=
  let (r, w1) := random w in
  (r * (max - min) + min, w1).

Fixpoint generatePolygonOffsets (vertexCount : nat) (variance : R) (w : World)
  : list R * World :=
  match vertexCount with
  | O => ([], w)
  | S n =>
      let (o, w1) := randomRange (1 - variance) (1 + variance) w in
      let (os, w2) := generatePolygonOffsets n variance w1 in
      (o :: os, w2)
  end.

(** ** Loops *)

(** [for (let i = 0; i < n; i++) body]. *)
Fixpoint times (n : nat) (body : World -> World) (w : World) : World :=
  match n with
  | O => w
  | S k => times k body (body w)
  end.

(** [arr.forEach(body)]: the bound is the length of the array when the
    loop starts, so elements pushed by the body are not visited; the body
    gets the index and reads the element from the current state, because
    the elements are shared mutable objects. *)
Fixpoint forEachFrom {St : Type} (n i : nat) (body : nat -> St -> St) (s : St)
  : St :=
  match n with
  | O => s
  | S k => forEachFrom k (S i) body (body i s)
  end.

Definition forEach {St : Type} (len : nat) (body : nat -> St -> St) (s : St)
  : St := forEachFrom len 0 body s.

Fixpoint setNth {A : Type} (i : nat) (v : A) (l : list A) : list A :=
  match l, i with
  | [], _ => []
  | _ :: t, O => v :: t
  | h :: t, S j => h :: setNth j v t
  end.

Definition putAsteroid (i : nat) (a : Asteroid.t) (w : World) : World :=
  set_asteroids (setNth i a (asteroids w)) w.

Definition putMine (i : nat) (m : Mine.t) (w : World) : World :=
  set_mines (setNth i m (mines w)) w.

(** ** GameCanvas: spawning *)

Definition spawnAsteroid (tier : AsteroidTier) (x y vx vy : R) (w : World)
  : World :=
  let size := match tier with
              | TITAN => TITAN_RADIUS | VOLATILE => VOLATILE_RADIUS
              | CHUNK => CHUNK_RADIUS | ORE => ORE_RADIUS end in
  let color := match tier with
               | TITAN => COLOR_TITAN | VOLATILE => COLOR_VOLATILE
               | CHUNK => COLOR_CHUNK | ORE => COLOR_ORE end in
  let hp := match tier with
            | TITAN => 1000 | VOLATILE => 800 | CHUNK => 50 | ORE => 1 end in
  let sides := match tier with
               | TITAN => 12%nat | VOLATILE => 10%nat | _ => 8%nat end in
  let variance := match tier with VOLATILE => 0.4 | _ => 0.2 end in
  let (rid, w1) := random w in
  let (ra, w2) := random w1 in
  let (rot, w3) := randomRange (-0.02) 0.02 w2 in
  let (shape, w4) := generatePolygonOffsets sides variance w3 in
  set_asteroids
    (asteroids w4 ++
     [Asteroid.mk rid x y vx vy size (ra * PI * 2) color tier hp rot shape])
    w4.

Definition spawnParticle (x y : R) (color : string) (speed life : R)
  (w : World) : World :=
  let (ra, w1) := random w in
  let angle := ra * PI * 2 in
  let (v, w2) := randomRange (speed * 0.5) speed w1 in
  let (rid, w3) := random w2 in
  let (rad, w4) := randomRange 1 3 w3 in
  set_particles
    (particles w4 ++
     [Particle.mk rid x y (cos angle * v) (sin angle * v) rad color 0
        life life 1])
    w4.

Definition spawnParticles (x y : R) (color : string) (count : nat)
  (speed life : R) (w : World) : World :=
  times count (spawnParticle x y color speed life) w.

(** One iteration of the fragment loops of [breakAsteroid]. *)
Definition spawnFragment (tier : AsteroidTier) (ast : Asteroid.t)
  (lo hi offset impactVx impactVy : R) (w : World) : World :=
  let (angle, w1) := randomRange 0 (PI * 2) w in
  let (speed, w2) := randomRange lo hi w1 in
  spawnAsteroid tier
    (Asteroid.x ast + cos angle * offset)
    (Asteroid.y ast + sin angle * offset)
    (impactVx * 0.3 + cos angle * speed)
    (impactVy * 0.3 + sin angle * speed)
    w2.

Definition breakAsteroid (ast : Asteroid.t) (impactVx impactVy : R)
  (w : World) : World :=
  let w := emit (TraceBreak ast) w in
  let w := spawnParticles (Asteroid.x ast) (Asteroid.y ast)
             (Asteroid.color ast) 8 2 25 w in
  match Asteroid.tier ast with
  | VOLATILE =>
      let w := emit (AudioPlayExplosion large) w in
      let w := set_shake (shake w + 15) w in
      let chunkCount := 8%nat in
      times chunkCount (spawnFragment CHUNK ast 8 14 10 impactVx impactVy) w
  | TITAN =>
      let w := emit (AudioPlayExplosion large) w in
      times 5 (spawnFragment CHUNK ast 1 4 10 impactVx impactVy) w
  | CHUNK =>
      let w := emit (AudioPlayExplosion small) w in
      let oreCount := 10%nat in
      times oreCount (spawnFragment ORE ast 2 5 5 impactVx impactVy) w
  | ORE => w
  end.

Definition set_zoom (z : R) (c : Camera) : Camera :=
  {| cam_x := cam_x c; cam_y := cam_y c; zoom := z |}.

Definition initGame (sector : Z) (w : World) : World :=
  let s := ship w in
  let s := Ship.set_x 0 s in
  let s := Ship.set_y 0 s in
  let s := Ship.set_vx 0 s in
  let s := Ship.set_vy (-4) s in
  let s := Ship.set_angle (- PI / 2) s in
  let s := Ship.set_invulnerableTimer 60 s in
  let w := set_ship s w in
  let w := set_asteroids [] w in
  let w := set_mines [] w in
  let w := set_particles [] w in
  let w := set_camera (set_zoom 0.8 (camera w)) w in
  let w := set_shake 0 w in
  let w := set_sectorOreCollected 0 w in
  let '(titanCount, volatileCount, w) :=
    if (sector =? 1)%Z then (4%Z, 0%Z, w)
    else
      let (r, w1) := randomRange 2 5 w in
      let extraPerLevel := IZR (sector - 1) * r in
      (floor (4 + extraPerLevel), floor (IZR (sector - 1) * 2), w1) in
  let w := set_levelInitialAsteroids (volatileCount + titanCount) w in
  let spawnFar tier lo v w :=
    let (dist, w1) := randomRange lo (3000 + IZR sector * 200) w in
    let (rt, w2) := random w1 in
    let theta := rt * PI * 2 in
    let (vx, w3) := randomRange (- v) v w2 in
    let (vy, w4) := randomRange (- v) v w3 in
    spawnAsteroid tier (cos theta * dist) (sin theta * dist) vx vy w4 in
  let w := times (Z.to_nat volatileCount) (spawnFar VOLATILE 800 0.8) w in
  let w := times (Z.to_nat titanCount) (spawnFar TITAN 500 0.5) w in
  let spawnOre w :=
    let (dist, w1) := randomRange 400 1000 w in
    let (rt, w2) := random w1 in
    let theta := rt * PI * 2 in
    spawnAsteroid ORE (cos theta * dist) (sin theta * dist) 0 0 w2 in
  times 10 spawnOre w.

(** ** GameCanvas: [update], phase by phase *)

(** 0. Screen shake decay. *)
Definition shakeDecay (w : World) : World :=
  if Rgtb (shake w) 0 then
    let sh := shake w * 0.9 in
    set_shake (if Rltb sh 0.5 then 0 else sh) w
  else w.

(** The speed cap of the control step. *)
Definition maxSpeedOf (up : Upgrades) : R :=
  MAX_SPEED + INR (engineLevel up) * 0.5.

Definition capSpeed (up : Upgrades) (s : Ship.t) : Ship.t :=
  let velocity := sqrt (Ship.vx s * Ship.vx s + Ship.vy s * Ship.vy s) in
  let maxSpeed := maxSpeedOf up in
  if Rgtb velocity maxSpeed then
    let s1 := Ship.set_vx (Ship.vx s / velocity * maxSpeed) s in
    Ship.set_vy (Ship.vy s / velocity * maxSpeed) s1
  else s.

(** 1. Ship controls, speed cap, friction, integration. *)

Definition engineAccel (up : Upgrades) : R :=
  SHIP_ACCEL + INR (engineLevel up) * 0.02.

(** Forward thrust (W / ArrowUp). *)
Definition thrust (f : Frame) (w : World) : World :=
  let keys := keysPressed f in
  if has keys "w" || has keys "arrowup" then
    let s := ship w in
    let acc := engineAccel (upgrades w) in
    let s1 := Ship.set_vx (Ship.vx s + cos (Ship.angle s) * acc) s in
    let s2 := Ship.set_vy (Ship.vy s1 + sin (Ship.angle s1) * acc) s1 in
    let s3 := Ship.set_thrusting true s2 in
    let w := emit (AudioSetThrust true) (set_ship s3 w) in
    spawnParticles (Ship.x s3 - cos (Ship.angle s3) * 20)
      (Ship.y s3 - sin (Ship.angle s3) * 20) COLOR_THRUST 1 1 15 w
  else
    emit (AudioSetThrust false)
      (set_ship (Ship.set_thrusting false (ship w)) w).

(** Reverse thrust (S / ArrowDown). *)
Definition reverseThrust (f : Frame) (w : World) : World :=
  let keys := keysPressed f in
  if has keys "s" || has keys "arrowdown" then
    let s := ship w in
    let reverseAccel := engineAccel (upgrades w) * 0.5 in
    let s1 := Ship.set_vx (Ship.vx s - cos (Ship.angle s) * reverseAccel) s in
    let s2 := Ship.set_vy (Ship.vy s1 - sin (Ship.angle s1) * reverseAccel) s1 in
    let a := Ship.angle s2 in
    let w := set_ship s2 w in
    let w := spawnParticles
               (Ship.x s2 + cos a * 15 + cos (a + PI / 2) * 10)
               (Ship.y s2 + sin a * 15 + sin (a + PI / 2) * 10)
               "#94a3b8" 1 0.5 8 w in
    spawnParticles
      (Ship.x s2 + cos a * 15 + cos (a - PI / 2) * 10)
      (Ship.y s2 + sin a * 15 + sin (a - PI / 2) * 10)
      "#94a3b8" 1 0.5 8 w
  else w.

(** Space brake (Q). *)
Definition spaceBrake (f : Frame) (w : World) : World :=
  if has (keysPressed f) "q" then
    let s := ship w in
    let s1 := Ship.set_vx (Ship.vx s * 0.9) s in
    let s2 := Ship.set_vy (Ship.vy s1 * 0.9) s1 in
    let s3 := if Rltb (Rabs (Ship.vx s2)) 0.01 then Ship.set_vx 0 s2 else s2 in
    let s4 := if Rltb (Rabs (Ship.vy s3)) 0.01 then Ship.set_vy 0 s3 else s3 in
    let w := set_ship s4 w in
    let (r, w) := random w in
    if Rgtb r 0.8 &&
       (Rgtb (Rabs (Ship.vx s4)) 0.1 || Rgtb (Rabs (Ship.vy s4)) 0.1)
    then spawnParticles (Ship.x s4) (Ship.y s4) "#64748b" 1 1 5 w
    else w
  else w.

(** Rotation (A / ArrowLeft, D / ArrowRight). *)
Definition rotate (f : Frame) (w : World) : World :=
  let keys := keysPressed f in
  let rotSpeed :=
    SHIP_ROTATION_SPEED + INR (handlingLevel (upgrades w)) * 0.01 in
  let w :=
    if has keys "a" || has keys "arrowleft" then
      set_ship (Ship.set_angle (Ship.angle (ship w) - rotSpeed) (ship w)) w
    else w in
  if has keys "d" || has keys "arrowright" then
    set_ship (Ship.set_angle (Ship.angle (ship w) + rotSpeed) (ship w)) w
  else w.

(** Speed cap, friction and position update. *)
Definition integrate (up : Upgrades) (s : Ship.t) : Ship.t :=
  let s := capSpeed up s in
  let s := Ship.set_vx (Ship.vx s * FRICTION) s in
  let s := Ship.set_vy (Ship.vy s * FRICTION) s in
  let s := Ship.set_x (Ship.x s + Ship.vx s) s in
  Ship.set_y (Ship.y s + Ship.vy s) s.

Definition shipControls (f : Frame) (w : World) : World :=
  let w := thrust f w in
  let w := reverseThrust f w in
  let w := spaceBrake f w in
  let w := rotate f w in
  set_ship (integrate (upgrades w) (ship w)) w.

(** 2. Camera follow. *)
Definition cameraFollow (f : Frame) (w : World) : World :=
  let z := zoom (camera w) in
  set_camera
    {| cam_x := Ship.x (ship w) - (screen_width f / 2) / z;
       cam_y := Ship.y (ship w) - (screen_height f / 2) / z;
       zoom := z |} w.

(** 3. Mining laser. *)

(** [while (a > Math.PI) a -= Math.PI * 2], run for at most [fuel] rounds. *)
Fixpoint whileAbove (fuel : nat) (a : R) : R :=
  match fuel with
  | O => a
  | S k => if Rgtb a PI then whileAbove k (a - PI * 2) else a
  end.

(** [while (a < -Math.PI) a += Math.PI * 2], run for at most [fuel] rounds. *)
Fixpoint whileBelow (fuel : nat) (a : R) : R :=
  match fuel with
  | O => a
  | S k => if Rltb a (- PI) then whileBelow k (a + PI * 2) else a
  end.

(** A number of rounds after which [a] has dropped to [PI] or below. *)
Definition roundsFor (a : R) : nat := Z.to_nat (up (a / (PI * 2))).

Definition wrapAngle (a : R) : R :=
  let a1 := whileAbove (roundsFor a) a in
  whileBelow (roundsFor (- a1)) a1.

Definition notMineable (t : AsteroidTier) : bool :=
  tier_eqb t TITAN || tier_eqb t VOLATILE || tier_eqb t ORE.

(** Distance and bearing of an asteroid as the laser sees them. *)
Definition shipDistance (s : Ship.t) (ast : Asteroid.t) : R :=
  distance (Ship.pos s) (Asteroid.pos ast).

Definition bearingOff (s : Ship.t) (aimAngle : R) (ast : Asteroid.t) : R :=
  let angleToAst :=
    atan2 (Asteroid.y ast - Ship.y s) (Asteroid.x ast - Ship.x s) in
  Rabs (wrapAngle (angleToAst - aimAngle)).

(** The body of the targeting [forEach]; the accumulator is the pair
    [(closestAst, closestDist)], the asteroid being held by its index. *)
Definition targetStep (s : Ship.t) (aimAngle : R) (asts : list Asteroid.t)
  (i : nat) (acc : option nat * R) : option nat * R :=
  match nth_error asts i with
  | None => acc
  | Some ast =>
      if notMineable (Asteroid.tier ast) then acc
      else
        let dToAst := shipDistance s ast in
        if Rltb dToAst (LASER_RANGE + Asteroid.radius ast) then
          if Rltb (bearingOff s aimAngle ast) 0.2 then
            if Rltb dToAst (snd acc) then (Some i, dToAst) else acc
          else acc
        else acc
  end.

Definition findTarget (s : Ship.t) (aimAngle : R) (asts : list Asteroid.t)
  : option nat * R :=
  forEach (List.length asts) (targetStep s aimAngle asts) (None, LASER_RANGE).

Definition alive (a : Asteroid.t) : bool := Rgtb (Asteroid.hp a) 0.

Definition laserPowerOf (up : Upgrades) : R := 1 + INR (laserLevel up) * 0.5.

Definition aimAngleOf (f : Frame) : R :=
  let centerX := screen_width f / 2 in
  let centerY := screen_height f / 2 in
  let dx := mouse_x f - centerX in
  let dy := mouse_y f - centerY in
  atan2 dy dx.

(** The laser block up to, and not including, its final [filter]. *)
Definition laserShot (f : Frame) (w : World) : World :=
  let s := ship w in
  let aimAngle := aimAngleOf f in
  let w := set_laser {| active := true; laser_x := Ship.x s;
                        laser_y := Ship.y s; laser_length := LASER_RANGE;
                        laser_angle := aimAngle |} w in
  let laserPower := laserPowerOf (upgrades w) in
  let '(closestAst, closestDist) := findTarget s aimAngle (asteroids w) in
  match closestAst with
  | Some i =>
      match nth_error (asteroids w) i with
      | Some ast0 =>
          let wasAlive := alive ast0 in
          let ast := Asteroid.set_hp (Asteroid.hp ast0 - laserPower) ast0 in
          let w := putAsteroid i ast w in
          let impactDist := Rmax 0 (closestDist - Asteroid.radius ast) in
          let w := set_laser {| active := true; laser_x := Ship.x s;
                                laser_y := Ship.y s; laser_length := impactDist;
                                laser_angle := aimAngle |} w in
          let impactX := Ship.x s + cos aimAngle * impactDist in
          let impactY := Ship.y s + sin aimAngle * impactDist in
          let w := spawnParticles impactX impactY COLOR_ORE 2 2 10 w in
          if wasAlive && Rleb (Asteroid.hp ast) 0
          then breakAsteroid ast 0 0 w else w
      | None => w
      end
  | None => w
  end.

Definition miningLaser (f : Frame) (w : World) : World :=
  let w := set_laser {| active := false; laser_x := laser_x (laser w);
                        laser_y := laser_y (laser w);
                        laser_length := laser_length (laser w);
                        laser_angle := laser_angle (laser w) |} w in
  let w := emit (AudioSetLaser (mouse_down f)) w in
  if mouse_down f then
    let w := laserShot f w in
    set_asteroids (filter alive (asteroids w)) w
  else w.

(** 4. Tractor beam. *)
Definition tractorStep (i : nat) (w : World) : World :=
  match nth_error (asteroids w) i with
  | None => w
  | Some ast =>
      if tier_eqb (Asteroid.tier ast) ORE then
        let s := ship w in
        let dist := distance (Ship.pos s) (Asteroid.pos ast) in
        if Rltb dist 500 then
          let angle :=
            atan2 (Ship.y s - Asteroid.y ast) (Ship.x s - Asteroid.x ast) in
          let a1 := Asteroid.set_vx (Asteroid.vx ast + cos angle * 0.5) ast in
          let a2 := Asteroid.set_vy (Asteroid.vy a1 + sin angle * 0.5) a1 in
          let (jx, w) := randomRange (-0.2) 0.2 w in
          let a3 := Asteroid.set_vx (Asteroid.vx a2 + jx) a2 in
          let (jy, w) := randomRange (-0.2) 0.2 w in
          let a4 := Asteroid.set_vy (Asteroid.vy a3 + jy) a3 in
          putAsteroid i a4 w
        else w
      else w
  end.

Definition tractorBeam (f : Frame) (w : World) : World :=
  let w := emit (AudioSetTractor (mouse_rightDown f)) w in
  if mouse_rightDown f then
    forEach (List.length (asteroids w)) tractorStep w
  else w.

(** 5. Mines. *)

(** Pull of a puckering mine on asteroid [i]. *)
Definition puckerAsteroid (mine : Mine.t) (i : nat) (w : World) : World :=
  match nth_error (asteroids w) i with
  | None => w
  | Some ast =>
      let d := distance (Mine.pos mine) (Asteroid.pos ast) in
      if Rltb d (MINE_BLAST_RADIUS * 1.5) then
        let angle :=
          atan2 (Mine.y mine - Asteroid.y ast) (Mine.x mine - Asteroid.x ast) in
        let a1 := Asteroid.set_vx
                    (Asteroid.vx ast + cos angle * MINE_PUCKER_FORCE) ast in
        let a2 := Asteroid.set_vy
                    (Asteroid.vy a1 + sin angle * MINE_PUCKER_FORCE) a1 in
        putAsteroid i a2 w
      else w
  end.

Definition suctionParticle (mine : Mine.t) (w : World) : World :=
  let (ra, w) := random w in
  let angle := ra * PI * 2 in
  let (rd, w) := random w in
  let dist := MINE_BLAST_RADIUS * (0.8 + rd * 0.4) in
  let px := Mine.x mine + cos angle * dist in
  let py := Mine.y mine + sin angle * dist in
  let (speed, w) := randomRange 3 6 w in
  let (rid, w) := random w in
  let (rad, w) := randomRange 1 2 w in
  let (rc, w) := random w in
  set_particles
    (particles w ++
     [Particle.mk rid px py (- cos angle * speed) (- sin angle * speed) rad
        (if Rgtb rc 0.5 then "#ffffff" else COLOR_DANGER) 0 30 30 1]) w.

(** Blast of a detonating mine on asteroid [i]. *)
Definition blastAsteroid (mine : Mine.t) (i : nat) (w : World) : World :=
  match nth_error (asteroids w) i with
  | None => w
  | Some ast =>
      let d := distance (Mine.pos mine) (Asteroid.pos ast) in
      if Rltb d MINE_BLAST_RADIUS then
        let angle :=
          atan2 (Asteroid.y ast - Mine.y mine) (Asteroid.x ast - Mine.x mine) in
        let force := MINE_BLAST_FORCE * (1 - d / MINE_BLAST_RADIUS) in
        let a1 := Asteroid.set_vx (Asteroid.vx ast + cos angle * force) ast in
        let a2 := Asteroid.set_vy (Asteroid.vy a1 + sin angle * force) a1 in
        let wasAlive := alive a2 in
        let a3 :=
          if tier_eqb (Asteroid.tier a2) TITAN
             || tier_eqb (Asteroid.tier a2) VOLATILE
          then Asteroid.set_hp 0 a2
          else if negb (tier_eqb (Asteroid.tier a2) ORE)
               then Asteroid.set_hp (Asteroid.hp a2 - 100) a2
               else a2 in
        let w := putAsteroid i a3 w in
        if wasAlive && Rleb (Asteroid.hp a3) 0
        then breakAsteroid a3 (cos angle * force) (sin angle * force) w
        else w
      else w
  end.

(** Blast of a detonating mine on the ship. *)
Definition blastShip (mine : Mine.t) (w : World) : World :=
  let s := ship w in
  let dShip := distance (Mine.pos mine) (Ship.pos s) in
  if Rltb dShip MINE_BLAST_RADIUS then
    let angle := atan2 (Ship.y s - Mine.y mine) (Ship.x s - Mine.x mine) in
    let force := MINE_BLAST_FORCE * 1.5 * (1 - dShip / MINE_BLAST_RADIUS) in
    let s1 := Ship.set_vx (Ship.vx s + cos angle * force) s in
    let s2 := Ship.set_vy (Ship.vy s1 + sin angle * force) s1 in
    if (Ship.invulnerableTimer s2 <=? 0)%Z then
      let s3 :=
        if Rgtb (Ship.shield s2) 0 then
          Ship.set_invulnerableTimer 60 (Ship.set_shield 0 s2)
        else
          Ship.set_invulnerableTimer 30
            (Ship.set_hull
               (Ship.hull s2 - 50 * (1 - dShip / MINE_BLAST_RADIUS)) s2) in
      emit SyncUI (set_ship s3 w)
    else set_ship s2 w
  else w.

(** Pull of a puckering mine on the ship. *)
Definition puckerShip (mine : Mine.t) (w : World) : World :=
  let s := ship w in
  let dShip := distance (Mine.pos mine) (Ship.pos s) in
  if Rltb dShip (MINE_BLAST_RADIUS * 1.5) then
    let angle := atan2 (Mine.y mine - Ship.y s) (Mine.x mine - Ship.x s) in
    let s1 := Ship.set_vx
                (Ship.vx s + cos angle * MINE_PUCKER_FORCE * 0.5) s in
    let s2 := Ship.set_vy
                (Ship.vy s1 + sin angle * MINE_PUCKER_FORCE * 0.5) s1 in
    set_ship s2 w
  else w.

(** The body of [minesRef.current.forEach]. *)
Definition mineStep (i : nat) (w : World) : World :=
  match nth_error (mines w) i with
  | None => w
  | Some mine0 =>
      let mine := Mine.set_timer (Mine.timer mine0 - 1) mine0 in
      let w := putMine i mine w in
      let w := if (Mine.timer mine =? MINE_PUCKER_DURATION)%Z
               then emit AudioPlayMinePucker w else w in
      if (0 <? Mine.timer mine)%Z && (Mine.timer mine <? MINE_PUCKER_DURATION)%Z
      then
        let mine := Mine.set_state PUCKER mine in
        let w := putMine i mine w in
        let w := forEach (List.length (asteroids w)) (puckerAsteroid mine) w in
        let w := puckerShip mine w in
        times 3 (suctionParticle mine) w
      else if (Mine.timer mine <=? 0)%Z then
        let mine := Mine.set_state DETONATING mine in
        let w := putMine i mine w in
        let w := emit (AudioPlayExplosion large) w in
        let w := set_shake 25 w in
        let w := spawnParticles (Mine.x mine) (Mine.y mine) COLOR_DANGER
                   60 15 45 w in
        let w := spawnParticles (Mine.x mine) (Mine.y mine) "#fbbf24"
                   40 12 40 w in
        let w := spawnParticles (Mine.x mine) (Mine.y mine) "#ffffff"
                   20 18 25 w in
        let w := forEach (List.length (asteroids w)) (blastAsteroid mine) w in
        blastShip mine w
      else w
  end.

Definition detonating (m : Mine.t) : bool :=
  MineState_eqb (Mine.state m) DETONATING.

Definition stepMines (w : World) : World :=
  let w := forEach (List.length (mines w)) mineStep w in
  let w := set_mines (filter (fun m => negb (detonating m)) (mines w)) w in
  set_asteroids (filter alive (asteroids w)) w.

(** 6. Asteroid physics, station shield, collision with the ship. *)

Definition origin : Point := {| px := 0; py := 0 |}.

(** Drift, spin and damping of one asteroid. *)
Definition drift (ast : Asteroid.t) : Asteroid.t :=
  let ast := Asteroid.set_x (Asteroid.x ast + Asteroid.vx ast) ast in
  let ast := Asteroid.set_y (Asteroid.y ast + Asteroid.vy ast) ast in
  let ast := Asteroid.set_angle
               (Asteroid.angle ast + Asteroid.rotationSpeed ast) ast in
  let ast := Asteroid.set_vx (Asteroid.vx ast * 0.99) ast in
  Asteroid.set_vy (Asteroid.vy ast * 0.99) ast.

(** Station shield bounce, then drift, of one asteroid. *)
Definition moveAsteroid (ast : Asteroid.t) (w : World) : Asteroid.t * World :=
  let distToStation := distance origin (Asteroid.pos ast) in
  let shieldDist := STATION_SHIELD_RADIUS + Asteroid.radius ast in
  let '(ast, w) :=
    if Rltb distToStation shieldDist then
      let angle := atan2 (Asteroid.y ast) (Asteroid.x ast) in
      let overlap := shieldDist - distToStation in
      let a1 := Asteroid.set_x (Asteroid.x ast + cos angle * overlap) ast in
      let a2 := Asteroid.set_y (Asteroid.y a1 + sin angle * overlap) a1 in
      let nx := cos angle in
      let ny := sin angle in
      let dot := Asteroid.vx a2 * nx + Asteroid.vy a2 * ny in
      if Rltb dot 0 then
        let a3 := Asteroid.set_vx ((Asteroid.vx a2 - 2 * dot * nx) * 0.5) a2 in
        let a4 := Asteroid.set_vy ((Asteroid.vy a3 - 2 * dot * ny) * 0.5) a3 in
        (a4, spawnParticles (Asteroid.x a4 - nx * Asteroid.radius a4)
               (Asteroid.y a4 - ny * Asteroid.radius a4) "#60a5fa" 3 1 10 w)
      else (a2, w)
    else (ast, w) in
  (drift ast, w).

Definition relativeSpeed (s : Ship.t) (ast : Asteroid.t) : R :=
  sqrt ((Ship.vx s - Asteroid.vx ast) ^ 2 + (Ship.vy s - Asteroid.vy ast) ^ 2).

Definition collisionDamage (t : AsteroidTier) : R :=
  match t with
  | VOLATILE => 150
  | TITAN => 100
  | _ => 20
  end.

(** The [if (checkCollision(ship, ast))] block, for asteroid [i]. *)
Definition collide (i : nat) (ast : Asteroid.t) (w : World) : World :=
  let s := ship w in
  if checkCollision (Ship.pos s) (Ship.radius s)
       (Asteroid.pos ast) (Asteroid.radius ast) then
    if tier_eqb (Asteroid.tier ast) ORE then
      if (Ship.cargo s <? Ship.maxCargo s)%Z then
        let w := set_ship (Ship.set_cargo (Ship.cargo s + 1) s) w in
        let w := set_sectorOreCollected (sectorOreCollected w + 1) w in
        let w := putAsteroid i (Asteroid.set_hp 0 ast) w in
        let w := emit (TracePickup ast) w in
        let w := emit AudioPlayPickup w in
        emit SyncUI w
      else w
    else
      if (Ship.invulnerableTimer s <=? 0)%Z then
        let vRel := relativeSpeed s ast in
        if Rgtb vRel 2 || tier_eqb (Asteroid.tier ast) VOLATILE then
          let w := set_shake 5 w in
          let s1 :=
            if Rgtb (Ship.shield s) 0 then Ship.set_shield 0 s
            else
              let damage := collisionDamage (Asteroid.tier ast) in
              Ship.set_hull (Ship.hull s - damage) s in
          let s2 := Ship.set_invulnerableTimer 60 s1 in
          let angle :=
            atan2 (Ship.y s2 - Asteroid.y ast) (Ship.x s2 - Asteroid.x ast) in
          let s3 := Ship.set_vx (Ship.vx s2 + cos angle * 8) s2 in
          let s4 := Ship.set_vy (Ship.vy s3 + sin angle * 8) s3 in
          let w := set_ship s4 w in
          let w := emit (AudioPlayExplosion small) w in
          emit SyncUI w
        else w
      else w
  else w.

Definition isBig (t : AsteroidTier) : bool :=
  tier_eqb t TITAN || tier_eqb t VOLATILE.

(** The body of the physics [forEach]; the accumulator carries the local
    counter [titansLeft]. *)
Definition asteroidStep (i : nat) (st : Z * World) : Z * World :=
  let (titansLeft, w) := st in
  match nth_error (asteroids w) i with
  | None => st
  | Some ast0 =>
      let (ast, w) := moveAsteroid ast0 w in
      let w := putAsteroid i ast w in
      let titansLeft :=
        if isBig (Asteroid.tier ast) then (titansLeft + 1)%Z else titansLeft in
      (titansLeft, collide i ast w)
  end.

(** 6b. Sector completion check. *)
Definition sectorCheck (f : Frame) (titansLeft : Z) (w : World) : World :=
  let initial := levelInitialAsteroids w in
  if (0 <? initial)%Z && Rleb (IZR titansLeft) (IZR initial * 0.1) then
    if (sector f =? prevSector w)%Z && GameState_eqb (gameState f) PLAYING then
      let destroyed := (initial - titansLeft)%Z in
      let percent := floor (IZR destroyed / IZR initial * 100) in
      emit (OnSectorCleared percent (sectorOreCollected w)) w
    else w
  else w.

(** 7. Station docking. *)
Definition docking (w : World) : World :=
  let s := ship w in
  let distToStation := distance origin (Ship.pos s) in
  if Rltb distToStation (STATION_RADIUS + SHIP_RADIUS)
     && Rltb (Rabs (Ship.vx s)) 1 && Rltb (Rabs (Ship.vy s)) 1 then
    emit (AudioPlayUI "buy") (emit (SetGameState DOCKED) w)
  else w.

(** 8. Particles. *)
Definition stepParticle (p : Particle.t) : Particle.t :=
  let p := Particle.set_x (Particle.x p + Particle.vx p) p in
  let p := Particle.set_y (Particle.y p + Particle.vy p) p in
  Particle.set_life (Particle.life p - 1) p.

Definition stepParticles (w : World) : World :=
  let ps := map stepParticle (particles w) in
  set_particles (filter (fun p => Rgtb (Particle.life p) 0) ps) w.

(** End of frame: invulnerability countdown and the game-over test. *)
Definition tickInvulnerability (w : World) : World :=
  let s := ship w in
  if (0 <? Ship.invulnerableTimer s)%Z then
    set_ship (Ship.set_invulnerableTimer (Ship.invulnerableTimer s - 1) s) w
  else w.

Definition gameOverCheck (w : World) : World :=
  if Rleb (Ship.hull (ship w)) 0 then
    emit (AudioPlayExplosion large) (emit (SetGameState GAME_OVER) w)
  else w.

(** The part of [update] that runs when the phase is [PLAYING]. *)
Definition playingFrame (f : Frame) (w : World) : World :=
  let w := shakeDecay w in
  let w := shipControls f w in
  let w := cameraFollow f w in
  let w := miningLaser f w in
  let w := tractorBeam f w in
  let w := stepMines w in
  let (titansLeft, w) :=
    forEach (List.length (asteroids w)) asteroidStep (0%Z, w) in
  let w := sectorCheck f titansLeft w in
  let w := docking w in
  let w := stepParticles w in
  let w := tickInvulnerability w in
  gameOverCheck w.

Definition update (f : Frame) (w : World) : World :=
  if negb (GameState_eqb (gameState f) PLAYING) then
    emit (AudioSetTractor false)
      (emit (AudioSetLaser false) (emit (AudioSetThrust false) w))
  else playingFrame f w.

(** ** GameCanvas: the Space key of [handleKeyDown], and the reset effect *)

Definition dropMine (gs : GameState) (w : World) : World :=
  if GameState_eqb gs PLAYING then
    let s := ship w in
    if (0 <? Ship.ammo s)%Z then
      let w := set_ship (Ship.set_ammo (Ship.ammo s - 1) s) w in
      let (rid, w) := random w in
      let w := set_mines
                 (mines w ++
                  [Mine.mk rid (Ship.x s) (Ship.y s) 0 0 10 0 COLOR_DANGER
                     180 ARMED]) w in
      emit SyncUI (emit AudioPlayMineArmed w)
    else emit (AudioPlayUI "error") w
  else w.

(** The "Spawn / Reset Logic" effect, run after a render in which
    [gameState] or [sector] changed. *)
Definition spawnResetEffect (gs : GameState) (sec : Z) (w : World) : World :=
  let w :=
    if GameState_eqb gs PLAYING
       && (GameState_eqb (prevGameState w) MENU
           || GameState_eqb (prevGameState w) GAME_OVER)
    then initGame sec w else w in
  let w :=
    if GameState_eqb gs PLAYING && negb (sec =? prevSector w)%Z
    then set_prevSector sec (initGame sec w) else w in
  set_prevGameState gs w.

(** ** App.tsx *)

Record App := mkApp {
  app_gameState : GameState;
  app_sector : Z;
  sectorStats : Z * Z;          (* percent, ore *)
  world : World }.

Definition recalcStats (w : World) : World :=
  let s := ship w in
  let u := upgrades w in
  let s := Ship.set_maxHull (100 + (INR (hullLevel u) - 1) * 50) s in
  let s := if Rgtb (Ship.hull s) (Ship.maxHull s)
           then Ship.set_hull (Ship.maxHull s) s else s in
  let s := Ship.set_maxCargo (20 + (Z.of_nat (cargoLevel u) - 1) * 20) s in
  let s := Ship.set_maxShield (INR (shieldLevel u) * 100) s in
  let s := if (0 <? shieldLevel u)%nat && Rltb (Ship.shield s) (Ship.maxShield s)
           then Ship.set_shield (Ship.maxShield s) s else s in
  set_ship s w.

Definition handleStartGame (a : App) : App :=
  let gs := app_gameState a in
  if GameState_eqb gs GAME_OVER || GameState_eqb gs MENU then
    let w := world a in
    let s := Ship.set_ammo STARTING_AMMO
               (Ship.set_credits STARTING_CREDITS (ship w)) in
    let w := set_ship s w in
    let w := set_upgrades {| engineLevel := 1; handlingLevel := 1;
                             hullLevel := 1; cargoLevel := 1;
                             laserLevel := 1; shieldLevel := 0 |} w in
    let w := recalcStats w in
    let s := ship w in
    let s := Ship.set_hull (Ship.maxHull s) s in
    let s := Ship.set_shield (Ship.maxShield s) s in
    mkApp PLAYING 1 (sectorStats a) (set_ship s w)
  else mkApp PLAYING (app_sector a) (sectorStats a) (world a).

Definition handleSectorCleared (stats : Z * Z) (a : App) : App :=
  mkApp SECTOR_CLEARED (app_sector a) stats
    (emit (AudioPlayUI "buy") (world a)).

Definition handleNextSector (a : App) : App :=
  mkApp PLAYING (app_sector a + 1) (sectorStats a) (world a).

Definition handleUndock (a : App) : App :=
  let w := world a in
  let s := ship w in
  let launchSpeed := 6 in
  let s1 := Ship.set_vx (cos (Ship.angle s) * launchSpeed) s in
  let s2 := Ship.set_vy (sin (Ship.angle s1) * launchSpeed) s1 in
  mkApp PLAYING (app_sector a) (sectorStats a) (set_ship s2 w).

(** ** One animation frame under React

    [update] runs with the props of the last render.  The calls it makes
    on [setGameState] and [onSectorCleared] are applied in the order they
    were made, so the phase after the frame is the one stored last; the
    component then re-renders and, if [gameState] or [sector] changed, the
    reset effect runs. *)

Definition applyEvent (a : App) (e : Event) : App :=
  match e with
  | SetGameState g => mkApp g (app_sector a) (sectorStats a) (world a)
  | OnSectorCleared percent ore => handleSectorCleared (percent, ore) a
  | _ => a
  end.

Definition withProps (a : App) (f : Frame) : Frame :=
  {| gameState := app_gameState a; sector := app_sector a;
     screen_width := screen_width f; screen_height := screen_height f;
     keysPressed := keysPressed f; mouse_x := mouse_x f; mouse_y := mouse_y f;
     mouse_down := mouse_down f; mouse_rightDown := mouse_rightDown f |}.

(** Re-render after a transition from [old] to [a]. *)
Definition commit (old a : App) : App :=
  if GameState_eqb (app_gameState old) (app_gameState a)
     && (app_sector old =? app_sector a)%Z
  then a
  else mkApp (app_gameState a) (app_sector a) (sectorStats a)
         (spawnResetEffect (app_gameState a) (app_sector a) (world a)).

(** The events [update] emitted during this frame, oldest first. *)
Definition frameEvents (before after : World) : list Event :=
  rev (firstn (List.length (log after) - List.length (log before)) (log after)).

Definition animationFrame (f : Frame) (a : App) : App :=
  let w := update (withProps a f) (world a) in
  let a1 := mkApp (app_gameState a) (app_sector a) (sectorStats a) w in
  commit a (fold_left applyEvent (frameEvents (world a) w) a1).

(** Number of [onSectorCleared] calls recorded in a log. *)
Fixpoint sectorClearedCalls (l : list Event) : nat :=
  match l with
  | [] => O
  | OnSectorCleared _ _ :: t => S (sectorClearedCalls t)
  | _ :: t => sectorClearedCalls t
  end.

(** * Vocabulary of the properties *)

(** The laser's candidate filter as the specification words it, and the
    filter the targeting loop applies. *)
Definition candidate (s : Ship.t) (aimAngle : R) (ast : Asteroid.t) : bool :=
  negb (notMineable (Asteroid.tier ast))
  && Rltb (shipDistance s ast) (LASER_RANGE + Asteroid.radius ast)
  && Rltb (bearingOff s aimAngle ast) 0.2.

Definition inBeam (s : Ship.t) (aimAngle : R) (ast : Asteroid.t) : bool :=
  candidate s aimAngle ast && Rltb (shipDistance s ast) LASER_RANGE.

(** Children the fragmentation of one asteroid of a tier is configured to
    produce: how many, and of which tier. *)
Definition fragmentCount (t : AsteroidTier) : nat :=
  match t with
  | CHUNK => 10 | TITAN => 5 | VOLATILE => 8 | ORE => 0
  end.

Definition fragmentTier (t : AsteroidTier) : AsteroidTier :=
  match t with
  | CHUNK => ORE
  | _ => CHUNK
  end.

(** Speed and direction of travel of the ship. *)
Definition speed (s : Ship.t) : R :=
  sqrt (Ship.vx s * Ship.vx s + Ship.vy s * Ship.vy s).

Definition heading (s : Ship.t) : Point :=
  normalize {| px := Ship.vx s; py := Ship.vy s |}.

(** The ship and upgrade table [App] starts with. *)
Definition hero : Ship.t :=
  Ship.mk "hero" 0 0 0 0 15 (- PI / 2) "#fff" false false false false false
    100 100 0 0 0 20 STARTING_CREDITS STARTING_AMMO 0.

Definition startUpgrades : Upgrades :=
  {| engineLevel := 1; handlingLevel := 1; hullLevel := 1; cargoLevel := 1;
     laserLevel := 1; shieldLevel := 0 |}.

(** What the damage rules read and write on the ship. *)
Record Vitals := {
  v_hull : R; v_maxHull : R; v_shield : R; v_maxShield : R;
  v_cargo : Z; v_maxCargo : Z; v_timer : Z }.

Definition vitals (s : Ship.t) : Vitals :=
  {| v_hull := Ship.hull s; v_maxHull := Ship.maxHull s;
     v_shield := Ship.shield s; v_maxShield := Ship.maxShield s;
     v_cargo := Ship.cargo s; v_maxCargo := Ship.maxCargo s;
     v_timer := Ship.invulnerableTimer s |}.

(** [update] up to, and not including, the invulnerability countdown. *)
Definition frameBody (f : Frame) (w : World) : World :=
  let w := shakeDecay w in
  let w := shipControls f w in
  let w := cameraFollow f w in
  let w := miningLaser f w in
  let w := tractorBeam f w in
  let w := stepMines w in
  let (titansLeft, w) :=
    forEach (List.length (asteroids w)) asteroidStep (0%Z, w) in
  let w := sectorCheck f titansLeft w in
  let w := docking w in
  stepParticles w.

(** The caps the frame keeps, and the bounds with the floor on the hull. *)
Definition withinCaps (v : Vitals) : Prop :=
  v_hull v <= v_maxHull v /\
  0 <= v_shield v <= v_maxShield v /\
  (0 <= v_cargo v <= v_maxCargo v)%Z.

Definition shipBounds (v : Vitals) : Prop :=
  0 <= v_hull v /\ withinCaps v.

(** ** Concrete inputs used by the examples *)

(** An oracle whose draws are all 0. *)
Definition zeroRng : Rng := {| draws := fun _ => 0; cursor := 0 |}.

(** A world holding the given ship, asteroids and mines, in sector 1 with
    four tracked asteroids at the start. *)
Definition worldOf (s : Ship.t) (asts : list Asteroid.t) (ms : list Mine.t)
  : World :=
  mkWorld s startUpgrades asts ms []
    {| cam_x := 0; cam_y := 0; zoom := 0.8 |} 0
    {| active := false; laser_x := 0; laser_y := 0; laser_length := 0;
       laser_angle := 0 |}
    4 0 1 PLAYING zeroRng [].

(** A frame in the given phase of sector 1 with no key and no button held,
    the pointer right of the screen centre. *)
Definition idleFrame (gs : GameState) : Frame :=
  {| gameState := gs; sector := 1; screen_width := 800; screen_height := 600;
     keysPressed := []; mouse_x := 500; mouse_y := 300;
     mouse_down := false; mouse_rightDown := false |}.

(** The starting ship, parked at (1000, 0), away from the station. *)
Definition parked : Ship.t := Ship.set_x 1000 hero.

(** A resting asteroid of the given tier at (x, 0), as [spawnAsteroid]
    sizes it. *)
Definition rock (tier : AsteroidTier) (x : R) : Asteroid.t :=
  Asteroid.mk 0 x 0 0 0
    (match tier with
     | TITAN => TITAN_RADIUS | VOLATILE => VOLATILE_RADIUS
     | CHUNK => CHUNK_RADIUS | ORE => ORE_RADIUS end)
    0
    (match tier with
     | TITAN => COLOR_TITAN | VOLATILE => COLOR_VOLATILE
     | CHUNK => COLOR_CHUNK | ORE => COLOR_ORE end)
    tier
    (match tier with
     | TITAN => 1000 | VOLATILE => 800 | CHUNK => 50 | ORE => 1 end)
    0 [].

(** No key and no pointer button is held. *)
Definition quietInput (f : Frame) : Prop :=
  keysPressed f = [] /\ mouse_down f = false /\ mouse_rightDown f = false.

(** The phases of [frameBody] before the mines, up to the asteroid loop,
    and from the asteroid loop on. *)
Definition beforeMines (f : Frame) (w : World) : World :=
  tractorBeam f
    (miningLaser f (cameraFollow f (shipControls f (shakeDecay w)))).

Definition beforeAsteroids (f : Frame) (w : World) : World :=
  stepMines (beforeMines f w).

Definition afterMines (f : Frame) (w : World) : World :=
  let (titansLeft, w) :=
    forEach (List.length (asteroids w)) asteroidStep (0%Z, w) in
  stepParticles (docking (sectorCheck f titansLeft w)).

(** What the accumulator of the targeting loop says once the asteroids
    below index [k] have been looked at. *)
Definition targetInv (s : Ship.t) (aim : R) (asts : list Asteroid.t)
  (k : nat) (acc : option nat * R) : Prop :=
  match fst acc with
  | None =>
      snd acc = LASER_RANGE /\
      forall j b, (j < k)%nat -> nth_error asts j = Some b ->
                  candidate s aim b = true -> LASER_RANGE <= shipDistance s b
  | Some i =>
      exists a,
        nth_error asts i = Some a /\ (i < k)%nat /\
        candidate s aim a = true /\
        snd acc = shipDistance s a /\
        shipDistance s a < LASER_RANGE /\
        (forall j b, (j < k)%nat -> nth_error asts j = Some b ->
                     candidate s aim b = true ->
                     shipDistance s a <= shipDistance s b) /\
        (forall j b, (j < i)%nat -> nth_error asts j = Some b ->
                     candidate s aim b = true ->
                     shipDistance s a < shipDistance s b)
  end.


(** Consecutive frames, oldest first. *)
Definition runFrames (fs : list Frame) (w : World) : World :=
  fold_left (fun w f => update f w) fs w.

(** The timer, hull and shield read [t], [h] and [sh]. *)
Definition shielded (t : Z) (h sh : R) (v : Vitals) : Prop :=
  v_timer v = t /\ v_hull v = h /\ v_shield v = sh.


(** The log of [w'] is the log of [w] with newer events in front. *)
Definition extends (w w' : World) : Prop :=
  exists newer, log w' = newer ++ log w.

(** The ship of a world once the control step of a quiet frame has run. *)
Definition coasted (w : World) : Ship.t :=
  integrate (upgrades w) (Ship.set_thrusting false (ship w)).

(** The application in sector 1, phase PLAYING, around a world. *)
Definition playing (w : World) : App := mkApp PLAYING 1 (0%Z, 0%Z) w.

(** A TITAN of full size drifting along x at 500/99 per frame, so that
    after the damping of one frame it moves at speed 5. *)
Definition fastTitan : Asteroid.t :=
  Asteroid.set_vx (500 / 99) (rock TITAN 1000).

(** ** Per-entity summaries of the mine phase

    These restate, for one mine and for one asteroid, what the loops of
    the mine phase write; the lemmas below prove that the loops compute
    them. *)

(** A mine after the countdown step of one frame. *)
Definition tickMine (mine0 : Mine.t) : Mine.t :=
  let mine := Mine.set_timer (Mine.timer mine0 - 1) mine0 in
  if (0 <? Mine.timer mine)%Z && (Mine.timer mine <? MINE_PUCKER_DURATION)%Z
  then Mine.set_state PUCKER mine
  else if (Mine.timer mine <=? 0)%Z then Mine.set_state DETONATING mine
  else mine.

(** The force of the blast at distance [d] from the mine. *)
Definition blastForce (d : R) : R :=
  MINE_BLAST_FORCE * (1 - d / MINE_BLAST_RADIUS).

Definition blastAngle (mine : Mine.t) (ast : Asteroid.t) : R :=
  atan2 (Asteroid.y ast - Mine.y mine) (Asteroid.x ast - Mine.x mine).

Definition mineDistance (mine : Mine.t) (ast : Asteroid.t) : R :=
  distance (Mine.pos mine) (Asteroid.pos ast).

(** An asteroid after the blast of one mine. *)
Definition blastHit (mine : Mine.t) (ast : Asteroid.t) : Asteroid.t :=
  if Rltb (mineDistance mine ast) MINE_BLAST_RADIUS then
    let force := blastForce (mineDistance mine ast) in
    let a1 := Asteroid.set_vx
                (Asteroid.vx ast + cos (blastAngle mine ast) * force) ast in
    let a2 := Asteroid.set_vy
                (Asteroid.vy a1 + sin (blastAngle mine ast) * force) a1 in
    match Asteroid.tier ast with
    | TITAN | VOLATILE => Asteroid.set_hp 0 a2
    | CHUNK => Asteroid.set_hp (Asteroid.hp a2 - 100) a2
    | ORE => a2
    end
  else ast.

(** The cue [playMinePucker], and the events that file an asteroid
    under the wrong kind: a fragmentation of an ORE, a pickup of anything
    else. *)
Definition isPucker (e : Event) : bool :=
  match e with AudioPlayMinePucker => true | _ => false end.



(** The pucker cues in the log, and the cue one mine earns in a frame. *)
Definition puckers (w : World) : list Event := filter isPucker (log w).

Definition cueOf (m0 : Mine.t) : list Event :=
  if (Mine.timer m0 - 1 =? MINE_PUCKER_DURATION)%Z
  then [AudioPlayMinePucker] else [].


(** A mine as [dropMine] makes it, at (1000, 0), with the given timer. *)
Definition mineAt (timer : Z) : Mine.t :=
  Mine.mk 0 1000 0 0 0 10 0 COLOR_DANGER timer ARMED.

(** A fresh asteroid of tier [t]: alive, and of that tier. *)
Definition freshOf (t : AsteroidTier) (k : Asteroid.t) : Prop :=
  Asteroid.tier k = t /\ alive k = true.



(** What a blast or a laser kill pushes: live asteroids that are neither
    TITAN nor VOLATILE. *)
Definition fragment (k : Asteroid.t) : Prop :=
  isBig (Asteroid.tier k) = false /\ alive k = true.

(** An asteroid after one frame of the laser. *)
Definition lasered (up : Upgrades) (a : Asteroid.t) : Asteroid.t :=
  Asteroid.set_hp (Asteroid.hp a - laserPowerOf up) a.

(** A frame with the primary button held, the pointer right of the screen
    centre: the laser points along +x. *)
Definition firingFrame : Frame :=
  {| gameState := PLAYING; sector := 1; screen_width := 800;
     screen_height := 600; keysPressed := []; mouse_x := 500; mouse_y := 300;
     mouse_down := true; mouse_rightDown := false |}.

(** The [onSectorCleared] calls among the events of a log, and how many a
    world has recorded. *)
Definition isCleared (e : Event) : bool :=
  match e with OnSectorCleared _ _ => true | _ => false end.

Definition clearedCalls (w : World) : nat := sectorClearedCalls (log w).

(** An asteroid the sector check does not count. *)
Definition notBig (a : Asteroid.t) : Prop := isBig (Asteroid.tier a) = false.

(** A ship but for its hold. *)
Definition emptied (s : Ship.t) : Ship.t := Ship.set_cargo 0 s.

(** What [docking] tests on the ship. *)
Definition canDock (s : Ship.t) : bool :=
  Rltb (distance origin (Ship.pos s)) (STATION_RADIUS + SHIP_RADIUS)
  && Rltb (Rabs (Ship.vx s)) 1 && Rltb (Rabs (Ship.vy s)) 1.

(** The ship gliding into the station at the origin, a little faster than
    the docking speed, 30 frames of invulnerability left from a bump; the
    last TITAN of sector 1 sits 100 units from a mine whose countdown ends
    this frame, a thousand units away. *)
Definition gliding : Ship.t :=
  Ship.set_invulnerableTimer 30 (Ship.set_vx 1.01 hero).

Definition lastTitan : World := worldOf gliding [rock TITAN 1100] [mineAt 1].

(** The application after the frame in which that mine goes off. *)
Definition afterBlast : App := animationFrame (idleFrame PLAYING) (playing lastTitan).

(** The player leaves the station: [handleUndock], then the re-render. *)
Definition relaunch (a : App) : App := commit a (handleUndock a).

(** [frameBody] up to the end of the physics loop: the counter
    [titansLeft] and the world the sector check sees. *)
Definition afterPhysics (f : Frame) (w : World) : Z * World :=
  forEach (List.length (asteroids (beforeAsteroids f w))) asteroidStep
    (0%Z, beforeAsteroids f w).

(** * Properties *)

(** ** Comparisons *)

Lemma Rltb_true (a b : R) : a < b -> Rltb a b = true.
Proof. intro H. unfold Rltb. destruct (Rlt_dec a b); [reflexivity | contradiction]. Qed.

Lemma Rltb_false (a b : R) : b <= a -> Rltb a b = false.
Proof. intro H. unfold Rltb. destruct (Rlt_dec a b); [lra | reflexivity]. Qed.

Lemma Rltb_spec (a b : R) : Rltb a b = true <-> a < b.
Proof.
  unfold Rltb. destruct (Rlt_dec a b); split; intro H; try reflexivity;
    try assumption; try discriminate; contradiction.
Qed.

Lemma Rleb_true (a b : R) : a <= b -> Rleb a b = true.
Proof. intro H. unfold Rleb. destruct (Rle_dec a b); [reflexivity | contradiction]. Qed.

Lemma Rleb_false (a b : R) : b < a -> Rleb a b = false.
Proof. intro H. unfold Rleb. destruct (Rle_dec a b); [lra | reflexivity]. Qed.

Lemma Rleb_spec (a b : R) : Rleb a b = true <-> a <= b.
Proof.
  unfold Rleb. destruct (Rle_dec a b); split; intro H; try reflexivity;
    try assumption; try discriminate; contradiction.
Qed.

Lemma Rgtb_spec (a b : R) : Rgtb a b = true <-> b < a.
Proof. unfold Rgtb. apply Rltb_spec. Qed.

Lemma Rltb_false_iff (a b : R) : Rltb a b = false <-> b <= a.
Proof.
  unfold Rltb. destruct (Rlt_dec a b); split; intro H; try reflexivity;
    try discriminate; lra.
Qed.

Lemma Rleb_false_iff (a b : R) : Rleb a b = false <-> b < a.
Proof.
  unfold Rleb. destruct (Rle_dec a b); split; intro H; try reflexivity;
    try discriminate; lra.
Qed.

(** ** The speed cap *)

Lemma maxSpeedOf_pos (up : Upgrades) : 0 < maxSpeedOf up.
Proof.
  unfold maxSpeedOf, MAX_SPEED.
  pose proof (pos_INR (engineLevel up)). lra.
Qed.

Lemma speed_capped (up : Upgrades) (s : Ship.t) :
  maxSpeedOf up < speed s -> speed (capSpeed up s) = maxSpeedOf up.
Proof.
  intro Hgt. pose proof (maxSpeedOf_pos up) as Hm.
  unfold capSpeed. fold (speed s).
  rewrite (proj2 (Rgtb_spec _ _) Hgt).
  unfold speed at 1. simpl.
  assert (Hv : 0 < speed s) by lra.
  assert (Hsq : speed s * speed s = Ship.vx s * Ship.vx s + Ship.vy s * Ship.vy s).
  { unfold speed. apply sqrt_sqrt. nra. }
  replace (Ship.vx s / speed s * maxSpeedOf up * (Ship.vx s / speed s * maxSpeedOf up)
           + Ship.vy s / speed s * maxSpeedOf up * (Ship.vy s / speed s * maxSpeedOf up))
    with (maxSpeedOf up * maxSpeedOf up).
  - apply sqrt_square. lra.
  - transitivity
      ((Ship.vx s * Ship.vx s + Ship.vy s * Ship.vy s) / (speed s * speed s)
       * (maxSpeedOf up * maxSpeedOf up)).
    + rewrite <- Hsq. field. lra.
    + field. lra.
Qed.

Lemma heading_capped (up : Upgrades) (s : Ship.t) :
  maxSpeedOf up < speed s -> heading (capSpeed up s) = heading s.
Proof.
  intro Hgt. pose proof (maxSpeedOf_pos up) as Hm.
  pose proof (speed_capped up s Hgt) as Hcap.
  unfold heading, normalize. cbn [px py].
  fold (speed (capSpeed up s)). fold (speed s). rewrite Hcap.
  destruct (Req_dec_T (maxSpeedOf up) 0) as [E | _]; [lra |].
  destruct (Req_dec_T (speed s) 0) as [E | _]; [lra |].
  unfold capSpeed. fold (speed s).
  rewrite (proj2 (Rgtb_spec _ _) Hgt). simpl.
  f_equal; field; lra.
Qed.

(** C9.  In the control step the speed cap is [capSpeed]: whenever the
    speed before capping exceeds [MAX_SPEED + engineLevel * 0.5], the
    speed right after capping equals that bound, and the unit vector of
    the velocity ([normalize]) is the same before and after. *)
Theorem C9_speed_cap (up : Upgrades) (s : Ship.t) :
  maxSpeedOf up < speed s ->
  maxSpeedOf up = MAX_SPEED + INR (engineLevel up) * 0.5 /\
  speed (capSpeed up s) = maxSpeedOf up /\
  heading (capSpeed up s) = heading s.
Proof.
  intro H. split; [reflexivity |]. split.
  - apply speed_capped; assumption.
  - apply heading_capped; assumption.
Qed.

Lemma C9_speed_cap_witness :
  maxSpeedOf startUpgrades < speed (Ship.set_vx 100 hero) /\
  speed (capSpeed startUpgrades (Ship.set_vx 100 hero))
    = maxSpeedOf startUpgrades /\
  heading (capSpeed startUpgrades (Ship.set_vx 100 hero))
    = heading (Ship.set_vx 100 hero).
Proof.
  assert (H : maxSpeedOf startUpgrades < speed (Ship.set_vx 100 hero)).
  { unfold maxSpeedOf, speed, MAX_SPEED, startUpgrades, hero. simpl.
    replace (100 * 100 + 0 * 0) with (100 * 100) by ring.
    rewrite sqrt_square; lra. }
  split; [exact H |].
  exact (proj2 (C9_speed_cap startUpgrades (Ship.set_vx 100 hero) H)).
Defined.

(** ** Loops and arrays *)

Lemma forEachFrom_inv {St : Type} (P : St -> Prop) (body : nat -> St -> St) :
  (forall i s, P s -> P (body i s)) ->
  forall n i s, P s -> P (forEachFrom n i body s).
Proof.
  intros Hb n. induction n as [| n IH]; intros i s Hs; simpl.
  - exact Hs.
  - apply IH. apply Hb. exact Hs.
Qed.

(** An invariant that knows how far the loop has come. *)
Lemma forEachFrom_upto {St : Type} (I : nat -> St -> Prop)
  (body : nat -> St -> St) :
  (forall i s, I i s -> I (S i) (body i s)) ->
  forall n i s, I i s -> I (i + n)%nat (forEachFrom n i body s).
Proof.
  intros Hb n. induction n as [| n IH]; intros i s Hs; simpl.
  - rewrite Nat.add_0_r. exact Hs.
  - rewrite <- Nat.add_succ_comm. apply IH. apply Hb. exact Hs.
Qed.

Lemma times_inv (P : World -> Prop) (body : World -> World) :
  (forall w, P w -> P (body w)) ->
  forall n w, P w -> P (times n body w).
Proof.
  intros Hb n. induction n as [| n IH]; intros w Hw; simpl.
  - exact Hw.
  - apply IH. apply Hb. exact Hw.
Qed.

Lemma setNth_length {A : Type} (i : nat) (v : A) (l : list A) :
  List.length (setNth i v l) = List.length l.
Proof.
  revert i. induction l as [| h t IH]; intros [| i]; simpl; auto.
Qed.

Lemma nth_error_setNth_same {A : Type} (i : nat) (v : A) (l : list A) :
  (i < List.length l)%nat -> nth_error (setNth i v l) i = Some v.
Proof.
  revert i. induction l as [| h t IH]; intros [| i] H; simpl in *;
    try lia; auto.
  apply IH. lia.
Qed.

Lemma nth_error_setNth_other {A : Type} (i j : nat) (v : A) (l : list A) :
  i <> j -> nth_error (setNth i v l) j = nth_error l j.
Proof.
  revert i j. induction l as [| h t IH]; intros [| i] [| j] H; simpl;
    try reflexivity; try contradiction.
  apply IH. intro E. apply H. f_equal. exact E.
Qed.

Lemma setNth_app_l {A : Type} (i : nat) (v : A) (l k : list A) :
  (i < List.length l)%nat -> setNth i v (l ++ k) = setNth i v l ++ k.
Proof.
  revert i. induction l as [| h t IH]; intros [| i] H; simpl in *;
    try lia; auto.
  f_equal. apply IH. lia.
Qed.

(** ** Laser targeting *)

Lemma targetStep_spec s aim asts i acc a :
  nth_error asts i = Some a ->
  targetStep s aim asts i acc =
  if candidate s aim a && Rltb (shipDistance s a) (snd acc)
  then (Some i, shipDistance s a) else acc.
Proof.
  intro H. unfold targetStep, candidate. rewrite H.
  destruct (notMineable _); [reflexivity |].
  cbv zeta. cbn [negb andb].
  destruct (Rltb _ (LASER_RANGE + _)); [| reflexivity].
  destruct (Rltb (bearingOff _ _ _) _); reflexivity.
Qed.

Lemma targetStep_inv s aim asts k acc :
  targetInv s aim asts k acc ->
  targetInv s aim asts (S k) (targetStep s aim asts k acc).
Proof.
  intros Hinv.
  destruct (nth_error asts k) as [a |] eqn:Ha.
  2:{ unfold targetStep. rewrite Ha. unfold targetInv in *.
      assert (Hlt : forall j b, (j < S k)%nat -> nth_error asts j = Some b ->
                                (j < k)%nat).
      { intros j b Hj Hb. destruct (Nat.eq_dec j k) as [-> | Hne];
          [congruence | lia]. }
      destruct (fst acc) as [i |].
      - destruct Hinv as (a0 & Ha0 & Hi & Hc0 & Hbd & Hr & Hmin & Hfirst).
        exists a0. repeat split; try assumption; try lia.
        intros j b Hj Hb Hcb. apply (Hmin j b); eauto.
      - destruct Hinv as (Hbd & Hnone). split; [exact Hbd |].
        intros j b Hj Hb Hcb. apply (Hnone j b); eauto. }
  rewrite (targetStep_spec _ _ _ _ _ _ Ha).
  destruct acc as [best bd]. unfold targetInv in *. cbn [fst snd] in *.
  destruct (candidate s aim a) eqn:Hc; cbn [andb].
  - destruct (Rltb (shipDistance s a) bd) eqn:Hlt; cbn [fst snd].
    + apply Rltb_spec in Hlt.
      exists a. split; [exact Ha |]. split; [lia |]. split; [exact Hc |].
      split; [reflexivity |].
      destruct best as [i |].
      * destruct Hinv as (a0 & Ha0 & Hi & Hc0 & Hbd & Hr & Hmin & Hfirst).
        subst bd. split; [lra |]. split.
        -- intros j b Hj Hb Hcb.
           destruct (Nat.eq_dec j k) as [-> | Hne].
           ++ rewrite Ha in Hb. injection Hb as <-. lra.
           ++ assert (j < k)%nat by lia.
              pose proof (Hmin j b H Hb Hcb). lra.
        -- intros j b Hj Hb Hcb.
           pose proof (Hmin j b Hj Hb Hcb). lra.
      * destruct Hinv as (Hbd & Hnone). subst bd.
        split; [exact Hlt |]. split.
        -- intros j b Hj Hb Hcb.
           destruct (Nat.eq_dec j k) as [-> | Hne].
           ++ rewrite Ha in Hb. injection Hb as <-. lra.
           ++ assert (j < k)%nat by lia.
              pose proof (Hnone j b H Hb Hcb). lra.
        -- intros j b Hj Hb Hcb.
           pose proof (Hnone j b Hj Hb Hcb). lra.
    + apply Rltb_false_iff in Hlt.
      destruct best as [i |].
      * destruct Hinv as (a0 & Ha0 & Hi & Hc0 & Hbd & Hr & Hmin & Hfirst).
        exists a0. repeat split; try assumption; try lia.
        intros j b Hj Hb Hcb.
        destruct (Nat.eq_dec j k) as [-> | Hne].
        -- rewrite Ha in Hb. injection Hb as <-. lra.
        -- apply (Hmin j b); try assumption. lia.
      * destruct Hinv as (Hbd & Hnone). split; [exact Hbd |].
        intros j b Hj Hb Hcb.
        destruct (Nat.eq_dec j k) as [-> | Hne].
        -- rewrite Ha in Hb. injection Hb as <-. lra.
        -- apply (Hnone j b); try assumption. lia.
  - destruct best as [i |].
    + destruct Hinv as (a0 & Ha0 & Hi & Hc0 & Hbd & Hr & Hmin & Hfirst).
      exists a0. repeat split; try assumption; try lia.
      intros j b Hj Hb Hcb.
      destruct (Nat.eq_dec j k) as [-> | Hne].
      * rewrite Ha in Hb. injection Hb as <-. congruence.
      * apply (Hmin j b); try assumption. lia.
    + destruct Hinv as (Hbd & Hnone). split; [exact Hbd |].
      intros j b Hj Hb Hcb.
      destruct (Nat.eq_dec j k) as [-> | Hne].
      * rewrite Ha in Hb. injection Hb as <-. congruence.
      * apply (Hnone j b); try assumption. lia.
Qed.

Lemma findTarget_inv s aim asts :
  targetInv s aim asts (List.length asts) (findTarget s aim asts).
Proof.
  unfold findTarget, forEach.
  apply (forEachFrom_upto (targetInv s aim asts)).
  - intros i acc. apply targetStep_inv.
  - unfold targetInv. cbn [fst snd]. split; [reflexivity |].
    intros j b Hj. lia.
Qed.

Lemma findTarget_some s aim asts i d :
  findTarget s aim asts = (Some i, d) ->
  exists a, nth_error asts i = Some a /\ inBeam s aim a = true /\
            d = shipDistance s a.
Proof.
  intro H. pose proof (findTarget_inv s aim asts) as Hinv.
  rewrite H in Hinv. unfold targetInv in Hinv. cbn [fst snd] in Hinv.
  destruct Hinv as (a & Ha & _ & Hc & Hd & Hr & _).
  exists a. split; [exact Ha |]. split; [| exact Hd].
  unfold inBeam. rewrite Hc. cbn [andb]. apply Rltb_true. exact Hr.
Qed.

Lemma inBeam_mineable s aim a :
  inBeam s aim a = true -> Asteroid.tier a = CHUNK.
Proof.
  unfold inBeam, candidate, notMineable. destruct (Asteroid.tier a); cbn;
    intro H; try discriminate; reflexivity.
Qed.
(** ** Frame rules: what each helper of [update] leaves alone

    [proj] is any view of the world; [loud] tells which logged events the
    view depends on.  Each lemma says that a helper does not change the
    view, under the hypotheses about [proj] and [loud] it needs. *)

Arguments random : simpl never.
Arguments randomRange : simpl never.
Arguments spawnAsteroid : simpl never.
Arguments spawnParticle : simpl never.
Arguments spawnParticles : simpl never.
Arguments spawnFragment : simpl never.
Arguments breakAsteroid : simpl never.
Arguments emit : simpl never.
Arguments putAsteroid : simpl never.
Arguments putMine : simpl never.

Lemma playingFrame_split (f : Frame) (w : World) :
  playingFrame f w = gameOverCheck (tickInvulnerability (frameBody f w)).
Proof.
  unfold playingFrame, frameBody.
  destruct (forEach _ asteroidStep _) as [t w']. reflexivity.
Qed.

Lemma tier_eqb_eq (a b : AsteroidTier) : tier_eqb a b = true <-> a = b.
Proof. destruct a, b; cbn; split; intro H; try reflexivity; discriminate. Qed.


Lemma alive_not_dead (a : Asteroid.t) :
  alive a && Rleb (Asteroid.hp a) 0 = false.
Proof.
  unfold alive, Rgtb. destruct (Rltb 0 (Asteroid.hp a)) eqn:H1; [| reflexivity].
  apply Rltb_spec in H1. cbn [andb]. apply Rleb_false. exact H1.
Qed.

Section Frame.
Context {A : Type} (proj : World -> A) (loud : Event -> bool).
Hypothesis proj_rng : forall v w, proj (set_rng v w) = proj w.
Hypothesis proj_particles : forall v w, proj (set_particles v w) = proj w.
Hypothesis proj_asteroids : forall v w, proj (set_asteroids v w) = proj w.
Hypothesis proj_shake : forall v w, proj (set_shake v w) = proj w.
Hypothesis proj_laser : forall v w, proj (set_laser v w) = proj w.
Hypothesis proj_camera : forall v w, proj (set_camera v w) = proj w.
Hypothesis proj_ship : forall v w, proj (set_ship v w) = proj w.
Hypothesis proj_mines : forall v w, proj (set_mines v w) = proj w.
Hypothesis proj_ore : forall v w, proj (set_sectorOreCollected v w) = proj w.
Hypothesis proj_emit : forall e w, loud e = false -> proj (emit e w) = proj w.
Hypothesis quiet_thrust : forall b, loud (AudioSetThrust b) = false.
Hypothesis quiet_laser : forall b, loud (AudioSetLaser b) = false.
Hypothesis quiet_tractor : forall b, loud (AudioSetTractor b) = false.
Hypothesis quiet_explosion : forall sz, loud (AudioPlayExplosion sz) = false.
Hypothesis quiet_pickup : loud AudioPlayPickup = false.
Hypothesis quiet_ui : forall k, loud (AudioPlayUI k) = false.
Hypothesis quiet_sync : loud SyncUI = false.
Hypothesis quiet_pucker : loud AudioPlayMinePucker = false.
Hypothesis quiet_phase : forall g, loud (SetGameState g) = false.
Hypothesis quiet_cleared : forall p o, loud (OnSectorCleared p o) = false.
Hypothesis quiet_break :
  forall a, Asteroid.tier a <> ORE -> loud (TraceBreak a) = false.
Hypothesis quiet_collect :
  forall a, Asteroid.tier a = ORE -> loud (TracePickup a) = false.

Lemma times_keeps (body : World -> World) (n : nat) :
  (forall w, proj (body w) = proj w) ->
  forall w, proj (times n body w) = proj w.
Proof.
intros Hb. induction n as [| n IH]; intro w; simpl.
- reflexivity.
- rewrite IH. apply Hb.
Qed.

Lemma forEachFrom_keeps (body : nat -> World -> World) (n : nat) :
  (forall i w, proj (body i w) = proj w) ->
  forall i w, proj (forEachFrom n i body w) = proj w.
Proof.
intros Hb. induction n as [| n IH]; intros i w; simpl.
- reflexivity.
- rewrite IH. apply Hb.
Qed.

Lemma random_keeps (w : World) : proj (snd (random w)) = proj w.
Proof. unfold random. cbn [snd]. apply proj_rng. Qed.

Lemma randomRange_keeps (lo hi : R) (w : World) :
  proj (snd (randomRange lo hi w)) = proj w.
Proof. unfold randomRange, random. cbn [snd]. apply proj_rng. Qed.

Lemma generatePolygonOffsets_keeps (n : nat) (v : R) (w : World) :
  proj (snd (generatePolygonOffsets n v w)) = proj w.
Proof.
revert w. induction n as [| n IH]; intro w.
- reflexivity.
- cbn [generatePolygonOffsets].
  destruct (randomRange (1 - v) (1 + v) w) as [o w1] eqn:E1.
  destruct (generatePolygonOffsets n v w1) as [os w2] eqn:E2.
  cbn [snd]. transitivity (proj w1).
  + rewrite <- (IH w1), E2. reflexivity.
  + rewrite <- (randomRange_keeps (1 - v) (1 + v) w), E1. reflexivity.
Qed.

Ltac draw :=
  match goal with
  | |- context [random ?w] =>
      let H := fresh "Hk" in
      pose proof (random_keeps w) as H;
      destruct (random w) as [? ?]; cbn [snd] in H
  | |- context [randomRange ?a ?b ?w] =>
      let H := fresh "Hk" in
      pose proof (randomRange_keeps a b w) as H;
      destruct (randomRange a b w) as [? ?]; cbn [snd] in H
  | |- context [generatePolygonOffsets ?n ?v ?w] =>
      let H := fresh "Hk" in
      pose proof (generatePolygonOffsets_keeps n v w) as H;
      destruct (generatePolygonOffsets n v w) as [? ?]; cbn [snd] in H
  end.

Lemma emit_keeps (e : Event) (w : World) :
  loud e = false -> proj (emit e w) = proj w.
Proof. apply proj_emit. Qed.

Lemma putAsteroid_keeps (i : nat) (a : Asteroid.t) (w : World) :
  proj (putAsteroid i a w) = proj w.
Proof. unfold putAsteroid. apply proj_asteroids. Qed.

Lemma putMine_keeps (i : nat) (m : Mine.t) (w : World) :
  proj (putMine i m w) = proj w.
Proof. unfold putMine. apply proj_mines. Qed.

Ltac keeps :=
  repeat first
    [ rewrite proj_asteroids | rewrite proj_laser | rewrite proj_shake
    | rewrite proj_particles | rewrite proj_rng | rewrite proj_camera
    | rewrite proj_ship | rewrite proj_mines | rewrite proj_ore
    | rewrite emit_keeps by auto
    | rewrite putAsteroid_keeps | rewrite putMine_keeps ];
  try reflexivity; try congruence.

Lemma spawnAsteroid_keeps (t : AsteroidTier) (x y vx vy : R) (w : World) :
  proj (spawnAsteroid t x y vx vy w) = proj w.
Proof. unfold spawnAsteroid. repeat draw. keeps. Qed.

Lemma spawnParticle_keeps (x y : R) (c : string) (sp l : R) (w : World) :
  proj (spawnParticle x y c sp l w) = proj w.
Proof. unfold spawnParticle. repeat draw. keeps. Qed.

Lemma spawnParticles_keeps (x y : R) (c : string) (n : nat) (sp l : R)
  (w : World) : proj (spawnParticles x y c n sp l w) = proj w.
Proof. unfold spawnParticles. apply times_keeps. apply spawnParticle_keeps. Qed.

Lemma spawnFragment_keeps (t : AsteroidTier) (a : Asteroid.t)
  (lo hi off ix iy : R) (w : World) :
  proj (spawnFragment t a lo hi off ix iy w) = proj w.
Proof. unfold spawnFragment. repeat draw. rewrite spawnAsteroid_keeps. keeps. Qed.

Lemma breakAsteroid_keeps (a : Asteroid.t) (ix iy : R) (w : World) :
  loud (TraceBreak a) = false -> proj (breakAsteroid a ix iy w) = proj w.
Proof.
intro Hq. unfold breakAsteroid.
destruct (Asteroid.tier a) eqn:E;
  repeat first [ rewrite times_keeps by (intro; apply spawnFragment_keeps)
               | rewrite proj_shake
               | rewrite emit_keeps by auto
               | rewrite spawnParticles_keeps ];
  reflexivity.
Qed.

Lemma suctionParticle_keeps (m : Mine.t) (w : World) :
  proj (suctionParticle m w) = proj w.
Proof. unfold suctionParticle. repeat draw. keeps. Qed.

Lemma puckerAsteroid_keeps (m : Mine.t) (i : nat) (w : World) :
  proj (puckerAsteroid m i w) = proj w.
Proof.
unfold puckerAsteroid. destruct (nth_error _ _); [| reflexivity].
destruct (Rltb _ _); keeps.
Qed.

Lemma blastAsteroid_keeps (m : Mine.t) (i : nat) (w : World) :
  proj (blastAsteroid m i w) = proj w.
Proof.
unfold blastAsteroid. destruct (nth_error _ _) as [a |]; [| reflexivity].
destruct (Rltb _ _); [| reflexivity]. cbv zeta.
cbn [Asteroid.tier Asteroid.set_vy Asteroid.set_vx].
destruct (Asteroid.tier a) eqn:Ht; cbn [tier_eqb orb negb].
- destruct (_ && _); [rewrite breakAsteroid_keeps |]; keeps.
  apply quiet_break. cbn. rewrite Ht. discriminate.
- destruct (_ && _); [rewrite breakAsteroid_keeps |]; keeps.
  apply quiet_break. cbn. rewrite Ht. discriminate.
- rewrite alive_not_dead. keeps.
- destruct (_ && _); [rewrite breakAsteroid_keeps |]; keeps.
  apply quiet_break. cbn. rewrite Ht. discriminate.
Qed.

Lemma tractorStep_keeps (i : nat) (w : World) : proj (tractorStep i w) = proj w.
Proof.
unfold tractorStep.
destruct (nth_error (asteroids w) i); [| reflexivity].
destruct (tier_eqb _ _); [| reflexivity].
destruct (Rltb _ _); [| reflexivity].
repeat draw. keeps.
Qed.

Lemma tractorBeam_keeps (f : Frame) (w : World) : proj (tractorBeam f w) = proj w.
Proof.
unfold tractorBeam. destruct (mouse_rightDown f).
- unfold forEach. rewrite forEachFrom_keeps by (intros; apply tractorStep_keeps).
  keeps.
- keeps.
Qed.

Lemma laserShot_keeps (f : Frame) (w : World) : proj (laserShot f w) = proj w.
Proof.
unfold laserShot. cbv zeta. cbn [asteroids set_laser].
destruct (findTarget _ _ _) as [[i |] d] eqn:Hf; [| keeps].
destruct (findTarget_some _ _ _ _ _ Hf) as (a & Ha & Hin & _).
rewrite Ha. apply inBeam_mineable in Hin.
destruct (_ && _).
- rewrite breakAsteroid_keeps
    by (apply quiet_break; cbn; rewrite Hin; discriminate).
  rewrite spawnParticles_keeps. keeps.
- rewrite spawnParticles_keeps. keeps.
Qed.

Lemma miningLaser_keeps (f : Frame) (w : World) : proj (miningLaser f w) = proj w.
Proof.
unfold miningLaser. destruct (mouse_down f); cbv zeta.
- rewrite proj_asteroids, laserShot_keeps. keeps.
- keeps.
Qed.

Lemma moveAsteroid_keeps (a : Asteroid.t) (w : World) :
  proj (snd (moveAsteroid a w)) = proj w.
Proof.
unfold moveAsteroid.
destruct (Rltb _ _); [destruct (Rltb _ 0) |]; cbv beta iota zeta; cbn [snd];
  try rewrite spawnParticles_keeps; keeps.
Qed.

Lemma sectorCheck_keeps (f : Frame) (t : Z) (w : World) :
  proj (sectorCheck f t w) = proj w.
Proof.
unfold sectorCheck. cbv zeta.
destruct (_ && _); [destruct (_ && _) |]; keeps.
Qed.

Lemma docking_keeps (w : World) : proj (docking w) = proj w.
Proof. unfold docking. cbv zeta. destruct (_ && _); keeps. Qed.

Lemma gameOverCheck_keeps (w : World) : proj (gameOverCheck w) = proj w.
Proof. unfold gameOverCheck. destruct (Rleb _ _); keeps. Qed.

Lemma stepParticles_keeps (w : World) : proj (stepParticles w) = proj w.
Proof. unfold stepParticles. keeps. Qed.

Lemma shakeDecay_keeps (w : World) : proj (shakeDecay w) = proj w.
Proof. unfold shakeDecay. destruct (Rgtb _ _); keeps. Qed.

Lemma cameraFollow_keeps (f : Frame) (w : World) :
  proj (cameraFollow f w) = proj w.
Proof. unfold cameraFollow. keeps. Qed.

Lemma thrust_keeps (f : Frame) (w : World) : proj (thrust f w) = proj w.
Proof.
unfold thrust. cbv zeta. destruct (_ || _).
- rewrite spawnParticles_keeps. keeps.
- keeps.
Qed.

Lemma reverseThrust_keeps (f : Frame) (w : World) :
  proj (reverseThrust f w) = proj w.
Proof.
unfold reverseThrust. cbv zeta. destruct (_ || _).
- rewrite !spawnParticles_keeps. keeps.
- keeps.
Qed.

Lemma spaceBrake_keeps (f : Frame) (w : World) : proj (spaceBrake f w) = proj w.
Proof.
unfold spaceBrake. destruct (has _ _); [| reflexivity]. cbv zeta.
draw. destruct (_ && _); [rewrite spawnParticles_keeps |]; keeps;
  rewrite Hk; keeps.
Qed.

Lemma rotate_keeps (f : Frame) (w : World) : proj (rotate f w) = proj w.
Proof.
unfold rotate. cbv zeta. destruct (_ || _); destruct (_ || _); keeps.
Qed.

Lemma shipControls_keeps (f : Frame) (w : World) :
  proj (shipControls f w) = proj w.
Proof.
unfold shipControls. cbv zeta.
rewrite proj_ship, rotate_keeps, spaceBrake_keeps, reverseThrust_keeps,
  thrust_keeps.
reflexivity.
Qed.

Lemma puckerShip_keeps (m : Mine.t) (w : World) : proj (puckerShip m w) = proj w.
Proof. unfold puckerShip. cbv zeta. destruct (Rltb _ _); keeps. Qed.

Lemma blastShip_keeps (m : Mine.t) (w : World) : proj (blastShip m w) = proj w.
Proof.
unfold blastShip. cbv zeta. destruct (Rltb _ _); [| reflexivity].
destruct (_ <=? _)%Z; keeps.
Qed.

Lemma mineStep_keeps (i : nat) (w : World) : proj (mineStep i w) = proj w.
Proof.
unfold mineStep. destruct (nth_error _ _) as [m0 |]; [| reflexivity].
cbv zeta.
assert (Hp : forall b : bool,
           proj (if b then emit AudioPlayMinePucker
                             (putMine i (Mine.set_timer (Mine.timer m0 - 1) m0) w)
                 else putMine i (Mine.set_timer (Mine.timer m0 - 1) m0) w)
           = proj w).
{ intros [|]; keeps. }
destruct (_ && _).
- rewrite times_keeps by (intro; apply suctionParticle_keeps).
  rewrite puckerShip_keeps. unfold forEach.
  rewrite forEachFrom_keeps by (intros; apply puckerAsteroid_keeps).
  rewrite putMine_keeps. apply Hp.
- destruct (_ <=? 0)%Z.
  + rewrite blastShip_keeps. unfold forEach.
    rewrite forEachFrom_keeps by (intros; apply blastAsteroid_keeps).
    rewrite !spawnParticles_keeps, proj_shake.
    rewrite emit_keeps by auto. rewrite putMine_keeps. apply Hp.
  + apply Hp.
Qed.

Lemma stepMines_keeps (w : World) : proj (stepMines w) = proj w.
Proof.
unfold stepMines. cbv zeta. rewrite proj_asteroids, proj_mines.
unfold forEach. apply forEachFrom_keeps. apply mineStep_keeps.
Qed.

Lemma collide_keeps (i : nat) (a : Asteroid.t) (w : World) :
  proj (collide i a w) = proj w.
Proof.
unfold collide. cbv zeta.
destruct (checkCollision _ _ _ _); [| reflexivity].
destruct (tier_eqb (Asteroid.tier a) ORE) eqn:Ht.
- apply tier_eqb_eq in Ht. destruct (_ <? _)%Z; keeps.
- destruct (_ <=? 0)%Z; [| reflexivity].
  destruct (_ || _); keeps.
Qed.

Lemma asteroidStep_keeps (i : nat) (st : Z * World) :
  proj (snd (asteroidStep i st)) = proj (snd st).
Proof.
destruct st as [t w]. unfold asteroidStep. cbn [snd].
destruct (nth_error _ _) as [a0 |]; [| reflexivity].
pose proof (moveAsteroid_keeps a0 w) as Hm.
destruct (moveAsteroid a0 w) as [a w1]. cbn [snd] in *.
rewrite collide_keeps, putAsteroid_keeps. exact Hm.
Qed.

Lemma tickInvulnerability_keeps (w : World) :
  proj (tickInvulnerability w) = proj w.
Proof. unfold tickInvulnerability. cbv zeta. destruct (_ <? _)%Z; keeps. Qed.

Lemma asteroidLoop_keeps (n : nat) (st : Z * World) :
  proj (snd (forEach n asteroidStep st)) = proj (snd st).
Proof.
unfold forEach.
apply (forEachFrom_inv (fun s => proj (snd s) = proj (snd st))).
- intros i s Hs. rewrite asteroidStep_keeps. exact Hs.
- reflexivity.
Qed.

Lemma beforeMines_keeps (f : Frame) (w : World) :
  proj (beforeMines f w) = proj w.
Proof.
unfold beforeMines.
rewrite tractorBeam_keeps, miningLaser_keeps,
  cameraFollow_keeps, shipControls_keeps, shakeDecay_keeps.
reflexivity.
Qed.

Lemma beforeAsteroids_keeps (f : Frame) (w : World) :
  proj (beforeAsteroids f w) = proj w.
Proof.
unfold beforeAsteroids. rewrite stepMines_keeps. apply beforeMines_keeps.
Qed.

Lemma afterMines_keeps (f : Frame) (w : World) :
  proj (afterMines f w) = proj w.
Proof.
unfold afterMines.
pose proof (asteroidLoop_keeps (List.length (asteroids w)) (0%Z, w)) as Hl.
destruct (forEach _ asteroidStep _) as [t w6]. cbn [snd] in Hl.
rewrite stepParticles_keeps, docking_keeps, sectorCheck_keeps. exact Hl.
Qed.

Lemma endOfFrame_keeps (w : World) :
  proj (gameOverCheck (tickInvulnerability w)) = proj w.
Proof. rewrite gameOverCheck_keeps. apply tickInvulnerability_keeps. Qed.

Lemma frameBody_keeps (f : Frame) (w : World) : proj (frameBody f w) = proj w.
Proof.
change (frameBody f w) with
  (let w5 := beforeAsteroids f w in
   let (titansLeft, w6) :=
     forEach (List.length (asteroids w5)) asteroidStep (0%Z, w5) in
   stepParticles (docking (sectorCheck f titansLeft w6))).
cbv zeta.
pose proof (asteroidLoop_keeps
              (List.length (asteroids (beforeAsteroids f w)))
              (0%Z, beforeAsteroids f w)) as Hl.
destruct (forEach _ asteroidStep _) as [t w6]. cbn [snd] in Hl.
rewrite stepParticles_keeps, docking_keeps, sectorCheck_keeps, Hl.
apply beforeAsteroids_keeps.
Qed.

Lemma update_keeps (f : Frame) (w : World) : proj (update f w) = proj w.
Proof.
unfold update. destruct (negb _).
- keeps.
- rewrite playingFrame_split, gameOverCheck_keeps, tickInvulnerability_keeps.
  apply frameBody_keeps.
Qed.
End Frame.
(** *** The ship is touched by the controls, the mines and the collisions only *)

Ltac frame_by L :=
  intros;
  first [ apply (L (fun _ : Event => false)) | apply L ];
  intros; reflexivity.

Lemma ship_random w : ship (snd (random w)) = ship w.
Proof. frame_by (random_keeps ship). Qed.

Lemma ship_emit e w : ship (emit e w) = ship w.
Proof. reflexivity. Qed.

Lemma ship_putAsteroid i a w : ship (putAsteroid i a w) = ship w.
Proof. reflexivity. Qed.

Lemma ship_putMine i m w : ship (putMine i m w) = ship w.
Proof. reflexivity. Qed.

Lemma ship_spawnParticles x y c n sp l w :
  ship (spawnParticles x y c n sp l w) = ship w.
Proof. frame_by (spawnParticles_keeps ship). Qed.

Lemma ship_breakAsteroid a ix iy w : ship (breakAsteroid a ix iy w) = ship w.
Proof. frame_by (breakAsteroid_keeps ship). Qed.

Lemma ship_suctionParticle m w : ship (suctionParticle m w) = ship w.
Proof. frame_by (suctionParticle_keeps ship). Qed.

Lemma ship_puckerAsteroid m i w : ship (puckerAsteroid m i w) = ship w.
Proof. frame_by (puckerAsteroid_keeps ship). Qed.

Lemma ship_blastAsteroid m i w : ship (blastAsteroid m i w) = ship w.
Proof. frame_by (blastAsteroid_keeps ship). Qed.

Lemma ship_miningLaser f w : ship (miningLaser f w) = ship w.
Proof. frame_by (miningLaser_keeps ship). Qed.

Lemma ship_tractorBeam f w : ship (tractorBeam f w) = ship w.
Proof. frame_by (tractorBeam_keeps ship). Qed.

Lemma ship_moveAsteroid a w : ship (snd (moveAsteroid a w)) = ship w.
Proof. frame_by (moveAsteroid_keeps ship). Qed.

Lemma ship_sectorCheck f t w : ship (sectorCheck f t w) = ship w.
Proof. frame_by (sectorCheck_keeps ship). Qed.

Lemma ship_docking w : ship (docking w) = ship w.
Proof. frame_by (docking_keeps ship). Qed.

Lemma ship_gameOverCheck w : ship (gameOverCheck w) = ship w.
Proof. frame_by (gameOverCheck_keeps ship). Qed.

Lemma ship_stepParticles w : ship (stepParticles w) = ship w.
Proof. reflexivity. Qed.

Lemma ship_shakeDecay w : ship (shakeDecay w) = ship w.
Proof. frame_by (shakeDecay_keeps ship). Qed.

Lemma ship_cameraFollow f w : ship (cameraFollow f w) = ship w.
Proof. reflexivity. Qed.

Lemma vitals_capSpeed up s : vitals (capSpeed up s) = vitals s.
Proof. unfold capSpeed. destruct (Rgtb _ _); reflexivity. Qed.

Lemma vitals_thrust f w : vitals (ship (thrust f w)) = vitals (ship w).
Proof.
  unfold thrust. destruct (_ || _); cbv zeta.
  - rewrite ship_spawnParticles. reflexivity.
  - reflexivity.
Qed.

Lemma vitals_reverseThrust f w :
  vitals (ship (reverseThrust f w)) = vitals (ship w).
Proof.
  unfold reverseThrust. destruct (_ || _); cbv zeta.
  - rewrite !ship_spawnParticles. reflexivity.
  - reflexivity.
Qed.

Lemma vitals_spaceBrake f w :
  vitals (ship (spaceBrake f w)) = vitals (ship w).
Proof.
  unfold spaceBrake. destruct (has _ _); [| reflexivity]. cbv zeta.
  match goal with
  | |- context [random ?w0] =>
      pose proof (ship_random w0) as Hk; destruct (random w0) as [r w1]
  end.
  cbn [snd] in Hk.
  assert (vitals (ship w1) = vitals (ship w)) as Hv.
  { rewrite Hk. cbn [ship set_ship].
    destruct (Rltb _ 0.01); destruct (Rltb _ 0.01); reflexivity. }
  destruct (_ && _); [rewrite ship_spawnParticles |]; exact Hv.
Qed.

Lemma vitals_rotate f w : vitals (ship (rotate f w)) = vitals (ship w).
Proof.
  unfold rotate. cbv zeta. destruct (_ || _); destruct (_ || _); reflexivity.
Qed.

Lemma vitals_integrate up s : vitals (integrate up s) = vitals s.
Proof.
  unfold integrate. cbv zeta. cbn. apply vitals_capSpeed.
Qed.

Lemma vitals_shipControls f w :
  vitals (ship (shipControls f w)) = vitals (ship w).
Proof.
  unfold shipControls. cbv zeta. cbn [ship set_ship].
  rewrite vitals_integrate, vitals_rotate, vitals_spaceBrake,
    vitals_reverseThrust, vitals_thrust.
  reflexivity.
Qed.

Lemma ship_forEach_pucker m n w :
  ship (forEach n (puckerAsteroid m) w) = ship w.
Proof. unfold forEach. apply (forEachFrom_keeps ship). apply ship_puckerAsteroid. Qed.

Lemma ship_forEach_blast m n w :
  ship (forEach n (blastAsteroid m) w) = ship w.
Proof. unfold forEach. apply (forEachFrom_keeps ship). apply ship_blastAsteroid. Qed.

Lemma ship_times_suction m n w : ship (times n (suctionParticle m) w) = ship w.
Proof. apply (times_keeps ship). apply ship_suctionParticle. Qed.

Lemma vitals_puckerShip m w : vitals (ship (puckerShip m w)) = vitals (ship w).
Proof. unfold puckerShip. destruct (Rltb _ _); reflexivity. Qed.

Section VitalsRule.
Variable Q : Vitals -> Prop.
Hypothesis Q_blast :
  forall m w, Q (vitals (ship w)) -> Q (vitals (ship (blastShip m w))).
Hypothesis Q_collide :
  forall i a w, Q (vitals (ship w)) -> Q (vitals (ship (collide i a w))).

Lemma mineStep_vitals i w :
  Q (vitals (ship w)) -> Q (vitals (ship (mineStep i w))).
Proof.
intro H. unfold mineStep.
destruct (nth_error (mines w) i) as [m0 |]; [| exact H].
cbv zeta.
destruct (_ && _).
- rewrite ship_times_suction, vitals_puckerShip, ship_forEach_pucker.
  destruct (_ =? _)%Z; exact H.
- destruct (_ <=? 0)%Z.
  + apply Q_blast.
    rewrite ship_forEach_blast. rewrite !ship_spawnParticles.
    destruct (_ =? _)%Z; exact H.
  + destruct (_ =? _)%Z; exact H.
Qed.

Lemma stepMines_vitals w :
  Q (vitals (ship w)) -> Q (vitals (ship (stepMines w))).
Proof.
intro H. unfold stepMines. cbn [ship set_asteroids set_mines].
unfold forEach.
apply (forEachFrom_inv (fun w => Q (vitals (ship w)))); [| exact H].
intros i s. apply mineStep_vitals.
Qed.

Lemma asteroidStep_vitals i st :
  Q (vitals (ship (snd st))) -> Q (vitals (ship (snd (asteroidStep i st)))).
Proof.
destruct st as [t w]. cbn [snd]. intro H. unfold asteroidStep.
destruct (nth_error (asteroids w) i) as [a0 |]; [| exact H].
pose proof (ship_moveAsteroid a0 w) as Hm.
destruct (moveAsteroid a0 w) as [a w1]. cbn [snd] in *.
apply Q_collide. rewrite ship_putAsteroid, Hm. exact H.
Qed.

Lemma frameBody_vitals f w :
  Q (vitals (ship w)) -> Q (vitals (ship (frameBody f w))).
Proof.
intro H. unfold frameBody.
match goal with
| |- context [forEach ?n asteroidStep ?s] =>
    assert (Hs : Q (vitals (ship (snd (forEach n asteroidStep s)))));
    [| destruct (forEach n asteroidStep s) as [t w'] ]
end.
- unfold forEach.
  apply (forEachFrom_inv (fun st => Q (vitals (ship (snd st))))).
  + intros i s. apply asteroidStep_vitals.
  + cbn [snd]. apply stepMines_vitals.
    rewrite ship_tractorBeam, ship_miningLaser, ship_cameraFollow,
      vitals_shipControls, ship_shakeDecay.
    exact H.
- cbn [snd] in Hs.
  rewrite ship_stepParticles, ship_docking, ship_sectorCheck. exact Hs.
Qed.
End VitalsRule.

(** ** Bounds on hull, shield and cargo *)

Lemma distance_nonneg p q : 0 <= distance p q.
Proof. unfold distance. apply sqrt_pos. Qed.

Lemma blastShip_withinCaps m w :
  withinCaps (vitals (ship w)) -> withinCaps (vitals (ship (blastShip m w))).
Proof.
  unfold blastShip, withinCaps, emit.
  set (d := distance (Mine.pos m) (Ship.pos (ship w))).
  pose proof (distance_nonneg (Mine.pos m) (Ship.pos (ship w))) as Hd.
  fold d in Hd.
  intros (Hh & Hs & Hc).
  destruct (Rltb d MINE_BLAST_RADIUS) eqn:Hin; [| auto].
  apply Rltb_spec in Hin. unfold MINE_BLAST_RADIUS in *.
  cbv zeta. cbn [Ship.invulnerableTimer Ship.set_vy Ship.set_vx].
  destruct (_ <=? 0)%Z.
  - destruct (Rgtb _ 0) eqn:Hsh; cbn in *.
    + repeat split; try tauto; lra.
    + repeat split; try tauto.
      assert (0 <= 50 * (1 - d / 300)).
      { apply Rmult_le_pos; [lra |].
        assert (d / 300 < 1) by (unfold Rdiv; lra). lra. }
      lra.
  - cbn. auto.
Qed.

Lemma collide_withinCaps i a w :
  withinCaps (vitals (ship w)) -> withinCaps (vitals (ship (collide i a w))).
Proof.
  unfold collide, withinCaps, emit, putAsteroid. intros (Hh & Hs & Hc).
  cbn in Hh, Hs, Hc.
  destruct (checkCollision _ _ _ _); [| auto].
  destruct (tier_eqb (Asteroid.tier a) ORE).
  - destruct (_ <? _)%Z eqn:Hroom; [| auto].
    apply Z.ltb_lt in Hroom. cbn. repeat split; try tauto; lia.
  - destruct (_ <=? 0)%Z; [| auto].
    destruct (_ || _); [| auto].
    destruct (Rgtb (Ship.shield (ship w)) 0) eqn:Hsh; cbn.
    + repeat split; try tauto; lra.
    + repeat split; try tauto.
      assert (0 <= collisionDamage (Asteroid.tier a))
        by (unfold collisionDamage; destruct (Asteroid.tier a); lra).
      lra.
Qed.

Lemma vitals_gameOverCheck w :
  vitals (ship (gameOverCheck w)) = vitals (ship w).
Proof. rewrite ship_gameOverCheck. reflexivity. Qed.

Lemma tickInvulnerability_withinCaps w :
  withinCaps (vitals (ship w)) ->
  withinCaps (vitals (ship (tickInvulnerability w))).
Proof.
  unfold tickInvulnerability. destruct (_ <? _)%Z; auto.
Qed.

(** C1 (amended).  A frame keeps the hull at or below [maxHull], the
    shield between 0 and [maxShield] and the cargo between 0 and
    [maxCargo]: if these hold before [update] they hold after it, whatever
    the phase, the input, the mines and the asteroids.  Nothing is said
    about a floor on the hull: damage is subtracted without clamping. *)
Theorem C1_caps_preserved (f : Frame) (w : World) :
  withinCaps (vitals (ship w)) ->
  withinCaps (vitals (ship (update f w))).
Proof.
  intro H. unfold update.
  destruct (negb _).
  - exact H.
  - rewrite playingFrame_split, vitals_gameOverCheck.
    apply tickInvulnerability_withinCaps.
    apply frameBody_vitals.
    + apply blastShip_withinCaps.
    + apply collide_withinCaps.
    + exact H.
Qed.

Lemma frameBody_split f w :
  frameBody f w = afterMines f (stepMines (beforeMines f w)).
Proof. reflexivity. Qed.

Lemma frameBody_unfold f w :
  frameBody f w =
  let w5 := beforeAsteroids f w in
  let (titansLeft, w6) :=
    forEach (List.length (asteroids w5)) asteroidStep (0%Z, w5) in
  stepParticles (docking (sectorCheck f titansLeft w6)).
Proof. reflexivity. Qed.

(** *** Frames without input and without mines *)

Lemma thrust_quiet f w :
  keysPressed f = [] ->
  thrust f w =
  emit (AudioSetThrust false) (set_ship (Ship.set_thrusting false (ship w)) w).
Proof. intro Hk. unfold thrust. rewrite Hk. reflexivity. Qed.

Lemma reverseThrust_quiet f w : keysPressed f = [] -> reverseThrust f w = w.
Proof. intro Hk. unfold reverseThrust. rewrite Hk. reflexivity. Qed.

Lemma spaceBrake_quiet f w : keysPressed f = [] -> spaceBrake f w = w.
Proof. intro Hk. unfold spaceBrake. rewrite Hk. reflexivity. Qed.

Lemma rotate_quiet f w : keysPressed f = [] -> rotate f w = w.
Proof. intro Hk. unfold rotate. rewrite Hk. reflexivity. Qed.

Lemma shipControls_quiet f w :
  keysPressed f = [] ->
  shipControls f w =
  set_ship (integrate (upgrades w) (Ship.set_thrusting false (ship w)))
    (emit (AudioSetThrust false) w).
Proof.
  intro Hk. unfold shipControls. cbv zeta.
  rewrite (rotate_quiet _ _ Hk), (spaceBrake_quiet _ _ Hk),
    (reverseThrust_quiet _ _ Hk), (thrust_quiet _ _ Hk).
  reflexivity.
Qed.

Lemma miningLaser_off f w :
  mouse_down f = false ->
  miningLaser f w =
  emit (AudioSetLaser false)
    (set_laser {| active := false; laser_x := laser_x (laser w);
                  laser_y := laser_y (laser w);
                  laser_length := laser_length (laser w);
                  laser_angle := laser_angle (laser w) |} w).
Proof. intro H. unfold miningLaser. rewrite H. reflexivity. Qed.

Lemma tractorBeam_off f w :
  mouse_rightDown f = false ->
  tractorBeam f w = emit (AudioSetTractor false) w.
Proof. intro H. unfold tractorBeam. rewrite H. reflexivity. Qed.

Lemma stepMines_none w :
  mines w = [] ->
  stepMines w = set_asteroids (filter alive (asteroids w)) (set_mines [] w).
Proof.
  intro H. unfold stepMines. rewrite H.
  unfold forEach. cbn [List.length forEachFrom]. cbv zeta. rewrite H. reflexivity.
Qed.

Lemma beforeAsteroids_quiet f w :
  quietInput f -> mines w = [] ->
  let w5 := beforeAsteroids f w in
  ship w5 = integrate (upgrades w) (Ship.set_thrusting false (ship w)) /\
  asteroids w5 = filter alive (asteroids w) /\
  mines w5 = [] /\
  upgrades w5 = upgrades w /\
  levelInitialAsteroids w5 = levelInitialAsteroids w /\
  sectorOreCollected w5 = sectorOreCollected w /\
  prevSector w5 = prevSector w /\
  log w5 = AudioSetTractor false :: AudioSetLaser false
             :: AudioSetThrust false :: log w.
Proof.
  intros (Hk & Hd & Hr) Hm w5. subst w5.
  unfold beforeAsteroids, beforeMines.
  rewrite (tractorBeam_off _ _ Hr), (miningLaser_off _ _ Hd),
    (shipControls_quiet _ _ Hk).
  rewrite stepMines_none.
  2:{ unfold emit, cameraFollow. cbn [mines set_log set_laser set_camera set_ship].
      rewrite (shakeDecay_keeps mines) by (intros; reflexivity). exact Hm. }
  unfold emit, cameraFollow.
  cbn [ship asteroids mines upgrades levelInitialAsteroids sectorOreCollected
       prevSector log set_log set_laser set_camera set_ship set_asteroids
       set_mines].
  rewrite (shakeDecay_keeps ship), (shakeDecay_keeps asteroids),
    (shakeDecay_keeps upgrades), (shakeDecay_keeps levelInitialAsteroids),
    (shakeDecay_keeps sectorOreCollected), (shakeDecay_keeps prevSector),
    (shakeDecay_keeps log) by (intros; reflexivity).
  repeat split; reflexivity.
Qed.

Lemma sqrt_zero_sum : sqrt (0 * 0 + 0 * 0) = 0.
Proof. replace (0 * 0 + 0 * 0) with 0 by ring. apply sqrt_0. Qed.

Lemma integrate_rest up s :
  Ship.vx s = 0 -> Ship.vy s = 0 -> integrate up s = s.
Proof.
  intros Hx Hy. unfold integrate, capSpeed. rewrite Hx, Hy, sqrt_zero_sum.
  unfold Rgtb. rewrite Rltb_false by (pose proof (maxSpeedOf_pos up); lra).
  cbv zeta. destruct s. cbn in *. subst.
  unfold Ship.set_y, Ship.set_x, Ship.set_vy, Ship.set_vx. cbn.
  rewrite !Rmult_0_l, !Rplus_0_r. reflexivity.
Qed.

Lemma distance_on_axis p q :
  py p = py q -> px p <= px q -> distance p q = px q - px p.
Proof.
  intros Hy Hx. unfold distance. rewrite Hy.
  replace ((px q - px p) ^ 2 + (py q - py q) ^ 2) with ((px q - px p) ^ 2)
    by ring.
  apply sqrt_pow2. lra.
Qed.

Lemma moveAsteroid_outside a w :
  STATION_SHIELD_RADIUS + Asteroid.radius a <= distance origin (Asteroid.pos a) ->
  moveAsteroid a w = (drift a, w).
Proof.
  intros Hout. unfold moveAsteroid. rewrite Rltb_false by exact Hout.
  reflexivity.
Qed.

Lemma drift_rest a :
  Asteroid.vx a = 0 -> Asteroid.vy a = 0 -> Asteroid.rotationSpeed a = 0 ->
  drift a = a.
Proof.
  intros Hx Hy Hr. destruct a. cbn in *. subst.
  unfold drift, Asteroid.set_x, Asteroid.set_y, Asteroid.set_vx,
    Asteroid.set_vy, Asteroid.set_angle. cbn.
  rewrite !Rmult_0_l, !Rplus_0_r. reflexivity.
Qed.

Lemma asteroidLoop_single w a a' :
  asteroids w = [a] -> moveAsteroid a w = (a', w) ->
  forEach (List.length (asteroids w)) asteroidStep (0%Z, w) =
  ((if isBig (Asteroid.tier a') then 1 else 0)%Z,
   collide 0 a' (putAsteroid 0 a' w)).
Proof.
  intros Ha Hm. rewrite Ha. unfold forEach. cbn [List.length forEachFrom].
  unfold asteroidStep. rewrite Ha. cbn [nth_error]. rewrite Hm.
  destruct (isBig _); reflexivity.
Qed.

(** *** What a collision does to the ship *)

Lemma collide_damage i a w :
  checkCollision (Ship.pos (ship w)) (Ship.radius (ship w))
    (Asteroid.pos a) (Asteroid.radius a) = true ->
  tier_eqb (Asteroid.tier a) ORE = false ->
  (Ship.invulnerableTimer (ship w) <= 0)%Z ->
  Rgtb (relativeSpeed (ship w) a) 2 || tier_eqb (Asteroid.tier a) VOLATILE
    = true ->
  Ship.shield (ship w) <= 0 ->
  Ship.hull (ship (collide i a w))
    = Ship.hull (ship w) - collisionDamage (Asteroid.tier a) /\
  Ship.invulnerableTimer (ship (collide i a w)) = 60%Z /\
  log (collide i a w) = SyncUI :: AudioPlayExplosion small :: log w /\
  asteroids (collide i a w) = asteroids w.
Proof.
  intros Hc Ht Hi Hv Hs. unfold collide.
  rewrite Hc, Ht, (proj2 (Z.leb_le _ _) Hi), Hv.
  unfold Rgtb. rewrite Rltb_false by exact Hs.
  repeat split; reflexivity.
Qed.

Lemma collide_pickup i a w :
  checkCollision (Ship.pos (ship w)) (Ship.radius (ship w))
    (Asteroid.pos a) (Asteroid.radius a) = true ->
  tier_eqb (Asteroid.tier a) ORE = true ->
  (Ship.cargo (ship w) < Ship.maxCargo (ship w))%Z ->
  collide i a w =
  emit SyncUI
    (emit AudioPlayPickup
       (emit (TracePickup a)
          (putAsteroid i (Asteroid.set_hp 0 a)
             (set_sectorOreCollected (sectorOreCollected w + 1)
                (set_ship (Ship.set_cargo (Ship.cargo (ship w) + 1) (ship w))
                   w))))).
Proof.
  intros Hc Ht Hr. unfold collide.
  rewrite Hc, Ht, (proj2 (Z.ltb_lt _ _) Hr). reflexivity.
Qed.

Lemma hull_tickInvulnerability w :
  Ship.hull (ship (tickInvulnerability w)) = Ship.hull (ship w).
Proof. unfold tickInvulnerability. destruct (_ <? _)%Z; reflexivity. Qed.

Lemma update_playing f w :
  gameState f = PLAYING ->
  update f w = gameOverCheck (tickInvulnerability (frameBody f w)).
Proof.
  intro H. unfold update. rewrite H. cbn [GameState_eqb negb].
  apply playingFrame_split.
Qed.

Lemma quietInput_idle gs : quietInput (idleFrame gs).
Proof. repeat split. Qed.

(** *** A quiet frame with a single asteroid and no mine *)


Lemma filter_alive_single a : alive a = true -> filter alive [a] = [a].
Proof. intro H. cbn [filter]. rewrite H. reflexivity. Qed.

Lemma lone_asteroid f w a :
  quietInput f -> mines w = [] -> asteroids w = [a] -> alive a = true ->
  STATION_SHIELD_RADIUS + Asteroid.radius a
    <= distance origin (Asteroid.pos a) ->
  exists w5,
    ship w5 = integrate (upgrades w) (Ship.set_thrusting false (ship w)) /\
    asteroids w5 = [drift a] /\
    sectorOreCollected w5 = sectorOreCollected w /\
    levelInitialAsteroids w5 = levelInitialAsteroids w /\
    prevSector w5 = prevSector w /\
    log w5 = AudioSetTractor false :: AudioSetLaser false
               :: AudioSetThrust false :: log w /\
    frameBody f w =
    stepParticles
      (docking
         (sectorCheck f (if isBig (Asteroid.tier a) then 1 else 0)%Z
            (collide 0 (drift a) w5))).
Proof.
  intros Hq Hm Ha Hal Hout.
  destruct (beforeAsteroids_quiet f w Hq Hm)
    as (Hs & Has & _ & _ & Hl & Ho & Hp & Hlog).
  rewrite Ha, (filter_alive_single a Hal) in Has.
  rewrite frameBody_unfold. cbv zeta.
  remember (beforeAsteroids f w) as w4 eqn:E4. clear E4.
  exists (putAsteroid 0 (drift a) w4).
  rewrite (asteroidLoop_single w4 a (drift a) Has (moveAsteroid_outside a w4 Hout)).
  unfold putAsteroid at 1 2 3 4 5 6.
  cbn [ship asteroids sectorOreCollected levelInitialAsteroids prevSector log
       set_asteroids].
  rewrite Has. cbn [setNth].
  replace (Asteroid.tier (drift a)) with (Asteroid.tier a) by reflexivity.
  repeat split; assumption.
Qed.
(** A quiet frame in which the only asteroid, not an ORE, hits the ship
    hard enough while the ship has neither shield nor invulnerability. *)
Lemma lone_hit f w a :
  gameState f = PLAYING -> quietInput f -> mines w = [] ->
  asteroids w = [a] -> alive a = true ->
  STATION_SHIELD_RADIUS + Asteroid.radius a
    <= distance origin (Asteroid.pos a) ->
  let s' := integrate (upgrades w) (Ship.set_thrusting false (ship w)) in
  checkCollision (Ship.pos s') (Ship.radius s')
    (Asteroid.pos (drift a)) (Asteroid.radius a) = true ->
  tier_eqb (Asteroid.tier a) ORE = false ->
  (Ship.invulnerableTimer (ship w) <= 0)%Z ->
  Ship.shield (ship w) <= 0 ->
  Rgtb (relativeSpeed s' (drift a)) 2 || tier_eqb (Asteroid.tier a) VOLATILE
    = true ->
  Ship.hull (ship (update f w))
    = Ship.hull (ship w) - collisionDamage (Asteroid.tier a).
Proof.
  intros Hp Hq Hm Ha Hal Hout s' Hc Ht Hi Hs Hv.
  rewrite (update_playing _ _ Hp), ship_gameOverCheck,
    hull_tickInvulnerability.
  destruct (lone_asteroid f w a Hq Hm Ha Hal Hout)
    as (w5 & Hs5 & _ & _ & _ & _ & _ & ->).
  rewrite ship_stepParticles, ship_docking, ship_sectorCheck.
  fold s' in Hs5.
  assert (Hv5 : vitals s' = vitals (Ship.set_thrusting false (ship w)))
    by apply vitals_integrate.
  destruct (collide_damage 0 (drift a) w5) as (Hh & _).
  - rewrite Hs5. exact Hc.
  - exact Ht.
  - rewrite Hs5.
    change (Ship.invulnerableTimer s') with (v_timer (vitals s')).
    rewrite Hv5. exact Hi.
  - rewrite Hs5. exact Hv.
  - rewrite Hs5. change (Ship.shield s') with (v_shield (vitals s')).
    rewrite Hv5. exact Hs.
  - rewrite Hh, Hs5. change (Ship.hull s') with (v_hull (vitals s')).
    rewrite Hv5. reflexivity.
Qed.

Lemma distance_same p q : px p = px q -> py p = py q -> distance p q = 0.
Proof.
  intros Hx Hy. rewrite distance_on_axis by (try assumption; lra). lra.
Qed.

Lemma hull_negative_breaks_bounds w :
  Ship.hull (ship w) < 0 -> ~ shipBounds (vitals (ship w)).
Proof. intros H [Hneg _]. cbn in Hneg. lra. Qed.

(** C1, as stated, fails.  The starting ship (hull 100 of 100, no shield,
    not invulnerable) overlaps a resting VOLATILE asteroid: the bounds hold
    before the frame, and after it the hull is 100 - 150 = -50. *)
Lemma C1_hull_below_zero :
  shipBounds (vitals (ship (worldOf parked [rock VOLATILE 1000] []))) /\
  gameState (idleFrame PLAYING) = PLAYING /\
  ~ shipBounds
      (vitals (ship (update (idleFrame PLAYING)
                       (worldOf parked [rock VOLATILE 1000] [])))).
Proof.
  split; [| split; [reflexivity |]].
  - unfold shipBounds, withinCaps. cbn. repeat split; try lra; lia.
  - assert (Hh : Ship.hull (ship (update (idleFrame PLAYING)
                          (worldOf parked [rock VOLATILE 1000] []))) = 100 - 150).
    { apply (lone_hit (idleFrame PLAYING)
               (worldOf parked [rock VOLATILE 1000] []) (rock VOLATILE 1000)).
      - reflexivity.
      - apply quietInput_idle.
      - reflexivity.
      - reflexivity.
      - unfold alive, Rgtb. cbn [Asteroid.hp rock]. apply Rltb_true. lra.
      - rewrite distance_on_axis by (cbn; lra). cbn.
        unfold STATION_SHIELD_RADIUS, VOLATILE_RADIUS. lra.
      - rewrite integrate_rest by reflexivity.
        rewrite drift_rest by reflexivity.
        unfold checkCollision. rewrite distance_same by reflexivity.
        apply Rltb_true. cbn. unfold VOLATILE_RADIUS. lra.
      - reflexivity.
      - cbn. lia.
      - cbn. lra.
      - apply orb_true_r. }
    apply hull_negative_breaks_bounds. rewrite Hh. lra.
Qed.
Lemma C1_caps_preserved_witness :
  withinCaps (vitals (ship (worldOf parked [rock VOLATILE 1000] []))) /\
  withinCaps
    (vitals (ship (update (idleFrame PLAYING)
                     (worldOf parked [rock VOLATILE 1000] [])))).
Proof.
  assert (H : withinCaps
                (vitals (ship (worldOf parked [rock VOLATILE 1000] [])))).
  { unfold withinCaps. cbn. repeat split; try lra; lia. }
  split; [exact H |].
  exact (C1_caps_preserved (idleFrame PLAYING)
           (worldOf parked [rock VOLATILE 1000] []) H).
Defined.

(** ** The invulnerability timer *)

Lemma blastShip_shielded t h sh m w :
  (0 < t)%Z ->
  shielded t h sh (vitals (ship w)) ->
  shielded t h sh (vitals (ship (blastShip m w))).
Proof.
  intros Ht (Hti & Hh & Hs). unfold blastShip, shielded in *. cbv zeta.
  cbn in Hti, Hh, Hs.
  destruct (Rltb _ _); [| cbn; auto].
  cbn [Ship.invulnerableTimer Ship.set_vy Ship.set_vx].
  rewrite Hti. rewrite (proj2 (Z.leb_gt _ _) Ht). cbn. auto.
Qed.

Lemma collide_shielded t h sh i a w :
  (0 < t)%Z ->
  shielded t h sh (vitals (ship w)) ->
  shielded t h sh (vitals (ship (collide i a w))).
Proof.
  intros Ht (Hti & Hh & Hs). unfold collide, shielded, emit, putAsteroid in *.
  cbv zeta. cbn in Hti, Hh, Hs.
  destruct (checkCollision _ _ _ _); [| cbn; auto].
  destruct (tier_eqb _ ORE).
  - destruct (_ <? _)%Z; cbn; auto.
  - rewrite Hti. rewrite (proj2 (Z.leb_gt _ _) Ht). cbn. auto.
Qed.

Lemma blastShip_timer_nonneg m w :
  (0 <= v_timer (vitals (ship w)))%Z ->
  (0 <= v_timer (vitals (ship (blastShip m w))))%Z.
Proof.
  intro H. unfold blastShip, emit. cbv zeta. cbn in H.
  destruct (Rltb _ _); [| cbn; auto].
  destruct (_ <=? 0)%Z; [destruct (Rgtb _ _) |]; cbn; auto; lia.
Qed.

Lemma collide_timer_nonneg i a w :
  (0 <= v_timer (vitals (ship w)))%Z ->
  (0 <= v_timer (vitals (ship (collide i a w))))%Z.
Proof.
  intro H. unfold collide, emit, putAsteroid. cbv zeta. cbn in H.
  destruct (checkCollision _ _ _ _); [| cbn; auto].
  destruct (tier_eqb _ ORE).
  - destruct (_ <? _)%Z; cbn; auto.
  - destruct (_ <=? 0)%Z; [destruct (_ || _) |]; cbn; auto. lia.
Qed.

Lemma update_shielded f w :
  gameState f = PLAYING ->
  (0 < Ship.invulnerableTimer (ship w))%Z ->
  Ship.invulnerableTimer (ship (update f w))
    = (Ship.invulnerableTimer (ship w) - 1)%Z /\
  Ship.hull (ship (update f w)) = Ship.hull (ship w) /\
  Ship.shield (ship (update f w)) = Ship.shield (ship w).
Proof.
  intros Hp Ht. rewrite (update_playing _ _ Hp), ship_gameOverCheck.
  pose proof (frameBody_vitals
                (shielded (Ship.invulnerableTimer (ship w))
                   (Ship.hull (ship w)) (Ship.shield (ship w)))
                (fun m w0 => blastShip_shielded _ _ _ m w0 Ht)
                (fun i a w0 => collide_shielded _ _ _ i a w0 Ht)
                f w) as H.
  destruct H as (Hti & Hh & Hs); [repeat split |].
  cbn [vitals v_timer v_hull v_shield] in Hti, Hh, Hs.
  unfold tickInvulnerability. cbv zeta.
  rewrite Hti. rewrite (proj2 (Z.ltb_lt _ _) Ht). cbn.
  rewrite Hh, Hs. auto.
Qed.

Lemma update_timer_nonneg f w :
  (0 <= Ship.invulnerableTimer (ship w))%Z ->
  (0 <= Ship.invulnerableTimer (ship (update f w)))%Z.
Proof.
  intro H. unfold update. destruct (negb _); [exact H |].
  rewrite playingFrame_split, ship_gameOverCheck.
  pose proof (frameBody_vitals
                (fun v => (0 <= v_timer v)%Z)
                blastShip_timer_nonneg collide_timer_nonneg f w H) as H1.
  cbn [vitals v_timer] in H1. unfold tickInvulnerability. cbv zeta.
  destruct (_ <? _)%Z eqn:E; cbn; [| exact H1].
  apply Z.ltb_lt in E. lia.
Qed.

Lemma runFrames_shielded fs :
  forall w,
  Forall (fun f => gameState f = PLAYING) fs ->
  (Z.of_nat (List.length fs) <= Ship.invulnerableTimer (ship w))%Z ->
  Ship.invulnerableTimer (ship (runFrames fs w))
    = (Ship.invulnerableTimer (ship w) - Z.of_nat (List.length fs))%Z /\
  Ship.hull (ship (runFrames fs w)) = Ship.hull (ship w) /\
  Ship.shield (ship (runFrames fs w)) = Ship.shield (ship w).
Proof.
  induction fs as [| f fs IH]; intros w Hall Hlen.
  - cbn. repeat split. lia.
  - inversion Hall as [| ? ? Hf Hrest]; subst.
    cbn [List.length] in Hlen.
    destruct (update_shielded f w Hf) as (Ht & Hh & Hs); [lia |].
    unfold runFrames. cbn [fold_left]. fold (runFrames fs (update f w)).
    destruct (IH (update f w) Hrest) as (Ht' & Hh' & Hs').
    + rewrite Ht. lia.
    + rewrite Ht', Hh', Hs', Ht, Hh, Hs. cbn [List.length].
      repeat split. lia.
Qed.

(** C6.  With the phase PLAYING in every frame: from a timer value
    [N > 0], each of the next [k <= N] frames lowers the timer by exactly
    1, so that it reads [N - k] and reaches 0 after [N] frames, and during
    those frames neither an asteroid collision nor a mine blast changes
    the hull or the shield; and a timer that is not negative before a
    frame is not negative after it. *)
Theorem C6_invulnerability_countdown (fs : list Frame) (w : World) :
  Forall (fun f => gameState f = PLAYING) fs ->
  (0 < Ship.invulnerableTimer (ship w))%Z ->
  (Z.of_nat (List.length fs) <= Ship.invulnerableTimer (ship w))%Z ->
  Ship.invulnerableTimer (ship (runFrames fs w))
    = (Ship.invulnerableTimer (ship w) - Z.of_nat (List.length fs))%Z /\
  (0 <= Ship.invulnerableTimer (ship (runFrames fs w)))%Z /\
  Ship.hull (ship (runFrames fs w)) = Ship.hull (ship w) /\
  Ship.shield (ship (runFrames fs w)) = Ship.shield (ship w) /\
  (forall f, 0 <= Ship.invulnerableTimer (ship (update f (runFrames fs w))))%Z.
Proof.
  intros Hall Hpos Hlen.
  destruct (runFrames_shielded fs w Hall Hlen) as (Ht & Hh & Hs).
  split; [exact Ht |]. split; [lia |]. split; [exact Hh |].
  split; [exact Hs |].
  intro f. apply update_timer_nonneg. lia.
Qed.

Lemma C6_invulnerability_countdown_witness :
  Ship.invulnerableTimer
    (ship (runFrames [idleFrame PLAYING; idleFrame PLAYING]
             (worldOf (Ship.set_invulnerableTimer 60 parked)
                [rock VOLATILE 1000] []))) = 58%Z /\
  Ship.hull
    (ship (runFrames [idleFrame PLAYING; idleFrame PLAYING]
             (worldOf (Ship.set_invulnerableTimer 60 parked)
                [rock VOLATILE 1000] []))) = 100.
Proof.
  pose (w := worldOf (Ship.set_invulnerableTimer 60 parked)
               [rock VOLATILE 1000] []).
  pose (fs := [idleFrame PLAYING; idleFrame PLAYING]).
  assert (Hall : Forall (fun f => gameState f = PLAYING) fs)
    by (repeat constructor).
  assert (Hpos : (0 < Ship.invulnerableTimer (ship w))%Z) by (cbn; lia).
  assert (Hlen : (Z.of_nat (List.length fs)
                  <= Ship.invulnerableTimer (ship w))%Z) by (cbn; lia).
  destruct (C6_invulnerability_countdown fs w Hall Hpos Hlen)
    as (Ht & _ & Hh & _).
  split; [exact Ht | exact Hh].
Defined.
(** ** The log only grows *)

Lemma extends_refl w : extends w w.
Proof. exists []. reflexivity. Qed.

Lemma extends_same w0 w w' : log w' = log w -> extends w0 w -> extends w0 w'.
Proof. intros E [l H]. exists l. congruence. Qed.

Lemma extends_emit w0 e w : extends w0 w -> extends w0 (emit e w).
Proof. intros [l H]. exists (e :: l). unfold emit. cbn. rewrite H. reflexivity. Qed.

Lemma extends_trans w0 w1 w2 : extends w0 w1 -> extends w1 w2 -> extends w0 w2.
Proof.
  intros [l1 H1] [l2 H2]. exists (l2 ++ l1). rewrite H2, H1.
  apply app_assoc.
Qed.

Ltac log_same tac :=
  intros; eapply extends_same; [| eassumption]; tac; intros; reflexivity.

Lemma extends_set_ship w0 s w : extends w0 w -> extends w0 (set_ship s w).
Proof. log_same idtac. Qed.
Lemma extends_set_asteroids w0 v w :
  extends w0 w -> extends w0 (set_asteroids v w).
Proof. log_same idtac. Qed.
Lemma extends_set_mines w0 v w : extends w0 w -> extends w0 (set_mines v w).
Proof. log_same idtac. Qed.
Lemma extends_set_shake w0 v w : extends w0 w -> extends w0 (set_shake v w).
Proof. log_same idtac. Qed.
Lemma extends_set_laser w0 v w : extends w0 w -> extends w0 (set_laser v w).
Proof. log_same idtac. Qed.
Lemma extends_set_ore w0 v w :
  extends w0 w -> extends w0 (set_sectorOreCollected v w).
Proof. log_same idtac. Qed.
Lemma extends_putAsteroid w0 i a w :
  extends w0 w -> extends w0 (putAsteroid i a w).
Proof. log_same idtac. Qed.
Lemma extends_putMine w0 i m w : extends w0 w -> extends w0 (putMine i m w).
Proof. log_same idtac. Qed.
Lemma extends_spawnParticles w0 x y c n sp l w :
  extends w0 w -> extends w0 (spawnParticles x y c n sp l w).
Proof. log_same ltac:(apply (spawnParticles_keeps log)). Qed.
Lemma extends_shakeDecay w0 w : extends w0 w -> extends w0 (shakeDecay w).
Proof. log_same ltac:(apply (shakeDecay_keeps log)). Qed.
Lemma extends_cameraFollow w0 f w :
  extends w0 w -> extends w0 (cameraFollow f w).
Proof. log_same idtac. Qed.
Lemma extends_stepParticles w0 w : extends w0 w -> extends w0 (stepParticles w).
Proof. log_same idtac. Qed.
Lemma extends_puckerShip w0 m w : extends w0 w -> extends w0 (puckerShip m w).
Proof. log_same ltac:(apply (puckerShip_keeps log)). Qed.
Lemma extends_reverseThrust w0 f w :
  extends w0 w -> extends w0 (reverseThrust f w).
Proof. log_same ltac:(apply (reverseThrust_keeps log)). Qed.
Lemma extends_spaceBrake w0 f w : extends w0 w -> extends w0 (spaceBrake f w).
Proof. log_same ltac:(apply (spaceBrake_keeps log)). Qed.
Lemma extends_rotate w0 f w : extends w0 w -> extends w0 (rotate f w).
Proof. log_same ltac:(apply (rotate_keeps log)). Qed.

Lemma extends_times w0 body n :
  (forall w, extends w0 w -> extends w0 (body w)) ->
  forall w, extends w0 w -> extends w0 (times n body w).
Proof. intro Hb. apply times_inv. exact Hb. Qed.

Lemma extends_forEach w0 body n :
  (forall i w, extends w0 w -> extends w0 (body i w)) ->
  forall w, extends w0 w -> extends w0 (forEach n body w).
Proof. intro Hb. unfold forEach. apply forEachFrom_inv. exact Hb. Qed.

Lemma extends_spawnFragment w0 t a lo hi off ix iy w :
  extends w0 w -> extends w0 (spawnFragment t a lo hi off ix iy w).
Proof. log_same ltac:(apply (spawnFragment_keeps log)). Qed.

Lemma extends_suctionParticle w0 m w :
  extends w0 w -> extends w0 (suctionParticle m w).
Proof. log_same ltac:(apply (suctionParticle_keeps log)). Qed.

Lemma extends_puckerAsteroid w0 m i w :
  extends w0 w -> extends w0 (puckerAsteroid m i w).
Proof. log_same ltac:(apply (puckerAsteroid_keeps log)). Qed.

Lemma extends_tractorStep w0 i w : extends w0 w -> extends w0 (tractorStep i w).
Proof. log_same ltac:(apply (tractorStep_keeps log)). Qed.

Create HintDb ext.
#[local] Hint Resolve extends_refl extends_emit extends_set_ship
  extends_set_asteroids extends_set_mines extends_set_shake extends_set_laser
  extends_set_ore extends_putAsteroid extends_putMine extends_spawnParticles
  extends_shakeDecay extends_cameraFollow extends_stepParticles
  extends_puckerShip extends_reverseThrust extends_spaceBrake extends_rotate
  extends_spawnFragment extends_suctionParticle extends_puckerAsteroid
  extends_tractorStep : ext.

Lemma extends_breakAsteroid w0 a ix iy w :
  extends w0 w -> extends w0 (breakAsteroid a ix iy w).
Proof.
  intro H. unfold breakAsteroid. cbv zeta.
  destruct (Asteroid.tier a);
    try (apply extends_times; [intros; auto with ext |]); auto 10 with ext.
Qed.
#[local] Hint Resolve extends_breakAsteroid : ext.

Lemma extends_blastAsteroid w0 m i w :
  extends w0 w -> extends w0 (blastAsteroid m i w).
Proof.
  intro H. unfold blastAsteroid. cbv zeta.
  destruct (nth_error _ _); [| exact H].
  destruct (Rltb _ _); [| exact H].
  destruct (_ && _); auto with ext.
Qed.

Lemma extends_laserShot w0 f w : extends w0 w -> extends w0 (laserShot f w).
Proof.
  intro H. unfold laserShot. cbv zeta.
  destruct (findTarget _ _ _) as [[i |] d]; [| auto with ext].
  destruct (nth_error _ _); [| auto with ext].
  destruct (_ && _); auto 10 with ext.
Qed.

Lemma extends_miningLaser w0 f w : extends w0 w -> extends w0 (miningLaser f w).
Proof.
  intro H. unfold miningLaser. cbv zeta.
  destruct (mouse_down f); [| auto with ext].
  apply extends_set_asteroids, extends_laserShot. auto with ext.
Qed.

Lemma extends_tractorBeam w0 f w : extends w0 w -> extends w0 (tractorBeam f w).
Proof.
  intro H. unfold tractorBeam. cbv zeta.
  destruct (mouse_rightDown f); [| auto with ext].
  apply extends_forEach; [intros; auto with ext | auto with ext].
Qed.

Lemma extends_thrust w0 f w : extends w0 w -> extends w0 (thrust f w).
Proof.
  intro H. unfold thrust. cbv zeta. destruct (_ || _); auto with ext.
Qed.

Lemma extends_shipControls w0 f w :
  extends w0 w -> extends w0 (shipControls f w).
Proof.
  intro H. unfold shipControls. cbv zeta.
  apply extends_set_ship, extends_rotate, extends_spaceBrake,
    extends_reverseThrust, extends_thrust, H.
Qed.

Lemma extends_blastShip w0 m w : extends w0 w -> extends w0 (blastShip m w).
Proof.
  intro H. unfold blastShip. cbv zeta.
  destruct (Rltb _ _); [| exact H].
  destruct (_ <=? _)%Z; auto with ext.
Qed.

Lemma extends_mineStep w0 i w : extends w0 w -> extends w0 (mineStep i w).
Proof.
  intro H. unfold mineStep. destruct (nth_error _ _) as [m0 |]; [| exact H].
  cbv zeta.
  assert (Hp : forall b : bool,
             extends w0
               (if b then emit AudioPlayMinePucker
                            (putMine i (Mine.set_timer (Mine.timer m0 - 1) m0) w)
                else putMine i (Mine.set_timer (Mine.timer m0 - 1) m0) w)).
  { intros [|]; auto with ext. }
  destruct (_ && _).
  - apply extends_times; [intros; auto with ext |].
    apply extends_puckerShip.
    apply extends_forEach; [intros; auto with ext |].
    apply extends_putMine, Hp.
  - destruct (_ <=? 0)%Z; [| apply Hp].
    apply extends_blastShip.
    apply extends_forEach; [intros; apply extends_blastAsteroid; assumption |].
    repeat apply extends_spawnParticles.
    apply extends_set_shake, extends_emit, extends_putMine, Hp.
Qed.

Lemma extends_stepMines w0 w : extends w0 w -> extends w0 (stepMines w).
Proof.
  intro H. unfold stepMines. cbv zeta.
  apply extends_set_asteroids, extends_set_mines.
  apply extends_forEach; [intros; apply extends_mineStep; assumption | exact H].
Qed.

Lemma extends_collide w0 i a w : extends w0 w -> extends w0 (collide i a w).
Proof.
  intro H. unfold collide. cbv zeta.
  destruct (checkCollision _ _ _ _); [| exact H].
  destruct (tier_eqb _ ORE).
  - destruct (_ <? _)%Z; auto 10 with ext.
  - destruct (_ <=? 0)%Z; [| exact H].
    destruct (_ || _); auto 10 with ext.
Qed.

Lemma extends_moveAsteroid w0 a w :
  extends w0 w -> extends w0 (snd (moveAsteroid a w)).
Proof. log_same ltac:(apply (moveAsteroid_keeps log)). Qed.

Lemma extends_asteroidStep w0 i st :
  extends w0 (snd st) -> extends w0 (snd (asteroidStep i st)).
Proof.
  destruct st as [t w]. cbn [snd]. intro H. unfold asteroidStep.
  destruct (nth_error _ _) as [a0 |]; [| exact H].
  pose proof (extends_moveAsteroid w0 a0 w H) as Hm.
  destruct (moveAsteroid a0 w) as [a w1]. cbn [snd] in *.
  apply extends_collide, extends_putAsteroid, Hm.
Qed.

Lemma extends_sectorCheck w0 f t w :
  extends w0 w -> extends w0 (sectorCheck f t w).
Proof.
  intro H. unfold sectorCheck. cbv zeta.
  destruct (_ && _); [destruct (_ && _) |]; auto with ext.
Qed.

Lemma extends_docking w0 w : extends w0 w -> extends w0 (docking w).
Proof.
  intro H. unfold docking. cbv zeta. destruct (_ && _); auto with ext.
Qed.

Lemma extends_frameBody f w : extends w (frameBody f w).
Proof.
  rewrite frameBody_unfold. cbv zeta.
  match goal with
  | |- context [forEach ?n asteroidStep ?s] =>
      assert (Hl : extends w (snd (forEach n asteroidStep s)));
      [| destruct (forEach n asteroidStep s) as [t w6] ]
  end.
  - unfold forEach.
    apply (forEachFrom_inv (fun st => extends w (snd st))).
    + intros i s. apply extends_asteroidStep.
    + cbn [snd]. unfold beforeAsteroids, beforeMines.
      apply extends_stepMines, extends_tractorBeam, extends_miningLaser,
        extends_cameraFollow, extends_shipControls, extends_shakeDecay,
        extends_refl.
  - cbn [snd] in Hl.
    apply extends_stepParticles, extends_docking, extends_sectorCheck, Hl.
Qed.

Lemma log_tickInvulnerability w : log (tickInvulnerability w) = log w.
Proof. unfold tickInvulnerability. cbv zeta. destruct (_ <? _)%Z; reflexivity. Qed.

(** ** One animation frame of [App] *)

Lemma frameEvents_extends w w' newer :
  log w' = newer ++ log w -> frameEvents w w' = rev newer.
Proof.
  intro H. unfold frameEvents. rewrite H, length_app.
  replace (List.length newer + List.length (log w) - List.length (log w))%nat
    with (List.length newer + 0)%nat by lia.
  rewrite firstn_app_2. cbn [firstn]. rewrite app_nil_r. reflexivity.
Qed.

Lemma applyEvent_sector a e : app_sector (applyEvent a e) = app_sector a.
Proof. destruct e; reflexivity. Qed.

Lemma applyEvent_ship a e :
  ship (world (applyEvent a e)) = ship (world a).
Proof. destruct e; reflexivity. Qed.

Lemma fold_applyEvent_sector evs :
  forall a, app_sector (fold_left applyEvent evs a) = app_sector a.
Proof.
  induction evs as [| e evs IH]; intro a; cbn [fold_left].
  - reflexivity.
  - rewrite IH. apply applyEvent_sector.
Qed.

Lemma fold_applyEvent_ship evs :
  forall a, ship (world (fold_left applyEvent evs a)) = ship (world a).
Proof.
  induction evs as [| e evs IH]; intro a; cbn [fold_left].
  - reflexivity.
  - rewrite IH. apply applyEvent_ship.
Qed.

Lemma commit_gameState old a : app_gameState (commit old a) = app_gameState a.
Proof. unfold commit. destruct (_ && _); reflexivity. Qed.

Lemma commit_sector old a : app_sector (commit old a) = app_sector a.
Proof. unfold commit. destruct (_ && _); reflexivity. Qed.

Lemma GameState_eqb_eq a b : GameState_eqb a b = true <-> a = b.
Proof. destruct a, b; cbn; split; intro H; try reflexivity; discriminate. Qed.

Lemma GameState_eqb_refl a : GameState_eqb a a = true.
Proof. destruct a; reflexivity. Qed.

(** A frame that starts in PLAYING never runs [initGame]: either the
    phase is still PLAYING, and nothing is re-rendered, or it is not, and
    the reset effect only records it. *)
Lemma commit_from_playing old a :
  app_gameState old = PLAYING -> app_sector a = app_sector old ->
  ship (world (commit old a)) = ship (world a).
Proof.
  intros Hp Hs. unfold commit. rewrite Hp, Hs, Z.eqb_refl.
  destruct (app_gameState a) eqn:Hg; cbn [GameState_eqb andb];
    try reflexivity; unfold spawnResetEffect; cbn [GameState_eqb andb];
    reflexivity.
Qed.

Lemma animationFrame_ship f a :
  app_gameState a = PLAYING ->
  ship (world (animationFrame f a))
    = ship (update (withProps a f) (world a)).
Proof.
  intro Hp. unfold animationFrame. cbv zeta.
  rewrite commit_from_playing.
  - rewrite fold_applyEvent_ship. reflexivity.
  - exact Hp.
  - rewrite fold_applyEvent_sector. reflexivity.
Qed.

Lemma animationFrame_gameState f a :
  app_gameState (animationFrame f a)
  = app_gameState
      (fold_left applyEvent
         (frameEvents (world a) (update (withProps a f) (world a)))
         (mkApp (app_gameState a) (app_sector a) (sectorStats a)
            (update (withProps a f) (world a)))).
Proof. unfold animationFrame. cbv zeta. apply commit_gameState. Qed.

Lemma update_game_over_log f w :
  gameState f = PLAYING -> Ship.hull (ship (update f w)) <= 0 ->
  exists newer,
    log (update f w)
    = AudioPlayExplosion large :: SetGameState GAME_OVER :: newer ++ log w.
Proof.
  intros Hp Hh. rewrite (update_playing _ _ Hp) in *.
  rewrite ship_gameOverCheck in Hh.
  unfold gameOverCheck. rewrite (Rleb_true _ _ Hh).
  destruct (extends_frameBody f w) as [newer Hn].
  exists newer. unfold emit. cbn [log set_log].
  rewrite log_tickInvulnerability, Hn. reflexivity.
Qed.

(** Whatever else a frame asked for, [setGameState(GAME_OVER)] is the
    last phase it stores when the hull is at or below zero. *)
Lemma game_over_wins f a :
  app_gameState a = PLAYING ->
  Ship.hull (ship (world (animationFrame f a))) <= 0 ->
  app_gameState (animationFrame f a) = GAME_OVER.
Proof.
  intros Hp Hh. rewrite (animationFrame_ship _ _ Hp) in Hh.
  rewrite animationFrame_gameState.
  destruct (update_game_over_log (withProps a f) (world a) Hp Hh)
    as [newer Hl].
  rewrite (frameEvents_extends _ _
             (AudioPlayExplosion large :: SetGameState GAME_OVER :: newer) Hl).
  cbn [rev]. rewrite <- app_assoc. rewrite fold_left_app.
  reflexivity.
Qed.
(** ** Collision with a TITAN and game over *)

Ltac norm_asteroid :=
  cbv beta iota zeta delta
    [drift rock fastTitan Asteroid.set_x Asteroid.set_y Asteroid.set_vx
     Asteroid.set_vy Asteroid.set_angle Asteroid.set_hp Asteroid.id Asteroid.x
     Asteroid.y Asteroid.vx Asteroid.vy Asteroid.radius Asteroid.angle
     Asteroid.color Asteroid.tier Asteroid.hp Asteroid.rotationSpeed
     Asteroid.shape Asteroid.pos px py].

(** C10.  A quiet PLAYING frame in which the ship (hull 100 of 100, no
    shield, not invulnerable) overlaps the only asteroid, a TITAN, at
    relative speed 5, leaves the hull at 0 and the phase at GAME_OVER;
    and in any frame that starts in PLAYING, a hull at or below zero at
    the end of the frame leaves the phase at GAME_OVER, whatever other
    phase the frame stored before. *)
Theorem C10_titan_collision_game_over (f : Frame) (a : App) (t : Asteroid.t) :
  app_gameState a = PLAYING ->
  quietInput f ->
  mines (world a) = [] ->
  asteroids (world a) = [t] ->
  Asteroid.tier t = TITAN ->
  alive t = true ->
  STATION_SHIELD_RADIUS + Asteroid.radius t
    <= distance origin (Asteroid.pos t) ->
  Ship.hull (ship (world a)) = 100 ->
  Ship.maxHull (ship (world a)) = 100 ->
  Ship.shield (ship (world a)) = 0 ->
  Ship.invulnerableTimer (ship (world a)) = 0%Z ->
  checkCollision (Ship.pos (coasted (world a)))
    (Ship.radius (coasted (world a)))
    (Asteroid.pos (drift t)) (Asteroid.radius t) = true ->
  relativeSpeed (coasted (world a)) (drift t) = 5 ->
  Ship.hull (ship (world (animationFrame f a))) = 0 /\
  app_gameState (animationFrame f a) = GAME_OVER /\
  (forall f' a',
      app_gameState a' = PLAYING ->
      Ship.hull (ship (world (animationFrame f' a'))) <= 0 ->
      app_gameState (animationFrame f' a') = GAME_OVER).
Proof.
  intros Hp Hq Hm Ha Ht Hal Hout Hh Hmax Hs Hi Hc Hv.
  assert (Hhull : Ship.hull (ship (world (animationFrame f a))) = 0).
  { rewrite (animationFrame_ship _ _ Hp).
    rewrite (lone_hit (withProps a f) (world a) t); try assumption.
    - rewrite Hh, Ht. cbn. lra.
    - rewrite Ht. reflexivity.
    - lia.
    - lra.
    - fold (coasted (world a)). rewrite Hv.
      unfold Rgtb. rewrite Rltb_true by lra. reflexivity. }
  split; [exact Hhull |]. split.
  - apply game_over_wins; [exact Hp | lra].
  - intros f' a'. apply game_over_wins.
Qed.

Lemma C10_titan_collision_game_over_witness :
  Ship.hull
    (ship (world (animationFrame (idleFrame PLAYING)
                    (playing (worldOf parked [fastTitan] []))))) = 0 /\
  app_gameState
    (animationFrame (idleFrame PLAYING)
       (playing (worldOf parked [fastTitan] []))) = GAME_OVER.
Proof.
  assert (Hd : drift fastTitan
               = Asteroid.set_vx 5
                   (Asteroid.set_x (1000 + 500 / 99) (rock TITAN 1000))).
  { norm_asteroid. f_equal; lra. }
  assert (Hco : coasted (worldOf parked [fastTitan] []) = parked).
  { unfold coasted. rewrite integrate_rest by reflexivity. reflexivity. }
  destruct (C10_titan_collision_game_over (idleFrame PLAYING)
              (playing (worldOf parked [fastTitan] [])) fastTitan)
    as (H1 & H2 & _).
  - reflexivity.
  - apply quietInput_idle.
  - reflexivity.
  - reflexivity.
  - reflexivity.
  - unfold alive, Rgtb. apply Rltb_true. cbn. lra.
  - rewrite distance_on_axis by (cbn; lra). cbn.
    unfold STATION_SHIELD_RADIUS, TITAN_RADIUS. lra.
  - reflexivity.
  - reflexivity.
  - reflexivity.
  - reflexivity.
  - cbn [world playing]. rewrite Hco, Hd. unfold checkCollision.
    rewrite distance_on_axis by (cbn; lra).
    apply Rltb_true. cbn. unfold TITAN_RADIUS. lra.
  - cbn [world playing]. rewrite Hco, Hd. unfold relativeSpeed. cbn.
    replace ((0 - 5) * ((0 - 5) * 1) + (0 - 0) * ((0 - 0) * 1)) with (5 * 5)
      by ring.
    apply sqrt_square. lra.
  - split; [exact H1 | exact H2].
Defined.
(** ** Loops that rewrite one array, element by element *)

Lemma setNth_middle {A : Type} (done : list A) (v a : A) (tl : list A) :
  setNth (List.length done) v (done ++ a :: tl) = done ++ v :: tl.
Proof. induction done as [| h t IH]; simpl; [reflexivity | f_equal; exact IH]. Qed.

Lemma setNth_twice {A : Type} (i : nat) (u v : A) (l : list A) :
  setNth i v (setNth i u l) = setNth i v l.
Proof.
  revert i. induction l as [| h t IH]; intros [| i]; simpl; try reflexivity.
  f_equal. apply IH.
Qed.

Lemma nth_error_middle {A : Type} (done : list A) (a : A) (tl : list A) :
  nth_error (done ++ a :: tl) (List.length done) = Some a.
Proof. induction done as [| h t IH]; simpl; [reflexivity | exact IH]. Qed.

Section MapLoop.
Context {A B : Type} (get : World -> list A) (g : A -> A).
Context (view : World -> list B) (h : A -> list B).
Variable K : list A -> Prop.
Hypothesis K_nil : K [].
Hypothesis K_app : forall k1 k2, K k1 -> K k2 -> K (k1 ++ k2).
Variable body : nat -> World -> World.
Hypothesis body_spec :
  forall i w a, nth_error (get w) i = Some a ->
                exists kids, K kids /\
                             get (body i w) = setNth i (g a) (get w) ++ kids /\
                             view (body i w) = h a ++ view w.

Lemma forEachFrom_maps (todo : list A) :
  forall done rest w,
    get w = done ++ todo ++ rest ->
    exists kids,
      K kids /\
      get (forEachFrom (List.length todo) (List.length done) body w)
      = done ++ map g todo ++ rest ++ kids /\
      view (forEachFrom (List.length todo) (List.length done) body w)
      = List.concat (rev (map h todo)) ++ view w.
Proof.
induction todo as [| a todo IH]; intros done rest w Hw.
- exists []. split; [exact K_nil |]. cbn. rewrite app_nil_r.
  split; [exact Hw | reflexivity].
- cbn [List.length forEachFrom].
  destruct (body_spec (List.length done) w a) as (k1 & Hk1 & Hb & Hv).
  { rewrite Hw. cbn [app]. apply nth_error_middle. }
  rewrite Hw in Hb. cbn [app] in Hb. rewrite setNth_middle in Hb.
  destruct (IH (done ++ [g a]) (rest ++ k1) (body (List.length done) w))
    as (k2 & Hk2 & Hr & Hv2).
  { rewrite Hb. repeat first [progress cbn [app] | rewrite <- app_assoc].
    reflexivity. }
  exists (k1 ++ k2). split; [apply K_app; assumption |].
  rewrite length_app in Hr, Hv2. cbn [List.length] in Hr, Hv2.
  rewrite Nat.add_1_r in Hr, Hv2. rewrite Hr, Hv2, Hv. split.
  + cbn [map]. repeat first [progress cbn [app] | rewrite <- app_assoc].
    reflexivity.
  + cbn [map rev]. rewrite concat_app. cbn [List.concat].
    rewrite app_nil_r, <- app_assoc. reflexivity.
Qed.

Lemma forEach_maps (w : World) :
  exists kids,
    K kids /\
    get (forEach (List.length (get w)) body w) = map g (get w) ++ kids /\
    view (forEach (List.length (get w)) body w)
    = List.concat (rev (map h (get w))) ++ view w.
Proof.
destruct (forEachFrom_maps (get w) [] [] w) as (k & Hk & H & Hv).
- cbn. rewrite app_nil_r. reflexivity.
- exists k. split; [exact Hk |]. split; [exact H | exact Hv].
Qed.
End MapLoop.

(** *** The mines and the pucker cues after the mine loop *)

Ltac quiet_by L proj :=
  first [ apply (L _ proj isPucker) | apply (L _ proj) ];
  intros; try reflexivity.

Lemma puckers_emit_quiet e w : isPucker e = false -> puckers (emit e w) = puckers w.
Proof. intro H. unfold puckers, emit. cbn. rewrite H. reflexivity. Qed.

Lemma mines_emit e w : mines (emit e w) = mines w.
Proof. reflexivity. Qed.

Lemma mines_putMine i m w : mines (putMine i m w) = setNth i m (mines w).
Proof. reflexivity. Qed.

Lemma mines_set_shake v w : mines (set_shake v w) = mines w.
Proof. reflexivity. Qed.

Lemma mineStep_spec i w m0 :
  nth_error (mines w) i = Some m0 ->
  mines (mineStep i w) = setNth i (tickMine m0) (mines w) /\
  puckers (mineStep i w) = cueOf m0 ++ puckers w.
Proof.
  intro H. unfold mineStep, tickMine, cueOf. rewrite H. cbv zeta.
  set (m1 := Mine.set_timer (Mine.timer m0 - 1) m0).
  change (Mine.timer m1) with (Mine.timer m0 - 1)%Z.
  set (w1 := if (Mine.timer m0 - 1 =? MINE_PUCKER_DURATION)%Z
             then emit AudioPlayMinePucker (putMine i m1 w)
             else putMine i m1 w).
  assert (Hm : mines w1 = setNth i m1 (mines w))
    by (subst w1; destruct (_ =? _)%Z; reflexivity).
  assert (Hc : puckers w1
               = (if (Mine.timer m0 - 1 =? MINE_PUCKER_DURATION)%Z
                  then [AudioPlayMinePucker] else []) ++ puckers w)
    by (subst w1; destruct (_ =? _)%Z; reflexivity).
  destruct (_ && _).
  - split.
    + rewrite (times_keeps mines)
        by (intros; quiet_by (@suctionParticle_keeps) mines).
      rewrite (puckerShip_keeps mines) by (intros; reflexivity).
      unfold forEach.
      rewrite (forEachFrom_keeps mines)
        by (intros; quiet_by (@puckerAsteroid_keeps) mines).
      rewrite mines_putMine, Hm. apply setNth_twice.
    + rewrite (times_keeps puckers)
        by (intros; quiet_by (@suctionParticle_keeps) puckers).
      rewrite (puckerShip_keeps puckers) by (intros; reflexivity).
      unfold forEach.
      rewrite (forEachFrom_keeps puckers)
        by (intros; quiet_by (@puckerAsteroid_keeps) puckers).
      exact Hc.
  - destruct (_ <=? 0)%Z.
    + split.
      * rewrite (blastShip_keeps mines (fun _ => false))
          by (intros; reflexivity).
        unfold forEach.
        rewrite (forEachFrom_keeps mines)
          by (intros; apply (blastAsteroid_keeps mines (fun _ => false));
              intros; reflexivity).
        rewrite !(spawnParticles_keeps mines) by (intros; reflexivity).
        rewrite mines_set_shake, mines_emit, mines_putMine, Hm.
        apply setNth_twice.
      * rewrite (blastShip_keeps puckers isPucker);
          [| intros; reflexivity | apply puckers_emit_quiet | reflexivity ].
        unfold forEach.
        rewrite (forEachFrom_keeps puckers)
          by (intros; apply (blastAsteroid_keeps puckers isPucker);
              intros; try reflexivity; apply puckers_emit_quiet; assumption).
        rewrite !(spawnParticles_keeps puckers) by (intros; reflexivity).
        exact Hc.
    + split; [exact Hm | exact Hc].
Qed.

Ltac keeps_mines L :=
  first [ apply (L _ mines (fun _ : Event => false)) | apply (L _ mines) ];
  intros; reflexivity.

Ltac keeps_puckers L :=
  first [ apply (L _ puckers isPucker) | apply (L _ puckers) ];
  intros; first [ reflexivity | apply puckers_emit_quiet; assumption ].

Lemma stepMines_spec w :
  mines (stepMines w)
  = filter (fun m => negb (detonating m)) (map tickMine (mines w)) /\
  puckers (stepMines w)
  = List.concat (rev (map cueOf (mines w))) ++ puckers w.
Proof.
  unfold stepMines. cbv zeta.
  destruct (forEach_maps mines tickMine puckers cueOf (fun k => k = [])
              eq_refl
              (fun k1 k2 H1 H2 => eq_trans (f_equal2 (@app _) H1 H2) eq_refl)
              mineStep) with (w := w) as (k & Hk & H & Hv).
  - intros i w0 a Ha. exists []. split; [reflexivity |].
    rewrite app_nil_r. apply mineStep_spec. exact Ha.
  - subst k. rewrite app_nil_r in H. split.
    + cbn [mines set_asteroids set_mines]. rewrite H. reflexivity.
    + exact Hv.
Qed.

Lemma update_mines f w :
  gameState f = PLAYING ->
  mines (update f w)
  = filter (fun m => negb (detonating m)) (map tickMine (mines w)) /\
  puckers (update f w)
  = List.concat (rev (map cueOf (mines w))) ++ puckers w.
Proof.
  intro Hp. rewrite (update_playing _ _ Hp), frameBody_split.
  destruct (stepMines_spec (beforeMines f w)) as (Hm & Hc).
  assert (Hbm : mines (beforeMines f w) = mines w)
    by (apply (beforeMines_keeps mines (fun _ => false)); intros; reflexivity).
  rewrite Hbm in Hm, Hc.
  split.
  - rewrite (endOfFrame_keeps mines (fun _ => false)),
      (afterMines_keeps mines (fun _ => false)), Hm;
      intros; try reflexivity.
  - rewrite (endOfFrame_keeps puckers isPucker),
      (afterMines_keeps puckers isPucker), Hc,
      (beforeMines_keeps puckers isPucker);
      intros; try first [ reflexivity | apply puckers_emit_quiet; assumption ].
Qed.

Lemma tickMine_armed m :
  (MINE_PUCKER_DURATION <= Mine.timer m - 1)%Z ->
  tickMine m = Mine.set_timer (Mine.timer m - 1) m.
Proof.
  intro H. unfold tickMine, MINE_PUCKER_DURATION in *. cbv zeta.
  cbn [Mine.timer Mine.set_timer].
  replace (Mine.timer m - 1 <? 60)%Z with false
    by (symmetry; apply Z.ltb_ge; lia).
  rewrite andb_false_r.
  replace (Mine.timer m - 1 <=? 0)%Z with false
    by (symmetry; apply Z.leb_gt; lia).
  reflexivity.
Qed.

Lemma tickMine_pucker m :
  (0 < Mine.timer m - 1 < MINE_PUCKER_DURATION)%Z ->
  tickMine m = Mine.set_state PUCKER (Mine.set_timer (Mine.timer m - 1) m).
Proof.
  intro H. unfold tickMine, MINE_PUCKER_DURATION in *. cbv zeta.
  cbn [Mine.timer Mine.set_timer].
  replace (0 <? Mine.timer m - 1)%Z with true
    by (symmetry; apply Z.ltb_lt; lia).
  replace (Mine.timer m - 1 <? 60)%Z with true
    by (symmetry; apply Z.ltb_lt; lia).
  reflexivity.
Qed.

Lemma tickMine_detonate m :
  (Mine.timer m - 1 <= 0)%Z ->
  tickMine m = Mine.set_state DETONATING (Mine.set_timer (Mine.timer m - 1) m).
Proof.
  intro H. unfold tickMine, MINE_PUCKER_DURATION in *. cbv zeta.
  cbn [Mine.timer Mine.set_timer].
  replace (0 <? Mine.timer m - 1)%Z with false
    by (symmetry; apply Z.ltb_ge; lia).
  cbn [andb].
  replace (Mine.timer m - 1 <=? 0)%Z with true
    by (symmetry; apply Z.leb_le; lia).
  reflexivity.
Qed.

Lemma keep_not_detonating m :
  Mine.state m <> DETONATING ->
  filter (fun m => negb (detonating m)) [m] = [m].
Proof.
  intro H. cbn [filter]. unfold detonating.
  destruct (Mine.state m); try contradiction; reflexivity.
Qed.

(** C7, evaluated where it fails.  A lone mine that is ARMED with 61
    frames left: in the frame that brings its timer to 60 the pucker cue
    is played once and the mine is still ARMED; its state becomes PUCKER
    in the following frame, when the timer reads 59, without another
    cue. *)
Theorem C7_cue_one_frame_before_pucker (f f' : Frame) (w : World) (m : Mine.t) :
  gameState f = PLAYING -> gameState f' = PLAYING ->
  mines w = [m] -> Mine.timer m = 61%Z -> Mine.state m = ARMED ->
  mines (update f w) = [Mine.set_timer 60 m] /\
  Mine.state (Mine.set_timer 60 m) = ARMED /\
  puckers (update f w) = AudioPlayMinePucker :: puckers w /\
  mines (update f' (update f w))
    = [Mine.set_state PUCKER (Mine.set_timer 59 m)] /\
  puckers (update f' (update f w)) = AudioPlayMinePucker :: puckers w.
Proof.
  intros Hp Hp' Hm Ht Hs.
  destruct (update_mines f w Hp) as (H1 & H2).
  rewrite Hm in H1, H2. cbn [map rev List.concat app] in H1, H2.
  rewrite tickMine_armed in H1 by (rewrite Ht; unfold MINE_PUCKER_DURATION; lia).
  rewrite Ht in H1. change (61 - 1)%Z with 60%Z in H1.
  rewrite keep_not_detonating in H1 by (cbn; rewrite Hs; discriminate).
  unfold cueOf in H2. rewrite Ht in H2. cbn in H2.
  destruct (update_mines f' (update f w) Hp') as (H3 & H4).
  rewrite H1 in H3, H4. cbn [map rev List.concat app] in H3, H4.
  rewrite tickMine_pucker in H3 by (cbn; unfold MINE_PUCKER_DURATION; lia).
  rewrite keep_not_detonating in H3 by (cbn; discriminate).
  unfold cueOf in H4. cbn in H4.
  split; [exact H1 |]. split; [exact Hs |]. split; [exact H2 |].
  split; [exact H3 |]. rewrite H4, H2. reflexivity.
Qed.

Lemma C7_cue_one_frame_before_pucker_witness :
  mines (update (idleFrame PLAYING) (worldOf parked [] [mineAt 61]))
    = [mineAt 60] /\
  puckers (update (idleFrame PLAYING) (worldOf parked [] [mineAt 61]))
    = [AudioPlayMinePucker] /\
  mines (update (idleFrame PLAYING)
           (update (idleFrame PLAYING) (worldOf parked [] [mineAt 61])))
    = [Mine.set_state PUCKER (mineAt 59)].
Proof.
  destruct (C7_cue_one_frame_before_pucker (idleFrame PLAYING)
              (idleFrame PLAYING) (worldOf parked [] [mineAt 61]) (mineAt 61)
              eq_refl eq_refl eq_refl eq_refl eq_refl)
    as (H1 & _ & H2 & H3 & _).
  split; [exact H1 |]. split; [exact H2 | exact H3].
Defined.

(** The frame in which the timer reaches 0 purges the mine. *)
Lemma mine_purged_on_detonation f w m :
  gameState f = PLAYING -> mines w = [m] -> (Mine.timer m <= 1)%Z ->
  mines (update f w) = [].
Proof.
  intros Hp Hm Ht. destruct (update_mines f w Hp) as (H1 & _).
  rewrite Hm in H1. cbn [map] in H1.
  rewrite tickMine_detonate in H1 by lia. exact H1.
Qed.
(** ** Fragmentation *)

Ltac draw_asteroids :=
  match goal with
  | |- context [random ?w] =>
      let H := fresh "Hk" in
      pose proof (random_keeps asteroids (fun _ _ => eq_refl) w) as H;
      destruct (random w) as [? ?]; cbn [snd] in H
  | |- context [randomRange ?a ?b ?w] =>
      let H := fresh "Hk" in
      pose proof (randomRange_keeps asteroids (fun _ _ => eq_refl) a b w) as H;
      destruct (randomRange a b w) as [? ?]; cbn [snd] in H
  | |- context [generatePolygonOffsets ?n ?v ?w] =>
      let H := fresh "Hk" in
      pose proof (generatePolygonOffsets_keeps asteroids (fun _ _ => eq_refl)
                    n v w) as H;
      destruct (generatePolygonOffsets n v w) as [? ?]; cbn [snd] in H
  end.

Lemma spawnAsteroid_appends t x y vx vy w :
  exists k, freshOf t k /\
            asteroids (spawnAsteroid t x y vx vy w) = asteroids w ++ [k].
Proof.
  unfold spawnAsteroid. repeat draw_asteroids.
  eexists. split; [| cbn [asteroids set_asteroids]; f_equal; congruence].
  unfold freshOf, alive, Rgtb. cbn [Asteroid.tier Asteroid.hp].
  split; [reflexivity |]. apply Rltb_true. destruct t; lra.
Qed.

Lemma spawnFragment_appends t a lo hi off ix iy w :
  exists k, freshOf t k /\
            asteroids (spawnFragment t a lo hi off ix iy w)
            = asteroids w ++ [k].
Proof.
  unfold spawnFragment. repeat draw_asteroids.
  match goal with
  | |- context [spawnAsteroid ?t ?x ?y ?vx ?vy ?w] =>
      destruct (spawnAsteroid_appends t x y vx vy w) as (k & Hf & Hsp)
  end.
  exists k. split; [exact Hf |]. rewrite Hsp. f_equal. congruence.
Qed.

Lemma times_spawnFragment_appends t a lo hi off ix iy n :
  forall w,
  exists kids, List.length kids = n /\ Forall (freshOf t) kids /\
               asteroids (times n (spawnFragment t a lo hi off ix iy) w)
               = asteroids w ++ kids.
Proof.
  induction n as [| n IH]; intro w; cbn [times].
  - exists []. repeat split; [constructor | symmetry; apply app_nil_r].
  - destruct (spawnFragment_appends t a lo hi off ix iy w) as (k & Hf & Hk).
    destruct (IH (spawnFragment t a lo hi off ix iy w)) as (ks & Hl & Hall & Hks).
    exists (k :: ks). split; [cbn; lia |]. split; [constructor; assumption |].
    rewrite Hks, Hk, <- app_assoc. reflexivity.
Qed.

Lemma asteroids_emit e w : asteroids (emit e w) = asteroids w.
Proof. reflexivity. Qed.

Lemma asteroids_set_shake v w : asteroids (set_shake v w) = asteroids w.
Proof. reflexivity. Qed.

Lemma breakAsteroid_spawns a ix iy w :
  exists kids,
    List.length kids = fragmentCount (Asteroid.tier a) /\
    Forall (freshOf (fragmentTier (Asteroid.tier a))) kids /\
    asteroids (breakAsteroid a ix iy w) = asteroids w ++ kids.
Proof.
  unfold breakAsteroid. cbv zeta.
  assert (Hpre : forall w', asteroids w' = asteroids w ->
            forall t lo hi off n,
            exists kids, List.length kids = n /\ Forall (freshOf t) kids /\
              asteroids (times n (spawnFragment t a lo hi off ix iy) w')
              = asteroids w ++ kids).
  { intros w' Hw' t lo hi off n.
    destruct (times_spawnFragment_appends t a lo hi off ix iy n w')
      as (ks & H1 & H2 & H3).
    exists ks. rewrite H3, Hw'. auto. }
  assert (Hdust : asteroids (spawnParticles (Asteroid.x a) (Asteroid.y a)
                               (Asteroid.color a) 8 2 25
                               (emit (TraceBreak a) w)) = asteroids w).
  { rewrite (spawnParticles_keeps asteroids) by (intros; reflexivity).
    reflexivity. }
  destruct (Asteroid.tier a); cbn [fragmentCount fragmentTier].
  - apply Hpre. rewrite asteroids_emit. exact Hdust.
  - apply Hpre. rewrite asteroids_emit. exact Hdust.
  - exists []. split; [reflexivity |]. split; [constructor |].
    rewrite app_nil_r. exact Hdust.
  - apply Hpre. rewrite asteroids_set_shake, asteroids_emit. exact Hdust.
Qed.

Lemma log_emit e w : log (emit e w) = e :: log w.
Proof. reflexivity. Qed.

Lemma log_set_shake v w : log (set_shake v w) = log w.
Proof. reflexivity. Qed.

Lemma log_breakAsteroid a ix iy w :
  exists cues, Forall (fun e => exists sz, e = AudioPlayExplosion sz) cues /\
               log (breakAsteroid a ix iy w) = cues ++ TraceBreak a :: log w.
Proof.
  unfold breakAsteroid. cbv zeta.
  assert (Hs : log (spawnParticles (Asteroid.x a) (Asteroid.y a)
                      (Asteroid.color a) 8 2 25 (emit (TraceBreak a) w))
               = TraceBreak a :: log w).
  { rewrite (spawnParticles_keeps log) by (intros; reflexivity).
    apply log_emit. }
  destruct (Asteroid.tier a).
  - exists [AudioPlayExplosion large]. split; [repeat constructor; eauto |].
    rewrite (times_keeps log)
      by (intro; apply (spawnFragment_keeps log); intros; reflexivity).
    rewrite log_emit, Hs. reflexivity.
  - exists [AudioPlayExplosion small]. split; [repeat constructor; eauto |].
    rewrite (times_keeps log)
      by (intro; apply (spawnFragment_keeps log); intros; reflexivity).
    rewrite log_emit, Hs. reflexivity.
  - exists []. split; [constructor |]. exact Hs.
  - exists [AudioPlayExplosion large]. split; [repeat constructor; eauto |].
    rewrite (times_keeps log)
      by (intro; apply (spawnFragment_keeps log); intros; reflexivity).
    rewrite log_set_shake, log_emit, Hs. reflexivity.
Qed.





(** ** [Math.atan2] gives the direction of a vector *)



(** ** The blast of a mine on the asteroids *)

Lemma setNth_same {A : Type} (i : nat) (a : A) (l : list A) :
  nth_error l i = Some a -> setNth i a l = l.
Proof.
  revert i. induction l as [| h t IH]; intros [| i] H; cbn in *;
    try discriminate; try reflexivity.
  - injection H as ->. reflexivity.
  - f_equal. apply IH. exact H.
Qed.

Lemma fresh_is_fragment t k :
  freshOf (fragmentTier t) k -> fragment k.
Proof.
  intros [Ht Ha]. split; [| exact Ha]. rewrite Ht. destruct t; reflexivity.
Qed.

Lemma breakAsteroid_fragments a ix iy w :
  exists kids, Forall fragment kids /\
               asteroids (breakAsteroid a ix iy w) = asteroids w ++ kids.
Proof.
  destruct (breakAsteroid_spawns a ix iy w) as (kids & _ & Hf & H).
  exists kids. split; [| exact H].
  eapply Forall_impl; [| exact Hf]. intro k. apply fresh_is_fragment.
Qed.

Lemma blastAsteroid_spec m i w a :
  nth_error (asteroids w) i = Some a ->
  exists kids, Forall fragment kids /\
               asteroids (blastAsteroid m i w)
               = setNth i (blastHit m a) (asteroids w) ++ kids.
Proof.
  intro H. unfold blastAsteroid, blastHit, mineDistance, blastAngle, blastForce.
  rewrite H. cbv zeta.
  destruct (Rltb _ MINE_BLAST_RADIUS).
  - match goal with
    | |- context [putAsteroid i ?a3 w] => set (hit := a3)
    end.
    match goal with
    | |- context [setNth i ?a3' (asteroids w)] =>
        assert (Hhit : hit = a3')
          by (subst hit; cbn [Asteroid.tier Asteroid.set_vx Asteroid.set_vy];
              destruct (Asteroid.tier a); reflexivity)
    end.
    rewrite <- Hhit.
    destruct (_ && _).
    + destruct (breakAsteroid_fragments hit
                  (cos (atan2 (Asteroid.y a - Mine.y m)
                          (Asteroid.x a - Mine.x m))
                   * (MINE_BLAST_FORCE
                      * (1 - distance (Mine.pos m) (Asteroid.pos a)
                             / MINE_BLAST_RADIUS)))
                  (sin (atan2 (Asteroid.y a - Mine.y m)
                          (Asteroid.x a - Mine.x m))
                   * (MINE_BLAST_FORCE
                      * (1 - distance (Mine.pos m) (Asteroid.pos a)
                             / MINE_BLAST_RADIUS)))
                  (putAsteroid i hit w)) as (kids & Hk & Hb).
      exists kids. split; [exact Hk |]. rewrite Hb. reflexivity.
    + exists []. split; [constructor |]. rewrite app_nil_r. reflexivity.
  - exists []. split; [constructor |]. rewrite app_nil_r.
    symmetry. apply setNth_same. exact H.
Qed.

Lemma blast_loop m w :
  exists kids,
    Forall fragment kids /\
    asteroids (forEach (List.length (asteroids w)) (blastAsteroid m) w)
    = map (blastHit m) (asteroids w) ++ kids.
Proof.
  destruct (forEach_maps asteroids (blastHit m) (fun _ : World => @nil unit)
              (fun _ => []) (Forall fragment) (Forall_nil _)
              (fun k1 k2 H1 H2 => proj2 (Forall_app _ _ _) (conj H1 H2))
              (blastAsteroid m)) with (w := w) as (kids & Hk & H & _).
  - intros i w0 a Ha.
    destruct (blastAsteroid_spec m i w0 a Ha) as (kids & Hk & H).
    exists kids. repeat split; assumption.
  - exists kids. split; assumption.
Qed.

Lemma blastHit_position_only m m' a :
  Mine.x m = Mine.x m' -> Mine.y m = Mine.y m' ->
  blastHit m a = blastHit m' a.
Proof.
  intros Hx Hy.
  unfold blastHit, mineDistance, blastAngle, Mine.pos. rewrite Hx, Hy.
  reflexivity.
Qed.

Lemma asteroids_blastShip m w : asteroids (blastShip m w) = asteroids w.
Proof.
  apply (blastShip_keeps asteroids (fun _ => false)); intros; reflexivity.
Qed.

(** The detonation branch of [mineStep] applies [blastHit] once to each
    asteroid that was in the array when the blast loop started. *)
Lemma mineStep_detonation i w m0 :
  nth_error (mines w) i = Some m0 -> (Mine.timer m0 - 1 <= 0)%Z ->
  exists kids,
    Forall fragment kids /\
    asteroids (mineStep i w) = map (blastHit m0) (asteroids w) ++ kids.
Proof.
  intros H Ht. unfold mineStep. rewrite H. cbv zeta.
  cbn [Mine.timer Mine.set_timer].
  replace (0 <? Mine.timer m0 - 1)%Z with false
    by (symmetry; apply Z.ltb_ge; lia).
  cbn [andb]. rewrite (proj2 (Z.leb_le _ _) Ht).
  rewrite asteroids_blastShip.
  match goal with
  | |- context [forEach _ (blastAsteroid ?m') ?w'] =>
      destruct (blast_loop m' w') as (kids & Hk & Hl);
      assert (Hw : asteroids w' = asteroids w)
  end.
  { rewrite !(spawnParticles_keeps asteroids) by (intros; reflexivity).
    destruct (_ =? _)%Z; reflexivity. }
  exists kids. split; [exact Hk |]. rewrite Hl, Hw.
  f_equal; try apply map_ext;
    try (intro a; apply blastHit_position_only; reflexivity).
Qed.



Lemma blastHit_inside m a :
  mineDistance m a < MINE_BLAST_RADIUS ->
  Asteroid.vx (blastHit m a)
    = Asteroid.vx a + cos (blastAngle m a) * blastForce (mineDistance m a) /\
  Asteroid.vy (blastHit m a)
    = Asteroid.vy a + sin (blastAngle m a) * blastForce (mineDistance m a) /\
  Asteroid.hp (blastHit m a)
    = match Asteroid.tier a with
      | TITAN | VOLATILE => 0
      | CHUNK => Asteroid.hp a - 100
      | ORE => Asteroid.hp a
      end /\
  Asteroid.tier (blastHit m a) = Asteroid.tier a /\
  Asteroid.x (blastHit m a) = Asteroid.x a /\
  Asteroid.y (blastHit m a) = Asteroid.y a.
Proof.
  intro H. unfold blastHit. rewrite (Rltb_true _ _ H). cbv zeta.
  destruct (Asteroid.tier a) eqn:Ht; cbn; rewrite ?Ht; repeat split.
Qed.





(** ** The angle wrap of the laser cone runs to completion *)

Lemma whileAbove_le fuel :
  forall a, a - PI * 2 * INR fuel <= PI -> whileAbove fuel a <= PI.
Proof.
  induction fuel as [| k IH]; intros a H.
  - cbn in *. lra.
  - cbn [whileAbove]. unfold Rgtb.
    destruct (Rltb PI a) eqn:E.
    + apply IH. rewrite S_INR in H. lra.
    + apply Rltb_false_iff in E. exact E.
Qed.

Lemma whileAbove_floor fuel :
  forall a, - PI <= a -> - PI <= whileAbove fuel a.
Proof.
  induction fuel as [| k IH]; intros a H; cbn [whileAbove]; [exact H |].
  unfold Rgtb. destruct (Rltb PI a) eqn:E; [| exact H].
  apply Rltb_spec in E. apply IH. lra.
Qed.

Lemma whileAbove_stays_low fuel :
  forall a, a <= PI -> whileAbove fuel a = a.
Proof.
  intros a H. destruct fuel; cbn [whileAbove]; [reflexivity |].
  unfold Rgtb. rewrite Rltb_false by exact H. reflexivity.
Qed.

Lemma whileBelow_ge fuel :
  forall a, - PI <= a + PI * 2 * INR fuel -> - PI <= whileBelow fuel a.
Proof.
  induction fuel as [| k IH]; intros a H.
  - cbn in *. lra.
  - cbn [whileBelow].
    destruct (Rltb a (- PI)) eqn:E.
    + apply IH. rewrite S_INR in H. lra.
    + apply Rltb_false_iff in E. exact E.
Qed.

Lemma whileBelow_le fuel :
  forall a, a <= PI -> whileBelow fuel a <= PI.
Proof.
  induction fuel as [| k IH]; intros a H; cbn [whileBelow]; [exact H |].
  destruct (Rltb a (- PI)) eqn:E; [| exact H].
  apply Rltb_spec in E. apply IH. lra.
Qed.

Lemma whileBelow_stays fuel :
  forall a, - PI <= a -> whileBelow fuel a = a.
Proof.
  intros a H. destruct fuel; cbn [whileBelow]; [reflexivity |].
  rewrite Rltb_false by exact H. reflexivity.
Qed.

Lemma roundsFor_enough a : a - PI * 2 * INR (roundsFor a) <= PI.
Proof.
  pose proof PI_RGT_0 as Hpi.
  destruct (Rle_dec a PI) as [Hle | Hgt].
  - pose proof (pos_INR (roundsFor a)). nra.
  - assert (Ha : PI < a) by lra.
    unfold roundsFor.
    destruct (archimed (a / (PI * 2))) as [Hup _].
    assert (Hq : 0 < a / (PI * 2)) by (apply Rdiv_lt_0_compat; lra).
    assert (Hz : (0 < up (a / (PI * 2)))%Z).
    { apply lt_IZR. lra. }
    rewrite INR_IZR_INZ, Z2Nat.id by lia.
    assert (a < IZR (up (a / (PI * 2))) * (PI * 2)).
    { apply (Rmult_lt_compat_r (PI * 2)) in Hup; [| lra].
      unfold Rdiv in Hup. rewrite Rmult_assoc, Rinv_l, Rmult_1_r in Hup by lra.
      exact Hup. }
    lra.
Qed.

(** The two [while] loops of the cone test end with the angle between
    [-PI] and [PI]; an angle already there is left alone. *)
Lemma wrapAngle_range a : - PI <= wrapAngle a <= PI.
Proof.
  unfold wrapAngle. cbv zeta.
  pose proof (whileAbove_le (roundsFor a) a (roundsFor_enough a)) as H1.
  split.
  - apply whileBelow_ge.
    pose proof (roundsFor_enough (- whileAbove (roundsFor a) a)). lra.
  - apply whileBelow_le. exact H1.
Qed.

Lemma wrapAngle_id a : - PI <= a <= PI -> wrapAngle a = a.
Proof.
  intros [H1 H2]. unfold wrapAngle. cbv zeta.
  rewrite whileAbove_stays_low by exact H2.
  apply whileBelow_stays. exact H1.
Qed.
(** ** The mining laser *)

Lemma laserShot_spec f w :
  match fst (findTarget (ship w) (aimAngleOf f) (asteroids w)) with
  | Some i =>
      exists a kids,
        nth_error (asteroids w) i = Some a /\
        Forall fragment kids /\
        asteroids (laserShot f w)
        = setNth i (lasered (upgrades w) a) (asteroids w) ++ kids
  | None => asteroids (laserShot f w) = asteroids w
  end.
Proof.
  unfold laserShot. cbv zeta. cbn [asteroids set_laser upgrades].
  destruct (findTarget _ _ _) as [[i |] d] eqn:Hf; cbn [fst]; [| reflexivity].
  destruct (findTarget_some _ _ _ _ _ Hf) as (a & Ha & _).
  rewrite Ha. exists a.
  destruct (_ && _).
  - match goal with
    | |- context [breakAsteroid ?b ?ix ?iy ?w'] =>
        destruct (breakAsteroid_fragments b ix iy w') as (kids & Hk & Hb)
    end.
    exists kids. split; [reflexivity |]. split; [exact Hk |].
    rewrite Hb. rewrite (spawnParticles_keeps asteroids) by (intros; reflexivity).
    reflexivity.
  - exists []. split; [reflexivity |]. split; [constructor |].
    rewrite app_nil_r.
    rewrite (spawnParticles_keeps asteroids) by (intros; reflexivity).
    reflexivity.
Qed.

Lemma miningLaser_on f w :
  mouse_down f = true ->
  exists w1,
    ship w1 = ship w /\ asteroids w1 = asteroids w /\
    upgrades w1 = upgrades w /\
    asteroids (miningLaser f w) = filter alive (asteroids (laserShot f w1)).
Proof.
  intro H. unfold miningLaser. rewrite H. cbv zeta.
  exists (emit (AudioSetLaser true)
            (set_laser {| active := false; laser_x := laser_x (laser w);
                          laser_y := laser_y (laser w);
                          laser_length := laser_length (laser w);
                          laser_angle := laser_angle (laser w) |} w)).
  repeat split.
Qed.

(** C5 (amended).  With the laser held, the asteroid array the laser
    leaves is the old one with at most one entry changed, filtered by
    [hp > 0].  Candidates are the asteroids that are not TITAN, VOLATILE or
    ORE, lie within [LASER_RANGE + radius] of the ship and bear less than
    0.2 rad off the aim.  If some candidate has its centre closer than
    [LASER_RANGE], the damaged entry is the nearest candidate, the first
    such in the array if several are equally near: its hit points drop by
    the laser power, and the fragments of its destruction, if any, follow
    the array.  If every candidate has its centre at [LASER_RANGE] or
    farther, no entry is changed. *)
Theorem C5_laser_hits_nearest_in_range (f : Frame) (w : World) :
  mouse_down f = true ->
  (exists i a kids,
      nth_error (asteroids w) i = Some a /\
      candidate (ship w) (aimAngleOf f) a = true /\
      shipDistance (ship w) a < LASER_RANGE /\
      (forall j b, nth_error (asteroids w) j = Some b ->
                   candidate (ship w) (aimAngleOf f) b = true ->
                   shipDistance (ship w) a <= shipDistance (ship w) b) /\
      (forall j b, (j < i)%nat -> nth_error (asteroids w) j = Some b ->
                   candidate (ship w) (aimAngleOf f) b = true ->
                   shipDistance (ship w) a < shipDistance (ship w) b) /\
      Forall fragment kids /\
      asteroids (miningLaser f w)
      = filter alive (setNth i (lasered (upgrades w) a) (asteroids w) ++ kids))
  \/
  ((forall b, In b (asteroids w) ->
              candidate (ship w) (aimAngleOf f) b = true ->
              LASER_RANGE <= shipDistance (ship w) b) /\
   asteroids (miningLaser f w) = filter alive (asteroids w)).
Proof.
  intro Hd.
  destruct (miningLaser_on f w Hd) as (w1 & Hs & Ha & Hu & Hm).
  pose proof (laserShot_spec f w1) as Hshot.
  pose proof (findTarget_inv (ship w1) (aimAngleOf f) (asteroids w1)) as Hinv.
  rewrite Hs, Ha in Hshot, Hinv. rewrite Hu in Hshot.
  unfold targetInv in Hinv.
  destruct (fst (findTarget (ship w) (aimAngleOf f) (asteroids w)))
    as [i |].
  - left.
    destruct Hinv as (a & Hnth & _ & Hc & _ & Hr & Hmin & Hfirst).
    destruct Hshot as (a' & kids & Hnth' & Hk & Hsh).
    assert (a' = a) by congruence. subst a'.
    exists i, a, kids.
    split; [exact Hnth |]. split; [exact Hc |]. split; [exact Hr |].
    split.
    { intros j b Hb Hcb. apply (Hmin j b); try assumption.
      apply nth_error_Some. congruence. }
    split; [exact Hfirst |]. split; [exact Hk |].
    rewrite Hm, Hsh. reflexivity.
  - right. destruct Hinv as (_ & Hnone). split.
    + intros b Hin Hcb. apply In_nth_error in Hin. destruct Hin as [j Hj].
      apply (Hnone j b); try assumption. apply nth_error_Some. congruence.
    + rewrite Hm, Hshot. reflexivity.
Qed.

Lemma atan2_on_axis x : 0 < x -> atan2 0 x = 0.
Proof.
  intro H. unfold atan2. destruct (Rlt_dec 0 x); [| lra].
  unfold Rdiv. rewrite Rmult_0_l. apply atan_0.
Qed.

Lemma aimAngleOf_firingFrame : aimAngleOf firingFrame = 0.
Proof.
  cbv beta iota zeta delta
    [aimAngleOf firingFrame screen_width screen_height mouse_x mouse_y].
  replace (500 - 800 / 2) with 100 by lra.
  replace (300 - 600 / 2) with 0 by lra.
  apply atan2_on_axis. lra.
Qed.

Lemma bearingOff_ahead s a :
  Asteroid.y a = Ship.y s -> Ship.x s < Asteroid.x a ->
  bearingOff s 0 a = 0.
Proof.
  intros Hy Hx. unfold bearingOff. cbv zeta.
  rewrite Hy. replace (Ship.y s - Ship.y s) with 0 by ring.
  rewrite atan2_on_axis by lra.
  replace (0 - 0) with 0 by ring.
  rewrite wrapAngle_id by (pose proof PI_RGT_0; lra).
  apply Rabs_R0.
Qed.

Lemma lone_beyond_range f w a :
  mouse_down f = true -> asteroids w = [a] ->
  LASER_RANGE <= shipDistance (ship w) a -> alive a = true ->
  asteroids (miningLaser f w) = [a].
Proof.
  intros Hd Hw Hfar Halive.
  destruct (miningLaser_on f w Hd) as (w1 & Hs & Ha & Hu & Hm).
  pose proof (laserShot_spec f w1) as Hshot.
  pose proof (findTarget_inv (ship w1) (aimAngleOf f) (asteroids w1)) as Hinv.
  rewrite Hs, Ha, Hw in Hshot, Hinv.
  unfold targetInv in Hinv.
  destruct (fst (findTarget (ship w) (aimAngleOf f) [a])) as [i |].
  - destruct Hinv as (a' & Hnth & Hi & _ & _ & Hr & _).
    cbn [List.length] in Hi.
    assert (i = 0%nat) by lia. subst i. cbn in Hnth.
    injection Hnth as <-. lra.
  - rewrite Hm, Hshot. cbn [filter]. rewrite Halive. reflexivity.
Qed.

(** C5, as worded, fails: a lone CHUNK 260 units straight ahead of the
    ship, radius 25, is within [LASER_RANGE + radius] = 275 and dead on the
    aim, hence a candidate and the nearest one; the laser is held, and the
    asteroid keeps all its hit points. *)
Lemma C5_candidate_beyond_range_untouched :
  mouse_down firingFrame = true /\
  candidate parked (aimAngleOf firingFrame) (rock CHUNK 1260) = true /\
  asteroids (miningLaser firingFrame (worldOf parked [rock CHUNK 1260] []))
  = [rock CHUNK 1260].
Proof.
  assert (Hdist : shipDistance parked (rock CHUNK 1260) = 260).
  { unfold shipDistance. rewrite distance_on_axis by (cbn; lra). cbn. lra. }
  split; [reflexivity |]. split.
  - rewrite aimAngleOf_firingFrame. unfold candidate.
    rewrite Hdist, bearingOff_ahead by (cbn; lra).
    cbn [rock Asteroid.tier Asteroid.radius notMineable tier_eqb orb negb andb].
    unfold LASER_RANGE, CHUNK_RADIUS.
    rewrite !Rltb_true by lra. reflexivity.
  - apply lone_beyond_range.
    + reflexivity.
    + reflexivity.
    + change (ship (worldOf parked [rock CHUNK 1260] [])) with parked.
      rewrite Hdist. unfold LASER_RANGE. lra.
    + unfold alive, Rgtb. apply Rltb_true. cbn. lra.
Qed.

Lemma C5_laser_hits_nearest_in_range_witness :
  mouse_down firingFrame = true /\
  ((exists i a kids,
      nth_error [rock CHUNK 1100] i = Some a /\
      candidate parked (aimAngleOf firingFrame) a = true /\
      shipDistance parked a < LASER_RANGE /\
      (forall j b, nth_error [rock CHUNK 1100] j = Some b ->
                   candidate parked (aimAngleOf firingFrame) b = true ->
                   shipDistance parked a <= shipDistance parked b) /\
      (forall j b, (j < i)%nat -> nth_error [rock CHUNK 1100] j = Some b ->
                   candidate parked (aimAngleOf firingFrame) b = true ->
                   shipDistance parked a < shipDistance parked b) /\
      Forall fragment kids /\
      asteroids (miningLaser firingFrame
                   (worldOf parked [rock CHUNK 1100] []))
      = filter alive
          (setNth i (lasered startUpgrades a) [rock CHUNK 1100] ++ kids))
   \/
   ((forall b, In b [rock CHUNK 1100] ->
               candidate parked (aimAngleOf firingFrame) b = true ->
               LASER_RANGE <= shipDistance parked b) /\
    asteroids (miningLaser firingFrame (worldOf parked [rock CHUNK 1100] []))
    = filter alive [rock CHUNK 1100])).
Proof.
  split; [reflexivity |].
  exact (C5_laser_hits_nearest_in_range firingFrame
           (worldOf parked [rock CHUNK 1100] []) eq_refl).
Defined.

(** ** Ore pickup *)

Lemma asteroids_sectorCheck f t w :
  asteroids (sectorCheck f t w) = asteroids w.
Proof. frame_by (sectorCheck_keeps asteroids). Qed.

Lemma asteroids_docking w : asteroids (docking w) = asteroids w.
Proof. frame_by (docking_keeps asteroids). Qed.

Lemma asteroids_endOfFrame w :
  asteroids (gameOverCheck (tickInvulnerability w)) = asteroids w.
Proof. frame_by (endOfFrame_keeps asteroids). Qed.

Lemma cargo_endOfFrame w :
  Ship.cargo (ship (gameOverCheck (tickInvulnerability w)))
  = Ship.cargo (ship w).
Proof.
  rewrite ship_gameOverCheck. unfold tickInvulnerability. cbv zeta.
  destruct (_ <? _)%Z; reflexivity.
Qed.

Lemma lone_pickup f w a :
  gameState f = PLAYING -> quietInput f -> mines w = [] ->
  asteroids w = [a] -> alive a = true ->
  STATION_SHIELD_RADIUS + Asteroid.radius a
    <= distance origin (Asteroid.pos a) ->
  let s' := integrate (upgrades w) (Ship.set_thrusting false (ship w)) in
  checkCollision (Ship.pos s') (Ship.radius s')
    (Asteroid.pos (drift a)) (Asteroid.radius a) = true ->
  Asteroid.tier a = ORE ->
  (Ship.cargo (ship w) < Ship.maxCargo (ship w))%Z ->
  asteroids (update f w) = [Asteroid.set_hp 0 (drift a)] /\
  Ship.cargo (ship (update f w)) = (Ship.cargo (ship w) + 1)%Z.
Proof.
  intros Hp Hq Hm Ha Hal Hout s' Hc Ht Hr.
  rewrite (update_playing _ _ Hp), asteroids_endOfFrame, cargo_endOfFrame.
  destruct (lone_asteroid f w a Hq Hm Ha Hal Hout)
    as (w5 & Hs5 & Ha5 & _ & _ & _ & Hl5 & ->).
  fold s' in Hs5.
  assert (Hv5 : vitals s' = vitals (Ship.set_thrusting false (ship w)))
    by apply vitals_integrate.
  rewrite Ht. cbn [isBig].
  assert (Hcol : collide 0 (drift a) w5 =
    emit SyncUI
      (emit AudioPlayPickup
         (emit (TracePickup (drift a))
            (putAsteroid 0 (Asteroid.set_hp 0 (drift a))
               (set_sectorOreCollected (sectorOreCollected w5 + 1)
                  (set_ship (Ship.set_cargo (Ship.cargo (ship w5) + 1)
                               (ship w5)) w5)))))).
  { apply collide_pickup.
    - rewrite Hs5. exact Hc.
    - change (Asteroid.tier (drift a)) with (Asteroid.tier a).
      rewrite Ht. reflexivity.
    - rewrite Hs5.
      change (Ship.cargo s') with (v_cargo (vitals s')).
      change (Ship.maxCargo s') with (v_maxCargo (vitals s')).
      rewrite Hv5. exact Hr. }
  rewrite Hcol. clear Hcol.
  split.
  - change (asteroids (stepParticles ?x)) with (asteroids x).
    rewrite asteroids_docking, asteroids_sectorCheck.
    rewrite !asteroids_emit. unfold putAsteroid.
    change (asteroids (set_asteroids ?v _)) with v.
    change (asteroids (set_sectorOreCollected _ ?x)) with (asteroids x).
    change (asteroids (set_ship _ ?x)) with (asteroids x).
    rewrite Ha5. reflexivity.
  - change (ship (stepParticles ?x)) with (ship x).
    rewrite ship_docking, ship_sectorCheck, !ship_emit, ship_putAsteroid.
    change (ship (set_sectorOreCollected _ ?x)) with (ship x).
    change (ship (set_ship ?s _)) with s.
    change (Ship.cargo (Ship.set_cargo ?c _)) with c.
    rewrite Hs5. change (Ship.cargo s') with (v_cargo (vitals s')).
    rewrite Hv5. reflexivity.
Qed.

(** C8, evaluated where it fails.  The ship rests at (1000, 0) with an
    empty hold, a lone ORE rests 10 units from it, overlapping it, and
    nothing is pressed.  The frame collects the ore (cargo goes from 0 to
    1) and sets its hit points to 0; the array that the frame leaves still
    holds the ore, hit points 0: the filter on [hp > 0] ran before the
    collision loop. *)
Theorem C8_collected_ore_stays_in_collection :
  asteroids (update (idleFrame PLAYING) (worldOf parked [rock ORE 1010] []))
  = [Asteroid.set_hp 0 (rock ORE 1010)] /\
  alive (Asteroid.set_hp 0 (rock ORE 1010)) = false /\
  Ship.cargo (ship (update (idleFrame PLAYING)
                      (worldOf parked [rock ORE 1010] []))) = 1%Z.
Proof.
  destruct (lone_pickup (idleFrame PLAYING)
              (worldOf parked [rock ORE 1010] []) (rock ORE 1010))
    as (Ha & Hc).
  - reflexivity.
  - apply quietInput_idle.
  - reflexivity.
  - reflexivity.
  - unfold alive, Rgtb. cbn [Asteroid.hp rock]. apply Rltb_true. lra.
  - rewrite distance_on_axis by (cbn; lra). cbn.
    unfold STATION_SHIELD_RADIUS, ORE_RADIUS. lra.
  - rewrite integrate_rest by reflexivity.
    rewrite drift_rest by reflexivity.
    unfold checkCollision. rewrite distance_on_axis by (cbn; lra).
    apply Rltb_true. cbn. unfold ORE_RADIUS. lra.
  - reflexivity.
  - cbn. lia.
  - rewrite drift_rest in Ha by reflexivity.
    split; [exact Ha |]. split; [| exact Hc].
    unfold alive, Rgtb. apply Rltb_false. cbn. lra.
Qed.

(** ** The sector check *)

Lemma sectorClearedCalls_app l1 l2 :
  sectorClearedCalls (l1 ++ l2)
  = (sectorClearedCalls l1 + sectorClearedCalls l2)%nat.
Proof.
  induction l1 as [| e l1 IH]; [reflexivity |].
  destruct e; cbn [app sectorClearedCalls]; rewrite IH; reflexivity.
Qed.

Lemma clearedCalls_emit_quiet e w :
  isCleared e = false -> clearedCalls (emit e w) = clearedCalls w.
Proof.
  intro H. unfold clearedCalls, emit. cbn [log set_log].
  destruct e; try reflexivity; discriminate.
Qed.

Lemma clearedCalls_emit_cleared p o w :
  clearedCalls (emit (OnSectorCleared p o) w) = S (clearedCalls w).
Proof. reflexivity. Qed.

Ltac keeps_calls L :=
  first [ apply (L _ clearedCalls isCleared) | apply (L _ clearedCalls) ];
  intros; first [ reflexivity | apply clearedCalls_emit_quiet; assumption ].

Lemma clearedCalls_beforeAsteroids f w :
  clearedCalls (beforeAsteroids f w) = clearedCalls w.
Proof. keeps_calls (@beforeAsteroids_keeps). Qed.

Lemma clearedCalls_asteroidLoop n st :
  clearedCalls (snd (forEach n asteroidStep st)) = clearedCalls (snd st).
Proof. keeps_calls (@asteroidLoop_keeps). Qed.

Lemma clearedCalls_docking w : clearedCalls (docking w) = clearedCalls w.
Proof. keeps_calls (@docking_keeps). Qed.

Lemma clearedCalls_endOfFrame w :
  clearedCalls (gameOverCheck (tickInvulnerability w)) = clearedCalls w.
Proof. keeps_calls (@endOfFrame_keeps). Qed.

(** The check fires when nothing big is left. *)
Lemma sectorCheck_fires f w :
  gameState f = PLAYING -> sector f = prevSector w ->
  (0 < levelInitialAsteroids w)%Z ->
  sectorCheck f 0 w
  = emit (OnSectorCleared
            (floor (IZR (levelInitialAsteroids w - 0)
                    / IZR (levelInitialAsteroids w) * 100))
            (sectorOreCollected w)) w.
Proof.
  intros Hp Hs Hi. unfold sectorCheck. cbv zeta.
  rewrite (proj2 (Z.ltb_lt _ _) Hi).
  rewrite Rleb_true by (apply IZR_lt in Hi; lra).
  rewrite Hs, Z.eqb_refl, Hp. reflexivity.
Qed.

(** *** The physics loop counts no asteroid when none is big *)

Lemma Forall_setNth {A : Type} (P : A -> Prop) i v (l : list A) :
  Forall P l -> P v -> Forall P (setNth i v l).
Proof.
  intros Hl Hv. revert i.
  induction Hl as [| h t Hh Ht IH]; intros [| i]; cbn [setNth];
    constructor; auto.
Qed.

Lemma tier_moveAsteroid a w :
  Asteroid.tier (fst (moveAsteroid a w)) = Asteroid.tier a.
Proof.
  unfold moveAsteroid.
  destruct (Rltb _ _); [destruct (Rltb _ 0) |]; reflexivity.
Qed.

Lemma asteroids_moveAsteroid a w :
  asteroids (snd (moveAsteroid a w)) = asteroids w.
Proof. frame_by (moveAsteroid_keeps asteroids). Qed.

Lemma collide_notBig i a w :
  notBig a -> Forall notBig (asteroids w) ->
  Forall notBig (asteroids (collide i a w)).
Proof.
  intros Ha Hw. unfold collide. cbv zeta.
  destruct (checkCollision _ _ _ _); [| exact Hw].
  destruct (tier_eqb (Asteroid.tier a) ORE).
  - destruct (_ <? _)%Z; [| exact Hw].
    rewrite !asteroids_emit. unfold putAsteroid.
    cbn [asteroids set_asteroids set_sectorOreCollected set_ship].
    apply Forall_setNth; [exact Hw | exact Ha].
  - destruct (_ <=? 0)%Z; [| exact Hw].
    destruct (_ || _); exact Hw.
Qed.

Lemma asteroidStep_notBig i st :
  fst st = 0%Z /\ Forall notBig (asteroids (snd st)) ->
  fst (asteroidStep i st) = 0%Z /\
  Forall notBig (asteroids (snd (asteroidStep i st))).
Proof.
  destruct st as [t w]. cbn [fst snd]. intros [Ht Hw]. subst t.
  unfold asteroidStep.
  destruct (nth_error (asteroids w) i) as [a0 |] eqn:Hn;
    [| split; [reflexivity | exact Hw]].
  assert (Ha0 : notBig a0).
  { apply nth_error_In in Hn. rewrite Forall_forall in Hw. auto. }
  pose proof (tier_moveAsteroid a0 w) as Htier.
  pose proof (asteroids_moveAsteroid a0 w) as Hasts.
  destruct (moveAsteroid a0 w) as [a w1]. cbn [fst snd] in *.
  assert (Ha : notBig a) by (unfold notBig; rewrite Htier; exact Ha0).
  rewrite Ha. cbn [fst snd]. split; [reflexivity |].
  apply collide_notBig; [exact Ha |].
  unfold putAsteroid. cbn [asteroids set_asteroids].
  apply Forall_setNth; [rewrite Hasts; exact Hw | exact Ha].
Qed.

Lemma asteroidLoop_notBig n w :
  Forall notBig (asteroids w) ->
  fst (forEach n asteroidStep (0%Z, w)) = 0%Z /\
  Forall notBig (asteroids (snd (forEach n asteroidStep (0%Z, w)))).
Proof.
  intro H. unfold forEach.
  apply (forEachFrom_inv
           (fun st => fst st = 0%Z /\ Forall notBig (asteroids (snd st)))).
  - intros i s. apply asteroidStep_notBig.
  - split; [reflexivity | exact H].
Qed.

(** *** A frame up to the sector check *)

Lemma frameBody_physics f w :
  frameBody f w
  = stepParticles
      (docking (sectorCheck f (fst (afterPhysics f w))
                  (snd (afterPhysics f w)))).
Proof.
  rewrite frameBody_unfold. cbv zeta. unfold afterPhysics.
  destruct (forEach _ asteroidStep _); reflexivity.
Qed.

Lemma extends_afterPhysics f w : extends w (snd (afterPhysics f w)).
Proof.
  unfold afterPhysics, forEach.
  apply (forEachFrom_inv (fun st => extends w (snd st))).
  - intros i s. apply extends_asteroidStep.
  - cbn [snd]. unfold beforeAsteroids, beforeMines.
    apply extends_stepMines, extends_tractorBeam, extends_miningLaser,
      extends_cameraFollow, extends_shipControls, extends_shakeDecay,
      extends_refl.
Qed.

Lemma clearedCalls_afterPhysics f w :
  clearedCalls (snd (afterPhysics f w)) = clearedCalls w.
Proof.
  unfold afterPhysics.
  rewrite clearedCalls_asteroidLoop. cbn [snd].
  apply clearedCalls_beforeAsteroids.
Qed.

Lemma levelInitialAsteroids_afterPhysics f w :
  levelInitialAsteroids (snd (afterPhysics f w)) = levelInitialAsteroids w.
Proof.
  unfold afterPhysics.
  rewrite (asteroidLoop_keeps levelInitialAsteroids (fun _ => false))
    by (intros; reflexivity).
  cbn [snd].
  apply (beforeAsteroids_keeps levelInitialAsteroids (fun _ => false));
    intros; reflexivity.
Qed.

Lemma prevSector_afterPhysics f w :
  prevSector (snd (afterPhysics f w)) = prevSector w.
Proof.
  unfold afterPhysics.
  rewrite (asteroidLoop_keeps prevSector (fun _ => false))
    by (intros; reflexivity).
  cbn [snd].
  apply (beforeAsteroids_keeps prevSector (fun _ => false));
    intros; reflexivity.
Qed.

(** A PLAYING frame of the current sector whose physics loop sees no big
    asteroid calls [onSectorCleared], once. *)
Lemma clearing_frame f w :
  gameState f = PLAYING -> sector f = prevSector w ->
  (0 < levelInitialAsteroids w)%Z ->
  Forall notBig (asteroids (beforeAsteroids f w)) ->
  Forall notBig (asteroids (snd (afterPhysics f w))) /\
  exists p o,
    frameBody f w
    = stepParticles
        (docking (emit (OnSectorCleared p o) (snd (afterPhysics f w)))).
Proof.
  intros Hp Hs Hi Hn.
  destruct (asteroidLoop_notBig
              (List.length (asteroids (beforeAsteroids f w)))
              (beforeAsteroids f w) Hn) as (Ht & Hn6).
  fold (afterPhysics f w) in Ht, Hn6.
  split; [exact Hn6 |].
  rewrite frameBody_physics, Ht.
  rewrite sectorCheck_fires.
  - eexists. eexists. reflexivity.
  - exact Hp.
  - rewrite prevSector_afterPhysics. exact Hs.
  - rewrite levelInitialAsteroids_afterPhysics. exact Hi.
Qed.

Lemma clearing_frame_calls f w :
  gameState f = PLAYING -> sector f = prevSector w ->
  (0 < levelInitialAsteroids w)%Z ->
  Forall notBig (asteroids (beforeAsteroids f w)) ->
  clearedCalls (update f w) = S (clearedCalls w).
Proof.
  intros Hp Hs Hi Hn.
  destruct (clearing_frame f w Hp Hs Hi Hn) as (_ & p & o & Hb).
  rewrite (update_playing _ _ Hp), clearedCalls_endOfFrame, Hb.
  change (clearedCalls (stepParticles ?x)) with (clearedCalls x).
  rewrite clearedCalls_docking, clearedCalls_emit_cleared.
  rewrite clearedCalls_afterPhysics. reflexivity.
Qed.

Lemma asteroids_update f w :
  gameState f = PLAYING ->
  asteroids (update f w) = asteroids (snd (afterPhysics f w)).
Proof.
  intro Hp.
  rewrite (update_playing _ _ Hp), asteroids_endOfFrame, frameBody_physics.
  change (asteroids (stepParticles ?x)) with (asteroids x).
  rewrite asteroids_docking, asteroids_sectorCheck. reflexivity.
Qed.

(** *** Quiet frames *)

Lemma beforeMines_quiet f w :
  quietInput f ->
  ship (beforeMines f w) = coasted w /\
  asteroids (beforeMines f w) = asteroids w /\
  mines (beforeMines f w) = mines w.
Proof.
  intros (Hk & Hd & Hr). unfold beforeMines.
  rewrite (tractorBeam_off _ _ Hr), (miningLaser_off _ _ Hd),
    (shipControls_quiet _ _ Hk).
  unfold emit, cameraFollow, coasted.
  cbn [ship asteroids mines upgrades set_log set_laser set_camera set_ship].
  rewrite (shakeDecay_keeps ship), (shakeDecay_keeps asteroids),
    (shakeDecay_keeps upgrades), (shakeDecay_keeps mines)
    by (intros; reflexivity).
  repeat split; reflexivity.
Qed.

Lemma Forall_filter {A : Type} (P : A -> Prop) (p : A -> bool) (l : list A) :
  Forall P l -> Forall P (filter p l).
Proof.
  intro H. apply Forall_forall. intros x Hx. apply filter_In in Hx.
  rewrite Forall_forall in H. apply H. tauto.
Qed.

(** Once nothing big is left, nothing big comes back in a quiet frame. *)
Lemma quiet_frame_notBig f w :
  quietInput f -> mines w = [] -> Forall notBig (asteroids w) ->
  Forall notBig (asteroids (beforeAsteroids f w)).
Proof.
  intros Hq Hm Hn.
  destruct (beforeAsteroids_quiet f w Hq Hm) as (_ & Ha & _).
  rewrite Ha. apply Forall_filter. exact Hn.
Qed.

(** *** The last mine goes off far from the ship *)

Lemma blastShip_far m w :
  MINE_BLAST_RADIUS <= distance (Mine.pos m) (Ship.pos (ship w)) ->
  blastShip m w = w.
Proof. intro H. unfold blastShip. cbv zeta. rewrite (Rltb_false _ _ H). reflexivity. Qed.

Lemma ship_mineStep_far w m0 :
  mines w = [m0] -> (Mine.timer m0 <= 1)%Z ->
  MINE_BLAST_RADIUS <= distance (Mine.pos m0) (Ship.pos (ship w)) ->
  ship (mineStep 0 w) = ship w.
Proof.
  intros Hm Ht Hfar. unfold mineStep. rewrite Hm. cbn [nth_error]. cbv zeta.
  cbn [Mine.timer Mine.set_timer].
  replace (0 <? Mine.timer m0 - 1)%Z with false
    by (symmetry; apply Z.ltb_ge; lia).
  cbn [andb].
  replace (Mine.timer m0 - 1 <=? 0)%Z with true
    by (symmetry; apply Z.leb_le; lia).
  match goal with
  | |- ship (blastShip ?m ?w') = _ =>
      assert (Hs : ship w' = ship w)
        by (rewrite ship_forEach_blast, !ship_spawnParticles;
            destruct (_ =? _)%Z; reflexivity);
      rewrite (blastShip_far m w'); [exact Hs |]; rewrite Hs; exact Hfar
  end.
Qed.

Lemma stepMines_lone_detonation w m0 :
  mines w = [m0] -> (Mine.timer m0 <= 1)%Z ->
  MINE_BLAST_RADIUS <= distance (Mine.pos m0) (Ship.pos (ship w)) ->
  ship (stepMines w) = ship w /\
  exists kids,
    Forall fragment kids /\
    asteroids (stepMines w)
    = filter alive (map (blastHit m0) (asteroids w) ++ kids).
Proof.
  intros Hm Ht Hfar. unfold stepMines. cbv zeta. rewrite Hm.
  cbn [List.length]. unfold forEach. cbn [forEachFrom].
  cbn [ship asteroids set_asteroids set_mines]. split.
  - apply (ship_mineStep_far w m0); assumption.
  - destruct (mineStep_detonation 0 w m0) as (kids & Hk & Ha).
    + rewrite Hm. reflexivity.
    + lia.
    + exists kids. split; [exact Hk |]. rewrite Ha. reflexivity.
Qed.

Lemma tier_blastHit m a : Asteroid.tier (blastHit m a) = Asteroid.tier a.
Proof.
  unfold blastHit. destruct (Rltb _ _); [| reflexivity].
  cbv zeta. destruct (Asteroid.tier a) eqn:E; cbn; exact E.
Qed.

(** A blast that reaches every big asteroid leaves none. *)
Lemma blast_leaves_notBig m asts kids :
  Forall (fun a => isBig (Asteroid.tier a) = true ->
                   mineDistance m a < MINE_BLAST_RADIUS) asts ->
  Forall fragment kids ->
  Forall notBig (filter alive (map (blastHit m) asts ++ kids)).
Proof.
  intros Hin Hk. apply Forall_forall. intros x Hx.
  apply filter_In in Hx. destruct Hx as (Hx & Hal).
  apply in_app_or in Hx. destruct Hx as [Hx | Hx].
  - apply in_map_iff in Hx. destruct Hx as (a & <- & Ha).
    unfold notBig. rewrite tier_blastHit.
    destruct (isBig (Asteroid.tier a)) eqn:Hb; [exfalso | reflexivity].
    rewrite Forall_forall in Hin.
    destruct (blastHit_inside m a (Hin a Ha Hb)) as (_ & _ & Hhp & _).
    unfold alive in Hal. apply Rgtb_spec in Hal. rewrite Hhp in Hal.
    destruct (Asteroid.tier a); try discriminate; lra.
  - rewrite Forall_forall in Hk. apply (Hk x Hx).
Qed.

(** *** An invulnerable ship goes through the physics loop unmoved *)

Lemma collide_invulnerable i a w :
  (0 < Ship.invulnerableTimer (ship w))%Z ->
  emptied (ship (collide i a w)) = emptied (ship w).
Proof.
  intro Ht. unfold collide. cbv zeta.
  destruct (checkCollision _ _ _ _); [| reflexivity].
  destruct (tier_eqb _ ORE).
  - destruct (_ <? _)%Z; reflexivity.
  - replace (Ship.invulnerableTimer (ship w) <=? 0)%Z with false
      by (symmetry; apply Z.leb_gt; exact Ht).
    reflexivity.
Qed.

Lemma timer_emptied s s' :
  emptied s = emptied s' ->
  Ship.invulnerableTimer s = Ship.invulnerableTimer s'.
Proof. intro H. apply (f_equal Ship.invulnerableTimer) in H. exact H. Qed.

Lemma asteroidStep_invulnerable i st :
  (0 < Ship.invulnerableTimer (ship (snd st)))%Z ->
  emptied (ship (snd (asteroidStep i st))) = emptied (ship (snd st)).
Proof.
  destruct st as [t w]. cbn [snd]. intro Ht. unfold asteroidStep.
  destruct (nth_error (asteroids w) i) as [a0 |]; [| reflexivity].
  pose proof (ship_moveAsteroid a0 w) as Hm.
  destruct (moveAsteroid a0 w) as [a w1]. cbn [snd] in *.
  rewrite collide_invulnerable.
  - rewrite ship_putAsteroid, Hm. reflexivity.
  - rewrite ship_putAsteroid, Hm. exact Ht.
Qed.

Lemma asteroidLoop_invulnerable n st :
  (0 < Ship.invulnerableTimer (ship (snd st)))%Z ->
  emptied (ship (snd (forEach n asteroidStep st))) = emptied (ship (snd st)).
Proof.
  intro Ht. unfold forEach.
  apply (forEachFrom_inv
           (fun s => emptied (ship (snd s)) = emptied (ship (snd st)))).
  - intros i s Hs. rewrite asteroidStep_invulnerable; [exact Hs |].
    rewrite (timer_emptied _ _ Hs). exact Ht.
  - reflexivity.
Qed.

Lemma timer_coasted w :
  Ship.invulnerableTimer (coasted w) = Ship.invulnerableTimer (ship w).
Proof.
  unfold coasted.
  change (Ship.invulnerableTimer ?s) with (v_timer (vitals s)).
  rewrite vitals_integrate. reflexivity.
Qed.

Lemma hull_coasted w : Ship.hull (coasted w) = Ship.hull (ship w).
Proof.
  unfold coasted. change (Ship.hull ?s) with (v_hull (vitals s)).
  rewrite vitals_integrate. reflexivity.
Qed.

(** A quiet frame with one mine that goes off out of reach of the ship,
    the ship invulnerable: what the physics loop hands to the sector
    check. *)
Lemma lone_blast_frame f w m0 :
  quietInput f -> mines w = [m0] -> (Mine.timer m0 <= 1)%Z ->
  MINE_BLAST_RADIUS <= distance (Mine.pos m0) (Ship.pos (coasted w)) ->
  (0 < Ship.invulnerableTimer (ship w))%Z ->
  Forall (fun a => isBig (Asteroid.tier a) = true ->
                   mineDistance m0 a < MINE_BLAST_RADIUS) (asteroids w) ->
  emptied (ship (snd (afterPhysics f w))) = emptied (coasted w) /\
  Forall notBig (asteroids (beforeAsteroids f w)).
Proof.
  intros Hq Hm Ht Hfar Hinv Hbig.
  destruct (beforeMines_quiet f w Hq) as (Hs & Ha & Hms).
  rewrite <- Hms in Hm. rewrite <- Hs in Hfar.
  destruct (stepMines_lone_detonation (beforeMines f w) m0 Hm Ht Hfar)
    as (Hship & kids & Hk & Hasts).
  fold (beforeAsteroids f w) in Hship, Hasts.
  split.
  - unfold afterPhysics. rewrite asteroidLoop_invulnerable; cbn [snd].
    + rewrite Hship, Hs. reflexivity.
    + rewrite Hship, Hs, timer_coasted. exact Hinv.
  - rewrite Hasts, Ha. apply blast_leaves_notBig; assumption.
Qed.

(** *** Clearing the sector and docking in one frame *)

Lemma docking_fires w :
  canDock (ship w) = true ->
  docking w = emit (AudioPlayUI "buy") (emit (SetGameState DOCKED) w).
Proof. intro H. unfold docking, canDock in *. cbv zeta. rewrite H. reflexivity. Qed.

Lemma gameOverCheck_afloat w : 0 < Ship.hull (ship w) -> gameOverCheck w = w.
Proof. intro H. unfold gameOverCheck. rewrite (Rleb_false _ _ H). reflexivity. Qed.

Lemma clear_and_dock_log f w p o w6 :
  gameState f = PLAYING ->
  frameBody f w = stepParticles (docking (emit (OnSectorCleared p o) w6)) ->
  extends w w6 -> canDock (ship w6) = true -> 0 < Ship.hull (ship w6) ->
  exists newer,
    log (update f w)
    = AudioPlayUI "buy" :: SetGameState DOCKED
        :: (OnSectorCleared p o :: newer) ++ log w.
Proof.
  intros Hp Hb [newer Hn] Hd Hh.
  assert (Hd' : docking (emit (OnSectorCleared p o) w6)
                = emit (AudioPlayUI "buy")
                    (emit (SetGameState DOCKED)
                       (emit (OnSectorCleared p o) w6)))
    by (apply docking_fires; exact Hd).
  rewrite Hd' in Hb.
  rewrite (update_playing _ _ Hp), gameOverCheck_afloat.
  - rewrite log_tickInvulnerability, Hb. exists newer.
    change (log (stepParticles ?x)) with (log x).
    rewrite !log_emit, Hn. reflexivity.
  - rewrite hull_tickInvulnerability, Hb. exact Hh.
Qed.

Lemma docked_wins f a newer :
  log (update (withProps a f) (world a))
  = AudioPlayUI "buy" :: SetGameState DOCKED :: newer ++ log (world a) ->
  app_gameState (animationFrame f a) = DOCKED.
Proof.
  intro Hl. rewrite animationFrame_gameState.
  rewrite (frameEvents_extends _ _
             (AudioPlayUI "buy" :: SetGameState DOCKED :: newer) Hl).
  cbn [rev]. rewrite <- app_assoc. rewrite fold_left_app.
  reflexivity.
Qed.

(** *** What a re-render leaves alone *)

Section AppView.
Context {A : Type} (V : World -> A).
Hypothesis V_buy : forall w, V (emit (AudioPlayUI "buy") w) = V w.
Hypothesis V_prev : forall g w, V (set_prevGameState g w) = V w.

Lemma applyEvent_view a e : V (world (applyEvent a e)) = V (world a).
Proof. destruct e; try reflexivity. cbn [applyEvent handleSectorCleared world]. apply V_buy. Qed.

Lemma fold_applyEvent_view evs :
  forall a, V (world (fold_left applyEvent evs a)) = V (world a).
Proof.
  induction evs as [| e evs IH]; intro a; cbn [fold_left].
  - reflexivity.
  - rewrite IH. apply applyEvent_view.
Qed.

Lemma commit_view old a :
  app_gameState old = PLAYING -> app_sector a = app_sector old ->
  V (world (commit old a)) = V (world a).
Proof.
  intros Hp Hs. unfold commit. rewrite Hp, Hs, Z.eqb_refl.
  destruct (app_gameState a) eqn:Hg; cbn [GameState_eqb andb];
    try reflexivity; unfold spawnResetEffect; cbn [GameState_eqb andb world];
    apply V_prev.
Qed.

Lemma animationFrame_view f a :
  app_gameState a = PLAYING ->
  V (world (animationFrame f a)) = V (update (withProps a f) (world a)).
Proof.
  intro Hp. unfold animationFrame. cbv zeta.
  rewrite commit_view.
  - rewrite fold_applyEvent_view. reflexivity.
  - exact Hp.
  - rewrite fold_applyEvent_sector. reflexivity.
Qed.
End AppView.

Lemma animationFrame_sector f a :
  app_sector (animationFrame f a) = app_sector a.
Proof.
  unfold animationFrame. cbv zeta.
  rewrite commit_sector, fold_applyEvent_sector. reflexivity.
Qed.

Lemma commit_prevGameState old a :
  app_gameState old <> app_gameState a ->
  prevGameState (world (commit old a)) = app_gameState a.
Proof.
  intro H. unfold commit.
  destruct (GameState_eqb (app_gameState old) (app_gameState a)) eqn:E.
  - apply GameState_eqb_eq in E. contradiction.
  - cbn [andb world]. reflexivity.
Qed.

Lemma animationFrame_prevGameState f a :
  app_gameState a <> app_gameState (animationFrame f a) ->
  prevGameState (world (animationFrame f a))
  = app_gameState (animationFrame f a).
Proof.
  intro H. rewrite animationFrame_gameState in *.
  unfold animationFrame. cbv zeta.
  rewrite commit_prevGameState; [reflexivity | exact H].
Qed.

(** Leaving the station: the re-render finds the phase changed from DOCKED
    and the sector unchanged, and resets nothing. *)
Lemma relaunch_world a :
  app_gameState a = DOCKED -> prevGameState (world a) = DOCKED ->
  prevSector (world a) = app_sector a ->
  commit a (handleUndock a)
  = mkApp PLAYING (app_sector a) (sectorStats a)
      (set_prevGameState PLAYING (world (handleUndock a))).
Proof.
  intros Hd Hg Hs. unfold commit.
  change (app_gameState (handleUndock a)) with PLAYING.
  change (app_sector (handleUndock a)) with (app_sector a).
  change (sectorStats (handleUndock a)) with (sectorStats a).
  rewrite Hd. cbn [GameState_eqb andb].
  unfold spawnResetEffect. cbv zeta.
  change (prevGameState (world (handleUndock a)))
    with (prevGameState (world a)).
  rewrite Hg. cbn [GameState_eqb andb orb].
  change (prevSector (world (handleUndock a))) with (prevSector (world a)).
  rewrite Hs, Z.eqb_refl. cbn [andb negb].
  reflexivity.
Qed.

Lemma prevSector_update f w : prevSector (update f w) = prevSector w.
Proof. frame_by (update_keeps prevSector). Qed.

Lemma levelInitialAsteroids_update f w :
  levelInitialAsteroids (update f w) = levelInitialAsteroids w.
Proof. frame_by (update_keeps levelInitialAsteroids). Qed.

Lemma quietInput_withProps a f : quietInput f -> quietInput (withProps a f).
Proof. intro H. exact H. Qed.

(** C2, where it fails.  The frame in which the last mine takes the last
    big asteroids of the sector is also the frame in which the ship, out of
    reach of the blast, meets the docking condition: [onSectorCleared] is
    called, and the [setGameState(DOCKED)] that follows in the same frame
    is the phase that stays.  When the player leaves the station the phase
    is PLAYING again, the sector is the same and has not been reset, and
    the next frame calls [onSectorCleared] a second time. *)
Theorem C2_sector_cleared_again_after_docking
  (f f' : Frame) (a : App) (m0 : Mine.t) :
  app_gameState a = PLAYING ->
  app_sector a = prevSector (world a) ->
  (0 < levelInitialAsteroids (world a))%Z ->
  quietInput f -> quietInput f' ->
  mines (world a) = [m0] -> (Mine.timer m0 <= 1)%Z ->
  Forall (fun t => isBig (Asteroid.tier t) = true ->
                   mineDistance m0 t < MINE_BLAST_RADIUS)
    (asteroids (world a)) ->
  MINE_BLAST_RADIUS
    <= distance (Mine.pos m0) (Ship.pos (coasted (world a))) ->
  (0 < Ship.invulnerableTimer (ship (world a)))%Z ->
  0 < Ship.hull (ship (world a)) ->
  canDock (coasted (world a)) = true ->
  app_gameState (animationFrame f a) = DOCKED /\
  clearedCalls (world (animationFrame f a)) = S (clearedCalls (world a)) /\
  app_gameState (relaunch (animationFrame f a)) = PLAYING /\
  app_sector (relaunch (animationFrame f a)) = app_sector a /\
  prevSector (world (relaunch (animationFrame f a))) = app_sector a /\
  clearedCalls (world (animationFrame f' (relaunch (animationFrame f a))))
  = S (S (clearedCalls (world a))).
Proof.
  intros Hp Hsec Hinit Hq Hq' Hm Ht Hbig Hfar Hinv Hhull Hdock.
  assert (HpF : gameState (withProps a f) = PLAYING) by exact Hp.
  assert (HsF : sector (withProps a f) = prevSector (world a)) by exact Hsec.
  pose proof (quietInput_withProps a f Hq) as HqF.
  destruct (lone_blast_frame (withProps a f) (world a) m0
              HqF Hm Ht Hfar Hinv Hbig) as (Hship6 & Hn5).
  destruct (clearing_frame (withProps a f) (world a) HpF HsF Hinit Hn5)
    as (Hn6 & p & o & Hb).
  pose proof (clearing_frame_calls (withProps a f) (world a)
                HpF HsF Hinit Hn5) as Hcalls.
  assert (Hd6 : canDock (ship (snd (afterPhysics (withProps a f) (world a))))
                = true).
  { change (canDock ?s) with (canDock (emptied s)).
    rewrite Hship6. exact Hdock. }
  assert (Hh6 : 0 < Ship.hull
                      (ship (snd (afterPhysics (withProps a f) (world a))))).
  { change (Ship.hull ?s) with (Ship.hull (emptied s)).
    rewrite Hship6.
    change (Ship.hull (emptied ?s)) with (Ship.hull s).
    rewrite hull_coasted. exact Hhull. }
  destruct (clear_and_dock_log (withProps a f) (world a) p o _
              HpF Hb (extends_afterPhysics _ _) Hd6 Hh6) as [newer Hlog].
  pose proof (docked_wins f a _ Hlog) as Hdocked.
  assert (Hc1 : clearedCalls (world (animationFrame f a))
                = S (clearedCalls (world a))).
  { rewrite (animationFrame_view clearedCalls); try assumption;
      try (intros; reflexivity). }
  assert (Hm1 : mines (world (animationFrame f a)) = []).
  { rewrite (animationFrame_view mines); try assumption;
      try (intros; reflexivity).
    apply (mine_purged_on_detonation _ _ m0); assumption. }
  assert (Ha1 : Forall notBig (asteroids (world (animationFrame f a)))).
  { rewrite (animationFrame_view asteroids); try assumption;
      try (intros; reflexivity).
    rewrite (asteroids_update _ _ HpF). exact Hn6. }
  assert (Hs1 : prevSector (world (animationFrame f a)) = app_sector a).
  { rewrite (animationFrame_view prevSector); try assumption;
      try (intros; reflexivity).
    rewrite prevSector_update. symmetry. exact Hsec. }
  assert (Hi1 : (0 < levelInitialAsteroids (world (animationFrame f a)))%Z).
  { rewrite (animationFrame_view levelInitialAsteroids); try assumption;
      try (intros; reflexivity).
    rewrite levelInitialAsteroids_update. exact Hinit. }
  assert (Hg1 : prevGameState (world (animationFrame f a)) = DOCKED).
  { rewrite animationFrame_prevGameState; [exact Hdocked |].
    rewrite Hp, Hdocked. discriminate. }
  pose proof (animationFrame_sector f a) as Hsec1.
  remember (animationFrame f a) as a1 eqn:E1. clear E1.
  unfold relaunch.
  rewrite (relaunch_world a1 Hdocked Hg1) by (rewrite Hs1, Hsec1; reflexivity).
  split; [exact Hdocked |]. split; [exact Hc1 |].
  split; [reflexivity |]. split; [exact Hsec1 |]. split; [exact Hs1 |].
  rewrite (animationFrame_view clearedCalls);
    try reflexivity; try (intros; reflexivity).
  rewrite clearing_frame_calls.
  - cbn [world]. change (clearedCalls (set_prevGameState _ ?w)) with (clearedCalls w).
    change (clearedCalls (world (handleUndock a1)))
      with (clearedCalls (world a1)).
    rewrite Hc1. reflexivity.
  - reflexivity.
  - cbn [withProps sector app_sector world].
    change (prevSector (set_prevGameState _ ?w)) with (prevSector w).
    change (prevSector (world (handleUndock a1)))
      with (prevSector (world a1)).
    rewrite Hs1, Hsec1. reflexivity.
  - cbn [world].
    change (levelInitialAsteroids (set_prevGameState _ ?w))
      with (levelInitialAsteroids w).
    change (levelInitialAsteroids (world (handleUndock a1)))
      with (levelInitialAsteroids (world a1)).
    exact Hi1.
  - apply quiet_frame_notBig.
    + apply quietInput_withProps. exact Hq'.
    + cbn [world]. change (mines (set_prevGameState _ ?w)) with (mines w).
      change (mines (world (handleUndock a1))) with (mines (world a1)).
      exact Hm1.
    + cbn [world].
      change (asteroids (set_prevGameState _ ?w)) with (asteroids w).
      change (asteroids (world (handleUndock a1)))
        with (asteroids (world a1)).
      exact Ha1.
Qed.

(** *** The gliding ship *)

Lemma distance_sym p q : distance p q = distance q p.
Proof. unfold distance. f_equal. ring. Qed.

Lemma integrate_along_x up s :
  Ship.vy s = 0 -> 0 <= Ship.vx s <= MAX_SPEED ->
  Ship.x (integrate up s) = Ship.x s + Ship.vx s * FRICTION /\
  Ship.y (integrate up s) = Ship.y s /\
  Ship.vx (integrate up s) = Ship.vx s * FRICTION /\
  Ship.vy (integrate up s) = 0.
Proof.
  intros Hy Hx. unfold integrate, capSpeed. rewrite Hy.
  replace (Ship.vx s * Ship.vx s + 0 * 0) with (Ship.vx s * Ship.vx s)
    by ring.
  rewrite sqrt_square by lra.
  unfold Rgtb. rewrite Rltb_false
    by (unfold maxSpeedOf; pose proof (pos_INR (engineLevel up)); lra).
  cbv zeta.
  cbn [Ship.x Ship.y Ship.vx Ship.vy Ship.set_x Ship.set_y Ship.set_vx
       Ship.set_vy].
  rewrite Hy. repeat split; ring.
Qed.

Lemma coasted_lastTitan :
  Ship.x (coasted lastTitan) = 1.01 * 0.98 /\
  Ship.y (coasted lastTitan) = 0 /\
  Ship.vx (coasted lastTitan) = 1.01 * 0.98 /\
  Ship.vy (coasted lastTitan) = 0.
Proof.
  destruct (integrate_along_x (upgrades lastTitan)
              (Ship.set_thrusting false (ship lastTitan)))
    as (Hx & Hy & Hvx & Hvy).
  - reflexivity.
  - cbn. unfold MAX_SPEED. lra.
  - fold (coasted lastTitan) in Hx, Hy, Hvx, Hvy.
    rewrite Hx, Hy, Hvx, Hvy. cbn. unfold FRICTION.
    repeat split; lra.
Qed.

Lemma lastTitan_out_of_reach :
  MINE_BLAST_RADIUS
    <= distance (Mine.pos (mineAt 1)) (Ship.pos (coasted lastTitan)).
Proof.
  destruct coasted_lastTitan as (Hx & Hy & _).
  rewrite distance_sym, distance_on_axis.
  - cbn [px Mine.pos Ship.pos]. rewrite Hx. cbn. unfold MINE_BLAST_RADIUS. lra.
  - cbn [py Mine.pos Ship.pos]. rewrite Hy. reflexivity.
  - cbn [px Mine.pos Ship.pos]. rewrite Hx. cbn. lra.
Qed.

Lemma lastTitan_canDock : canDock (coasted lastTitan) = true.
Proof.
  destruct coasted_lastTitan as (Hx & Hy & Hvx & Hvy).
  unfold canDock. rewrite Hvx, Hvy, distance_on_axis.
  - cbn [px origin Ship.pos]. rewrite Hx.
    rewrite Rabs_R0, (Rabs_right (1.01 * 0.98)) by lra.
    unfold STATION_RADIUS, SHIP_RADIUS.
    rewrite !Rltb_true by lra. reflexivity.
  - cbn [py origin Ship.pos]. rewrite Hy. reflexivity.
  - cbn [px origin Ship.pos]. rewrite Hx. lra.
Qed.

Lemma lastTitan_in_reach :
  Forall (fun t => isBig (Asteroid.tier t) = true ->
                   mineDistance (mineAt 1) t < MINE_BLAST_RADIUS)
    (asteroids lastTitan).
Proof.
  constructor; [| constructor]. intros _.
  unfold mineDistance. rewrite distance_on_axis by (cbn; lra). cbn.
  unfold MINE_BLAST_RADIUS. lra.
Qed.

Lemma C2_sector_cleared_again_after_docking_witness :
  app_gameState afterBlast = DOCKED /\
  clearedCalls (world afterBlast) = 1%nat /\
  app_gameState (relaunch afterBlast) = PLAYING /\
  app_sector (relaunch afterBlast) = 1%Z /\
  prevSector (world (relaunch afterBlast)) = 1%Z /\
  clearedCalls (world (animationFrame (idleFrame PLAYING)
                         (relaunch afterBlast))) = 2%nat.
Proof.
  unfold afterBlast.
  apply (C2_sector_cleared_again_after_docking
           (idleFrame PLAYING) (idleFrame PLAYING) (playing lastTitan)
           (mineAt 1)).
  - reflexivity.
  - reflexivity.
  - reflexivity.
  - apply quietInput_idle.
  - apply quietInput_idle.
  - reflexivity.
  - cbn. lia.
  - exact lastTitan_in_reach.
  - exact lastTitan_out_of_reach.
  - reflexivity.
  - cbn. lra.
  - exact lastTitan_canDock.
Defined.
